(** * VulnMap dashboard client: polling / reconciliation protocols

    A shallow embedding of the browser scripts of the dashboard:
    - [Scan]     : static/js/scan_animation.js   (scan overlay animator)
    - [Resolve]  : static/js/resolve_ports.js    (row action controller)
    - [News]     : static/js/news_search.js      (news-search job poller)
    - [Withdraw] : static/js/user_dashboard.js   (withdrawal form handler)

    The browser is single threaded: every callback (click handler, animation
    frame, interval tick, promise reaction, timeout) runs to completion.  Each
    module therefore models its script as a transition function of the page
    state, one transition per callback, and the environment (user, clock,
    network, random source) as the events that trigger the callbacks. *)

From Stdlib Require Import ZArith QArith Qround Qminmax Lia Lqa Bool Ascii.
From stdpp Require Import base option list gmap strings pretty.

Local Open Scope Z_scope.

(* ===================================================================== *)
(** * Scan overlay animator (static/js/scan_animation.js)                 *)
(* ===================================================================== *)
Module Scan.

(** The repository carries two revisions of the script; they differ in the
    animation length, in the caption schedule, in the easing and final snap
    of the bar and in the closing delay.  [Rev1] is the 12-20 s revision,
    [Rev2] the 4-9 s one.  Clock readings are in whole milliseconds. *)
Inductive revision := Rev1 | Rev2.

(** [12000 + Math.floor(Math.random() * 8000)] resp.
    [4000 + Math.floor(Math.random() * 5000)]; [r] is the value of
    [Math.random()]. *)
Definition pick_totalMs (v : revision) (r : Q) : Z :=
  match v with
  | Rev1 => 12000 + Qfloor (r * 8000)%Q
  | Rev2 => 4000 + Qfloor (r * 5000)%Q
  end.

(** The five stage captions [steps[0..4]] and the three final captions. *)
Inductive caption :=
  | Stage (i : nat)            (* steps[i] *)
  | Found (changed : Z)        (* "N ports discovered" *)
  | NothingFound               (* "no vulnerabilities discovered" *)
  | ScanFailed.                (* "could not complete the scan, retry" *)

Definition steps_length : nat := 5.

(** [bar.style.width]: ['0%'], the value written by a tick for the rounded
    percentage [pct] (eased by [Math.pow(pct/100, 0.8)] in [Rev1], plain in
    [Rev2]), or the final ['100%']. *)
Inductive width :=
  | Zero
  | Eased (pct : Z)
  | Plain (pct : Z)
  | Full.

(** The JSON body of the scan endpoint, as far as the script reads it. *)
Record body := {
  ok : bool;
  changed : option Z;
  tables : nat     (* stands for discovered[], resolved[], archived[], counts and wallet *)
}.

(** How the [fetch(...).then(r => r.json())] chain ends: a parsed body
    ([null] is valid JSON) or a rejection (network error, invalid JSON). *)
Inductive outcome :=
  | Parsed (d : option body)
  | Rejected.

(** Control state of one activation of [doScan]. *)
Inductive phase :=
  | Animating      (* a [requestAnimationFrame(tick)] is outstanding *)
  | AwaitingReq    (* duration elapsed, [finally] reaction waits for [req] *)
  | Closing        (* finalized, the closing [setTimeout] is outstanding *)
  | Closed.        (* the closing callback has run *)

(** The local variables of one activation of [doScan]. *)
Record activation := {
  totalMs : Z;
  start : Z;
  payload : option body;     (* [let payload = null] *)
  settled : bool;            (* has the promise [req] settled? *)
  stepIdx : nat;
  ph : phase
}.

(** The elements behind [VM.ui]; [None] when [getElementById] finds nothing. *)
Record page := {
  scanInFlight : bool;           (* VM.state.scanInFlight *)
  overlay : option bool;         (* is #scan-overlay displayed ('flex')? *)
  btn : option bool;             (* is #scan-btn disabled (and of class 'disabled')? *)
  bar : option (width * bool);   (* #scan-bar width, and whether the closing transition is set *)
  status : option caption;       (* #scan-status text *)
  applied : list body;           (* bodies handed to updateCountsWallet / renderAll *)
  posts : nat;                   (* POST requests sent to the scan endpoint *)
  scans : list activation        (* every activation of doScan so far *)
}.

Definition set_if {A} (el : option A) (x : A) : option A :=
  match el with Some _ => Some x | None => None end.

Definition with_scan (p : page) (i : nat) (sc : activation) : page :=
  {| scanInFlight := scanInFlight p; overlay := overlay p; btn := btn p;
     bar := bar p; status := status p; applied := applied p; posts := posts p;
     scans := <[i := sc]> (scans p) |}.

(** [doScan()], called at clock reading [now] with [Math.random() = r]. *)
Definition doScan (v : revision) (now : Z) (r : Q) (p : page) : page :=
  if scanInFlight p then p
  else
    {| scanInFlight := true;
       overlay := set_if (overlay p) true;
       btn := set_if (btn p) true;
       bar := match bar p with Some (_, tr) => Some (Zero, tr) | None => None end;
       status := set_if (status p) (Stage 0);
       applied := applied p;
       posts := S (posts p);
       scans := scans p ++ [ {| totalMs := pick_totalMs v r; start := now;
                                payload := None; settled := false;
                                stepIdx := 0; ph := Animating |} ] |}.

(** [Math.min(100, Math.round((elapsed / totalMs) * 100))];
    [Math.round x] is [floor (x + 1/2)]. *)
Definition percent (elapsed total : Z) : Z :=
  Z.min 100 (Qfloor (inject_Z elapsed / inject_Z total * 100 + (1 # 2))%Q).

(** The caption test of a tick: [elapsed >= (stepIdx + 1) * (totalMs / 5)]
    in [Rev1], [elapsed > (stepIdx + 1) * 800] in [Rev2]. *)
Definition stage_due (v : revision) (sc : activation) (elapsed : Z) : bool :=
  match v with
  | Rev1 => (Nat.ltb (stepIdx sc) steps_length)
            && ((Z.of_nat (stepIdx sc) + 1) * totalMs sc <=? 5 * elapsed)
  | Rev2 => ((Z.of_nat (stepIdx sc) + 1) * 800 <? elapsed)
            && (Nat.ltb (stepIdx sc) steps_length)
  end.

(** The caption chosen by the [finally] reaction from [payload.ok] and
    [payload.changed]. *)
Definition final_caption (pl : option body) : caption :=
  match pl with
  | Some d =>
      if ok d then
        match changed d with
        | Some c => if 0 <? c then Found c else NothingFound
        | None => NothingFound
        end
      else ScanFailed
  | None => ScanFailed
  end.

(** The body of the [finally] reaction: final caption, wallet and table
    update when the scan succeeded, bar snapped to 100% with its own
    transition ([Rev1]), closing timeout scheduled (900 ms in [Rev1], 600 ms
    in [Rev2]; when it fires is up to the environment). *)
Definition finalize (v : revision) (i : nat) (sc : activation) (p : page) : page :=
  {| scanInFlight := scanInFlight p;
     overlay := overlay p;
     btn := btn p;
     bar := match v with
            | Rev1 => set_if (bar p) (Full, true)
            | Rev2 => bar p
            end;
     status := set_if (status p) (final_caption (payload sc));
     applied := match payload sc with
                | Some d => if ok d then applied p ++ [d] else applied p
                | None => applied p
                end;
     posts := posts p;
     scans := <[i := {| totalMs := totalMs sc; start := start sc;
                        payload := payload sc; settled := settled sc;
                        stepIdx := stepIdx sc; ph := Closing |}]> (scans p) |}.

(** [tick(now)] of activation [i].  The caption and [stepIdx++] sit behind
    [if (status)], so [stepIdx] only advances when the element exists. *)
Definition tick (v : revision) (i : nat) (sc : activation) (now : Z) (p : page) : page :=
  let elapsed := now - start sc in
  let pct := percent elapsed (totalMs sc) in
  let due := stage_due v sc elapsed && bool_decide (is_Some (status p)) in
  let sc1 := {| totalMs := totalMs sc; start := start sc; payload := payload sc;
                settled := settled sc;
                stepIdx := if due then S (stepIdx sc) else stepIdx sc;
                ph := if elapsed <? totalMs sc then Animating else AwaitingReq |} in
  let p1 :=
    {| scanInFlight := scanInFlight p; overlay := overlay p; btn := btn p;
       bar := match bar p with
              | Some (_, tr) =>
                  Some (match v with Rev1 => Eased pct | Rev2 => Plain pct end, tr)
              | None => None
              end;
       status := if due then set_if (status p) (Stage (stepIdx sc)) else status p;
       applied := applied p; posts := posts p;
       scans := <[i := sc1]> (scans p) |} in
  if elapsed <? totalMs sc then p1
  else if settled sc then finalize v i sc1 p1
  else p1.

(** The reactions [.then(d => { payload = d; })] and
    [.catch(() => { payload = { ok:false }; })], after which [req] is settled
    and a waiting [finally] reaction runs. *)
Definition received (o : outcome) : option body :=
  match o with
  | Parsed d => d
  | Rejected => Some {| ok := false; changed := None; tables := 0 |}
  end.

Definition settle (v : revision) (i : nat) (sc : activation) (o : outcome) (p : page) : page :=
  let sc1 := {| totalMs := totalMs sc; start := start sc; payload := received o;
                settled := true; stepIdx := stepIdx sc; ph := ph sc |} in
  match ph sc with
  | AwaitingReq => finalize v i sc1 (with_scan p i sc1)
  | _ => with_scan p i sc1
  end.

(** The closing callback of [setTimeout]. *)
Definition close (i : nat) (sc : activation) (p : page) : page :=
  {| scanInFlight := false;
     overlay := set_if (overlay p) false;
     btn := set_if (btn p) false;
     bar := bar p; status := status p; applied := applied p; posts := posts p;
     scans := <[i := {| totalMs := totalMs sc; start := start sc;
                        payload := payload sc; settled := settled sc;
                        stepIdx := stepIdx sc; ph := Closed |}]> (scans p) |}.

(** What the environment can do to the page. *)
Inductive event :=
  | Trigger (now : Z) (r : Q)        (* click on the button or submit of the form *)
  | Frame (i : nat) (now : Z)        (* animation frame callback of activation i *)
  | Response (i : nat) (o : outcome) (* the fetch chain of activation i ends *)
  | Timeout (i : nat).               (* closing timeout of activation i fires *)

Definition unit_interval (r : Q) : bool :=
  (Qle_bool 0%Q r) && negb (Qle_bool 1%Q r).

(** One callback.  [None]: the browser cannot deliver this event in this
    state (no such frame request, promise or timeout is outstanding). *)
Definition step (v : revision) (ev : event) (p : page) : option page :=
  match ev with
  | Trigger now r => if unit_interval r then Some (doScan v now r p) else None
  | Frame i now =>
      sc ← scans p !! i;
      match ph sc with Animating => Some (tick v i sc now p) | _ => None end
  | Response i o =>
      sc ← scans p !! i;
      if settled sc then None else Some (settle v i sc o p)
  | Timeout i =>
      sc ← scans p !! i;
      match ph sc with Closing => Some (close i sc p) | _ => None end
  end.

Fixpoint run (v : revision) (evs : list event) (p : page) : option page :=
  match evs with
  | [] => Some p
  | ev :: evs' => p' ← step v ev p; run v evs' p'
  end.

(** The page right after the script has loaded: no scan yet; which elements
    exist depends on the template. *)
Definition loaded (has_overlay has_btn has_bar has_status : bool) : page :=
  {| scanInFlight := false;
     overlay := if has_overlay then Some false else None;
     btn := if has_btn then Some false else None;
     bar := if has_bar then Some (Zero, false) else None;
     status := if has_status then Some (Stage 0) else None;
     applied := []; posts := 0; scans := [] |}.

Definition is_loaded (p : page) : Prop :=
  ∃ a b c d, p = loaded a b c d.

(** An activation is in flight until its closing callback has run; its
    request is in flight until [req] settles; it is finalized once the
    [finally] reaction has run. *)
Definition in_flight (sc : activation) : bool :=
  match ph sc with Closed => false | _ => true end.

Definition request_pending (sc : activation) : bool := negb (settled sc).

Definition finalized (sc : activation) : bool :=
  match ph sc with Closing | Closed => true | _ => false end.

(** ** How a callback changes the list of activations *)

(** Every callback of activation [i] rewrites entry [i] only, and keeps
    [totalMs] and [start]. *)
Definition evolve (sc : activation) (pl : option body) (s : bool) (idx : nat)
    (f : phase) : activation :=
  {| totalMs := totalMs sc; start := start sc; payload := pl; settled := s;
     stepIdx := idx; ph := f |}.

Definition after_tick (sc : activation) (now : Z) : phase :=
  if now - start sc <? totalMs sc then Animating
  else if settled sc then Closing else AwaitingReq.

Definition after_settle (sc : activation) : phase :=
  match ph sc with AwaitingReq => Closing | f => f end.

Lemma tick_scans v i sc now p :
  scanInFlight (tick v i sc now p) = scanInFlight p ∧
  posts (tick v i sc now p) = posts p ∧
  ∃ idx, scans (tick v i sc now p)
         = <[i := evolve sc (payload sc) (settled sc) idx (after_tick sc now)]> (scans p).
Proof.
  unfold tick, after_tick.
  destruct (now - start sc <? totalMs sc); simpl; [eauto|].
  destruct (settled sc) eqn:Hs; simpl; rewrite ?list_insert_insert_eq, ?Hs; eauto.
Qed.

Lemma settle_scans v i sc o p :
  scanInFlight (settle v i sc o p) = scanInFlight p ∧
  posts (settle v i sc o p) = posts p ∧
  scans (settle v i sc o p)
  = <[i := evolve sc (received o) true (stepIdx sc) (after_settle sc)]> (scans p).
Proof.
  unfold settle, after_settle.
  destruct (ph sc) eqn:Hph; simpl; rewrite ?list_insert_insert_eq; auto.
Qed.

(** ** Invariant: activations are appended, only the last can be live *)

Definition inv (p : page) : Prop :=
  ∀ i sc, scans p !! i = Some sc →
    (in_flight sc = true → scanInFlight p = true ∧ S i = length (scans p))
    ∧ (settled sc = false → ph sc = Animating ∨ ph sc = AwaitingReq)
    ∧ (ph sc = AwaitingReq → settled sc = false).

Lemma inv_loaded p : is_loaded p → inv p.
Proof.
  intros (a & b & c & d & ->) i sc Hi. simpl in Hi.
  by rewrite lookup_nil in Hi.
Qed.

Lemma inv_idle p i sc :
  inv p → scanInFlight p = false → scans p !! i = Some sc → ph sc = Closed.
Proof.
  intros Hinv Hflag Hi. destruct (Hinv i sc Hi) as (Hlive & _ & _).
  unfold in_flight in Hlive.
  destruct (ph sc); try done; destruct Hlive as [Hf _]; auto; congruence.
Qed.

Lemma inv_doScan v now r p : inv p → inv (doScan v now r p).
Proof.
  intros Hinv. unfold doScan. destruct (scanInFlight p) eqn:Hflag; [done|].
  intros i sc Hi. simpl in Hi.
  apply lookup_snoc_Some in Hi as [[Hlt Hi] | [-> <-]].
  - pose proof (inv_idle p i sc Hinv Hflag Hi) as Hc.
    unfold in_flight. rewrite Hc. repeat split; try done.
    intros Hs. destruct (Hinv i sc Hi) as (_ & Hp & _).
    destruct (Hp Hs); congruence.
  - simpl. rewrite length_app. simpl. repeat split; auto; lia.
Qed.

Lemma inv_replace p p' i sc sc' :
  inv p → scans p !! i = Some sc →
  scanInFlight p' = scanInFlight p →
  scans p' = <[i := sc']> (scans p) →
  in_flight sc = true →
  (settled sc' = false → ph sc' = Animating ∨ ph sc' = AwaitingReq) →
  (ph sc' = AwaitingReq → settled sc' = false) →
  inv p'.
Proof.
  intros Hinv Hi Hflag Hscans Hlive H1 H2 j scj Hj.
  rewrite Hscans in Hj. rewrite Hscans, Hflag, length_insert.
  apply list_lookup_insert_Some in Hj as [(-> & <- & Hlt) | [Hne Hj]].
  - destruct (Hinv j sc Hi) as (Ha & _ & _). auto.
  - apply (Hinv j scj Hj).
Qed.

Lemma inv_close p i sc :
  inv p → scans p !! i = Some sc → ph sc = Closing → inv (close i sc p).
Proof.
  intros Hinv Hi Hph j scj Hj. simpl in Hj. simpl.
  destruct (Hinv i sc Hi) as (Hlive & Hpend & _).
  unfold in_flight in Hlive. rewrite Hph in Hlive.
  destruct (Hlive eq_refl) as [_ Hlast].
  apply list_lookup_insert_Some in Hj as [(-> & <- & Hlt) | [Hne Hj]].
  - unfold in_flight. simpl. split; [done|]. split; [|done].
    intros Hs. destruct (Hpend Hs); congruence.
  - destruct (Hinv j scj Hj) as (Hlj & Hpj & Haj).
    split; [|by split]. intros Hl. destruct (Hlj Hl) as [_ Hlast']. lia.
Qed.

Lemma inv_step v ev p p' : inv p → step v ev p = Some p' → inv p'.
Proof.
  intros Hinv Hstep. destruct ev as [now r | i now | i o | i]; simpl in Hstep.
  - destruct (unit_interval r); [|done]. injection Hstep as <-.
    by apply inv_doScan.
  - destruct (scans p !! i) as [sc|] eqn:Hi; [|done]. simpl in Hstep.
    destruct (ph sc) eqn:Hph; try done. injection Hstep as <-.
    destruct (tick_scans v i sc now p) as (Hf & _ & idx & Hsc).
    destruct (Hinv i sc Hi) as (_ & Hpend & _).
    eapply (inv_replace p _ i sc); eauto.
    + unfold in_flight. by rewrite Hph.
    + unfold evolve, after_tick. simpl. intros ->.
      destruct (_ <? _); auto.
    + unfold evolve, after_tick. simpl.
      destruct (_ <? _); [done|]. by destruct (settled sc).
  - destruct (scans p !! i) as [sc|] eqn:Hi; [|done]. simpl in Hstep.
    destruct (settled sc) eqn:Hs; [done|]. injection Hstep as <-.
    destruct (settle_scans v i sc o p) as (Hf & _ & Hsc).
    destruct (Hinv i sc Hi) as (_ & Hpend & _).
    eapply (inv_replace p _ i sc); eauto.
    + unfold in_flight. destruct (Hpend Hs) as [-> | ->]; done.
    + done.
    + unfold evolve, after_settle. simpl. destruct (ph sc); done.
  - destruct (scans p !! i) as [sc|] eqn:Hi; [|done]. simpl in Hstep.
    destruct (ph sc) eqn:Hph; try done. injection Hstep as <-.
    by apply inv_close.
Qed.

Lemma inv_run v evs : ∀ p p', inv p → run v evs p = Some p' → inv p'.
Proof.
  induction evs as [|ev evs IH]; intros p p' Hinv Hrun; simpl in Hrun.
  - by injection Hrun as <-.
  - destruct (step v ev p) as [p1|] eqn:Hstep; [|done]. simpl in Hrun.
    eapply IH; [|exact Hrun]. eapply inv_step; eauto.
Qed.

(** Requests are sent by [doScan] only, one per activation. *)
Lemma posts_run v evs : ∀ p p',
  posts p = length (scans p) → run v evs p = Some p' →
  posts p' = length (scans p').
Proof.
  induction evs as [|ev evs IH]; intros p p' Hp Hrun; simpl in Hrun.
  - by injection Hrun as <-.
  - destruct (step v ev p) as [p1|] eqn:Hstep; [|done]. simpl in Hrun.
    eapply IH; [|exact Hrun]. clear Hrun IH.
    destruct ev as [now r | i now | i o | i]; simpl in Hstep.
    + destruct (unit_interval r); [|done]. injection Hstep as <-.
      unfold doScan. destruct (scanInFlight p); [done|]. simpl.
      rewrite length_app. simpl. lia.
    + destruct (scans p !! i) as [sc|] eqn:Hi; [|done]. simpl in Hstep.
      destruct (ph sc); try done. injection Hstep as <-.
      destruct (tick_scans v i sc now p) as (_ & Hposts & idx & ->).
      by rewrite Hposts, length_insert.
    + destruct (scans p !! i) as [sc|] eqn:Hi; [|done]. simpl in Hstep.
      destruct (settled sc); [done|]. injection Hstep as <-.
      destruct (settle_scans v i sc o p) as (_ & Hposts & ->).
      by rewrite Hposts, length_insert.
    + destruct (scans p !! i) as [sc|] eqn:Hi; [|done]. simpl in Hstep.
      destruct (ph sc); try done. injection Hstep as <-. simpl.
      by rewrite length_insert.
Qed.

(** C1.  In every state the page can reach, at most one activation of
    [doScan] is in flight and at most one scan request is pending; and while
    [scanInFlight] is set, a further [doScan] leaves the whole page state as
    it is: no request is sent, no activation is created, the overlay, button,
    bar and caption are untouched. *)
Theorem single_scan_in_flight v evs p0 p :
  is_loaded p0 → run v evs p0 = Some p →
  (∀ i j sci scj,
      scans p !! i = Some sci → scans p !! j = Some scj →
      in_flight sci = true → in_flight scj = true → i = j)
  ∧ (∀ i sc, scans p !! i = Some sc → request_pending sc = true →
             in_flight sc = true)
  ∧ (scanInFlight p = false →
     ∀ i sc, scans p !! i = Some sc → in_flight sc = false)
  ∧ posts p = length (scans p)
  ∧ (scanInFlight p = true → ∀ now r, doScan v now r p = p).
Proof.
  intros Hload Hrun.
  assert (Hinv : inv p) by (eapply inv_run; eauto using inv_loaded).
  repeat split.
  - intros i j sci scj Hi Hj Hli Hlj.
    destruct (Hinv i sci Hi) as (Ha & _ & _), (Hinv j scj Hj) as (Hb & _ & _).
    destruct (Ha Hli), (Hb Hlj). lia.
  - intros i sc Hi Hpend. unfold request_pending in Hpend.
    destruct (Hinv i sc Hi) as (_ & Hb & _). unfold in_flight.
    destruct (Hb ltac:(by destruct (settled sc))) as [-> | ->]; done.
  - intros Hflag i sc Hi. unfold in_flight.
    by rewrite (inv_idle p i sc Hinv Hflag Hi).
  - eapply posts_run; [|exact Hrun].
    by destruct Hload as (a & b & c & d & ->).
  - intros Hflag now r. unfold doScan. by rewrite Hflag.
Qed.

(** A run of [Rev1] in which the trigger fires twice while the first scan is
    animating: one activation, one request. *)
Lemma single_scan_in_flight_witness :
  let p0 := loaded true true true true in
  let evs := [Trigger 0 (1 # 2); Frame 0 16; Trigger 20 (1 # 4)] in
  ∃ p, run Rev1 evs p0 = Some p ∧ posts p = 1%nat ∧ scanInFlight p = true
       ∧ ∀ now r, doScan Rev1 now r p = p.
Proof.
  eexists. split; [vm_compute; reflexivity|].
  split; [reflexivity|]. split; [reflexivity|].
  refine (proj2 (proj2 (proj2 (proj2
    (single_scan_in_flight Rev1 [Trigger 0 (1 # 2); Frame 0 16; Trigger 20 (1 # 4)]
       (loaded true true true true) _ _ _)))) _).
  - by exists true, true, true, true.
  - vm_compute. reflexivity.
  - reflexivity.
Defined.

(** ** Finalization joins the animation and the request *)

(** The callbacks seen as a relation on the list of activations. *)
Inductive evolves : event → list activation → list activation → Prop :=
  | Ev_guarded now r l :
      evolves (Trigger now r) l l
  | Ev_started now r l sc :
      ph sc = Animating → settled sc = false →
      evolves (Trigger now r) l (l ++ [sc])
  | Ev_frame i now l sc idx :
      l !! i = Some sc → ph sc = Animating →
      evolves (Frame i now) l
        (<[i := evolve sc (payload sc) (settled sc) idx (after_tick sc now)]> l)
  | Ev_response i o l sc :
      l !! i = Some sc → settled sc = false →
      evolves (Response i o) l
        (<[i := evolve sc (received o) true (stepIdx sc) (after_settle sc)]> l)
  | Ev_timeout i l sc :
      l !! i = Some sc → ph sc = Closing →
      evolves (Timeout i) l
        (<[i := evolve sc (payload sc) (settled sc) (stepIdx sc) Closed]> l).

Lemma step_evolves v ev p p' :
  step v ev p = Some p' → evolves ev (scans p) (scans p').
Proof.
  intros Hstep. destruct ev as [now r | i now | i o | i]; simpl in Hstep.
  - destruct (unit_interval r); [|done]. injection Hstep as <-.
    unfold doScan. destruct (scanInFlight p); simpl; by constructor.
  - destruct (scans p !! i) as [sc|] eqn:Hi; [|done]. simpl in Hstep.
    destruct (ph sc) eqn:Hph; try done. injection Hstep as <-.
    destruct (tick_scans v i sc now p) as (_ & _ & idx & ->). by constructor.
  - destruct (scans p !! i) as [sc|] eqn:Hi; [|done]. simpl in Hstep.
    destruct (settled sc) eqn:Hs; [done|]. injection Hstep as <-.
    destruct (settle_scans v i sc o p) as (_ & _ & ->). by constructor.
  - destruct (scans p !! i) as [sc|] eqn:Hi; [|done]. simpl in Hstep.
    destruct (ph sc) eqn:Hph; try done. injection Hstep as <-.
    simpl. by constructor.
Qed.

(** What the history of callbacks says about activation [i]: a frame was
    delivered at or after the end of the animation; the request has settled. *)
Definition elapsed_seen (evs : list event) (i : nat) (sc : activation) : Prop :=
  ∃ now, Frame i now ∈ evs ∧ totalMs sc ≤ now - start sc.

Definition response_seen (evs : list event) (i : nat) : Prop :=
  ∃ o, Response i o ∈ evs.

Definition mentions (evs : list event) (i : nat) : Prop :=
  (∃ now, Frame i now ∈ evs) ∨ response_seen evs i.

Definition agrees (evs : list event) (l : list activation) : Prop :=
  (∀ i sc, l !! i = Some sc →
     (settled sc = true ↔ response_seen evs i)
     ∧ (ph sc ≠ Animating ↔ elapsed_seen evs i sc))
  ∧ (∀ i, mentions evs i → (i < length l)%nat).

Lemma elapsed_seen_snoc evs ev i sc :
  elapsed_seen (evs ++ [ev]) i sc ↔
  elapsed_seen evs i sc ∨ ∃ now, ev = Frame i now ∧ totalMs sc ≤ now - start sc.
Proof.
  unfold elapsed_seen. split.
  - intros (now & [Hin | <-%list_elem_of_singleton]%elem_of_app & Hle); eauto.
  - intros [(now & Hin & Hle) | (now & -> & Hle)]; exists now;
      (split; [apply elem_of_app|done]); [by left | right; apply list_elem_of_singleton; done].
Qed.

Lemma response_seen_snoc evs ev i :
  response_seen (evs ++ [ev]) i ↔ response_seen evs i ∨ ∃ o, ev = Response i o.
Proof.
  unfold response_seen. split.
  - intros (o & [Hin | <-%list_elem_of_singleton]%elem_of_app); eauto.
  - intros [(o & Hin) | (o & ->)]; exists o; apply elem_of_app;
      [by left | right; by apply list_elem_of_singleton].
Qed.

Lemma mentions_snoc evs ev i :
  mentions (evs ++ [ev]) i ↔
  mentions evs i ∨ (∃ now, ev = Frame i now) ∨ (∃ o, ev = Response i o).
Proof.
  unfold mentions. rewrite response_seen_snoc. split.
  - intros [(now & [Hin | <-%list_elem_of_singleton]%elem_of_app) | [H | H]]; eauto.
  - intros [[(now & Hin) | H] | [(now & ->) | H]]; eauto.
    + left. exists now. apply elem_of_app. by left.
    + left. exists now. apply elem_of_app. right. by apply list_elem_of_singleton.
Qed.

Lemma agrees_evolves ev evs l l' :
  agrees evs l → evolves ev l l' → agrees (evs ++ [ev]) l'.
Proof.
  intros [Hact Hrange] Hev.
  assert (Hfresh : ¬ mentions evs (length l))
    by (intros Hm; apply Hrange in Hm; lia).
  inversion Hev as [now r l0 | now r l0 sc Hph Hs | i now l0 sc idx Hi Hph
                   | i o l0 sc Hi Hs | i l0 sc Hi Hph]; subst; split.
  - intros i sc Hi. rewrite response_seen_snoc, elapsed_seen_snoc.
    destruct (Hact i sc Hi) as [-> ->]. split; split; eauto.
    + intros [H | (o & [=])]; done.
    + intros [H | (n & [=] & _)]; done.
  - intros i. rewrite mentions_snoc. intros [H | [(n & [=]) | (o & [=])]]. eauto.
  - intros i sc' [[Hlt Hi] | [-> <-]]%lookup_snoc_Some;
      rewrite response_seen_snoc, elapsed_seen_snoc.
    + destruct (Hact i sc' Hi) as [-> ->]. split; split; eauto.
      * intros [H | (o & [=])]; done.
      * intros [H | (n & [=] & _)]; done.
    + rewrite Hph, Hs. split; split; try done.
      * intros [H | (o & [=])]. destruct Hfresh. right. done.
      * intros [(n & Hin & _) | (n & [=] & _)]. destruct Hfresh.
        left. eauto.
  - intros i. rewrite mentions_snoc, length_app. simpl.
    intros [H%Hrange | [(n & [=]) | (o & [=])]]. lia.
  - intros j scj [(-> & <- & Hlt) | [Hne Hj]]%list_lookup_insert_Some;
      rewrite response_seen_snoc, elapsed_seen_snoc.
    + destruct (Hact j sc Hi) as [Hset Hel]. unfold evolve, after_tick. simpl.
      rewrite Hset. split; split; eauto.
      * intros [H | (o & [=])]; done.
      * intros Hne. right. exists now. split; [done|].
        destruct (now - start sc <? totalMs sc) eqn:Hlt'; [done|].
        apply Z.ltb_ge in Hlt'. done.
      * intros [H%Hel | (n & [= <-] & Hle)]; [done|].
        apply Z.ltb_ge in Hle. rewrite Hle. by destruct (settled sc).
    + destruct (Hact j scj Hj) as [-> ->]. split; split; eauto.
      * intros [H | (o & [=])]; done.
      * intros [H | (n & [= -> _] & _)]; done.
  - intros j. rewrite mentions_snoc, length_insert.
    intros [H%Hrange | [(n & [= ->]) | (o & [=])]]; [done|].
    by eapply lookup_lt_Some.
  - intros j scj [(-> & <- & Hlt) | [Hne Hj]]%list_lookup_insert_Some;
      rewrite response_seen_snoc, elapsed_seen_snoc.
    + destruct (Hact j sc Hi) as [Hset Hel]. unfold evolve, after_settle. simpl.
      split; split; eauto.
      * intros Hph. left. apply Hel. by destruct (ph sc).
      * intros [H%Hel | (n & [=] & _)]. by destruct (ph sc).
    + destruct (Hact j scj Hj) as [-> ->]. split; split; eauto.
      * intros [H | (o' & [= -> _])]; done.
      * intros [H | (n & [=] & _)]; done.
  - intros j. rewrite mentions_snoc, length_insert.
    intros [H%Hrange | [(n & [=]) | (o' & [= ->])]]; [done|].
    by eapply lookup_lt_Some.
  - intros j scj [(-> & <- & Hlt) | [Hne Hj]]%list_lookup_insert_Some;
      rewrite response_seen_snoc, elapsed_seen_snoc.
    + destruct (Hact j sc Hi) as [Hset Hel]. unfold evolve. simpl.
      rewrite Hset. split; split; eauto.
      * intros [H | (o & [=])]; done.
      * intros _. left. apply Hel. by rewrite Hph.
    + destruct (Hact j scj Hj) as [-> ->]. split; split; eauto.
      * intros [H | (o' & [=])]; done.
      * intros [H | (n & [=] & _)]; done.
  - intros j. rewrite mentions_snoc, length_insert.
    intros [H%Hrange | [(n & [=]) | (o' & [=])]]. done.
Qed.

(** The observable effects of finalization: a final caption in the status
    line, a body handed to the wallet and table updaters, the bar snapped to
    100%. *)
Definition final_caption_shown (p : page) : Prop :=
  ∃ c, status p = Some c ∧ ∀ k, c ≠ Stage k.

Definition finalization_visible (p : page) : Prop :=
  final_caption_shown p ∨ applied p ≠ [] ∨ ∃ tr, bar p = Some (Full, tr).

Definition some_finalized (l : list activation) : Prop :=
  ∃ i sc, l !! i = Some sc ∧ finalized sc = true.

Lemma some_finalized_evolves ev l l' :
  evolves ev l l' → some_finalized l → some_finalized l'.
Proof.
  intros Hev (j & scj & Hj & Hfin).
  assert (Hcase : ∀ i sc sc', l !! i = Some sc →
            (finalized sc = true → finalized sc' = true) →
            some_finalized (<[i := sc']> l)).
  { intros i sc sc' Hi Hmono. destruct (decide (i = j)) as [-> | Hne].
    - exists j, sc'. split.
      + apply list_lookup_insert_eq. by eapply lookup_lt_Some.
      + apply Hmono. congruence.
    - exists j, scj. by rewrite list_lookup_insert_ne. }
  inversion Hev as [now r l0 | now r l0 sc Hph Hs | i now l0 sc idx Hi Hph
                   | i o l0 sc Hi Hs | i l0 sc Hi Hph]; subst.
  - by exists j, scj.
  - exists j, scj. split; [|done]. apply lookup_app_Some. by left.
  - eapply Hcase; eauto. unfold finalized. by rewrite Hph.
  - eapply Hcase; eauto. unfold finalized, evolve, after_settle. simpl.
    by destruct (ph sc).
  - eapply Hcase; eauto.
Qed.

Lemma finalize_some_finalized v i sc p :
  (i < length (scans p))%nat → some_finalized (scans (finalize v i sc p)).
Proof.
  intros Hlt. eexists i, _. split; [by apply list_lookup_insert_eq|done].
Qed.

Lemma visible_step v ev p p' :
  step v ev p = Some p' → finalization_visible p' →
  finalization_visible p ∨ some_finalized (scans p').
Proof.
  intros Hstep Hvis. destruct ev as [now r | i now | i o | i]; simpl in Hstep.
  - destruct (unit_interval r); [|done]. injection Hstep as <-.
    left. revert Hvis. unfold doScan. destruct (scanInFlight p); [done|].
    unfold finalization_visible, final_caption_shown. simpl.
    intros [(c & Hc & Hfin) | [H | (tr & Hbar)]]; auto.
    + destruct (status p); [|done]. injection Hc as <-. by destruct (Hfin 0%nat).
    + destruct (bar p) as [[]|]; done.
  - destruct (scans p !! i) as [sc|] eqn:Hi; [|done]. simpl in Hstep.
    destruct (ph sc) eqn:Hph; try done. injection Hstep as <-.
    revert Hvis. unfold tick.
    set (sc1 := Build_activation _ _ _ _ _ _).
    set (p1 := Build_page _ _ _ _ _ _ _ _).
    assert (Hp1 : finalization_visible p1 → finalization_visible p).
    { unfold finalization_visible, final_caption_shown. subst p1. simpl.
      intros [(c & Hc & Hfin) | [H | (tr & Hbar)]]; auto.
      - destruct (_ && _); [|eauto].
        destruct (status p); [|done]. injection Hc as <-.
        by destruct (Hfin (stepIdx sc)).
      - destruct (bar p) as [[]|]; [|done]. by destruct v. }
    destruct (_ <? _); [auto|]. destruct (settled sc); [|auto].
    intros _. right. apply finalize_some_finalized. subst p1. simpl.
    rewrite length_insert. by eapply lookup_lt_Some.
  - destruct (scans p !! i) as [sc|] eqn:Hi; [|done]. simpl in Hstep.
    destruct (settled sc) eqn:Hs; [done|]. injection Hstep as <-.
    revert Hvis. unfold settle. destruct (ph sc); auto.
    intros _. right. apply finalize_some_finalized. simpl.
    rewrite length_insert. by eapply lookup_lt_Some.
  - destruct (scans p !! i) as [sc|] eqn:Hi; [|done]. simpl in Hstep.
    destruct (ph sc) eqn:Hph; try done. injection Hstep as <-. auto.
Qed.

Lemma run_agrees v evs : ∀ pre p p',
  inv p → agrees pre (scans p) →
  (finalization_visible p → some_finalized (scans p)) →
  run v evs p = Some p' →
  inv p' ∧ agrees (pre ++ evs) (scans p')
  ∧ (finalization_visible p' → some_finalized (scans p')).
Proof.
  induction evs as [|ev evs IH]; intros pre p p' Hinv Hag Hvis Hrun;
    simpl in Hrun.
  - injection Hrun as <-. by rewrite app_nil_r.
  - destruct (step v ev p) as [p1|] eqn:Hstep; [|done]. simpl in Hrun.
    rewrite cons_middle, app_assoc.
    eapply IH; [| | |exact Hrun].
    + eapply inv_step; eauto.
    + eapply agrees_evolves; eauto using step_evolves.
    + intros [H | H]%(visible_step v ev p p1 Hstep); [|done].
      eapply some_finalized_evolves; eauto using step_evolves.
Qed.

(** ** The callback that finalizes an activation *)

(** The callback leading from [p] to [p'] is the one in which the [finally]
    reaction of activation [i] runs. *)
Definition finalized_by_step (p p' : page) (i : nat) : Prop :=
  ∃ sc sc', scans p !! i = Some sc ∧ scans p' !! i = Some sc'
            ∧ finalized sc = false ∧ finalized sc' = true.

(** The bodies the [finally] reaction hands to [VM.updateCountsWallet] and
    [VM.render.renderAll]. *)
Definition delivered (pl : option body) : list body :=
  match pl with
  | Some d => if ok d then [d] else []
  | None => []
  end.

Definition callback_of (i : nat) (ev : event) : Prop :=
  (∃ now, ev = Frame i now) ∨ (∃ o, ev = Response i o).

(** What finalization does to the page, read off the page before the
    callback: the final caption of the activation's own payload, its body
    applied when it says [ok], the bar snapped to 100% with the closing
    transition (12-20 s revision), the closing timeout outstanding. *)
Definition finalization_effects (v : revision) (p p' : page) (sc' : activation)
    : Prop :=
  ph sc' = Closing
  ∧ status p' = set_if (status p) (final_caption (payload sc'))
  ∧ applied p' = applied p ++ delivered (payload sc')
  ∧ (v = Rev1 → bar p' = set_if (bar p) (Full, true)).

(** A callback without any of these: nothing is applied, the caption stays
    or becomes a stage caption, the bar is not snapped, no closing timeout is
    scheduled. *)
Definition no_finalization_effects (p p' : page) : Prop :=
  applied p' = applied p
  ∧ (status p' = status p ∨ ∃ k, status p' = set_if (status p) (Stage k))
  ∧ (∀ tr, bar p' = Some (Full, tr) → bar p = Some (Full, tr))
  ∧ (∀ j sc', scans p' !! j = Some sc' → ph sc' = Closing →
       ∃ sc, scans p !! j = Some sc ∧ ph sc = Closing).

Lemma not_finalized_same p p' :
  scans p' = scans p → ∀ i, ¬ finalized_by_step p p' i.
Proof.
  intros Heq i (sc & sc' & Hi & Hi' & Hf & Hf'). rewrite Heq in Hi'. congruence.
Qed.

Lemma not_finalized_snoc p p' sc0 :
  scans p' = scans p ++ [sc0] → ∀ i, ¬ finalized_by_step p p' i.
Proof.
  intros Heq i (sc & sc' & Hi & Hi' & Hf & Hf'). rewrite Heq in Hi'.
  rewrite (lookup_app_l_Some _ _ _ _ Hi) in Hi'. congruence.
Qed.

Lemma finalized_by_insert p p' i sc sc1 j :
  scans p !! i = Some sc → scans p' = <[i := sc1]> (scans p) →
  finalized_by_step p p' j →
  j = i ∧ finalized sc = false ∧ finalized sc1 = true.
Proof.
  intros Hi Heq (scj & scj' & Hj & Hj' & Hf & Hf'). rewrite Heq in Hj'.
  destruct (decide (j = i)) as [-> | Hne].
  - rewrite list_lookup_insert_eq in Hj' by (by eapply lookup_lt_Some).
    split; [done|]. split; congruence.
  - rewrite list_lookup_insert_ne in Hj' by done. congruence.
Qed.

Lemma closing_kept p p' i sc sc1 :
  scans p !! i = Some sc → scans p' = <[i := sc1]> (scans p) →
  (ph sc1 = Closing → ph sc = Closing) →
  ∀ j sc', scans p' !! j = Some sc' → ph sc' = Closing →
    ∃ sc0, scans p !! j = Some sc0 ∧ ph sc0 = Closing.
Proof.
  intros Hi Heq Hkeep j sc' Hj Hph. rewrite Heq in Hj.
  apply list_lookup_insert_Some in Hj as [(-> & <- & Hlt) | [Hne Hj]]; eauto.
Qed.

(** What a frame callback does, by the three ways it can end. *)
Lemma tick_cases v i sc now p :
  let p' := tick v i sc now p in
  let el := now - start sc in
  let due := stage_due v sc el && bool_decide (is_Some (status p)) in
  let idx := if due then S (stepIdx sc) else stepIdx sc in
  let stage := if due then set_if (status p) (Stage (stepIdx sc)) else status p in
  let drawn := match bar p with
               | Some (_, tr) =>
                   Some (match v with
                         | Rev1 => Eased (percent el (totalMs sc))
                         | Rev2 => Plain (percent el (totalMs sc))
                         end, tr)
               | None => None
               end in
  if (el <? totalMs sc) || negb (settled sc) then
    scans p' = <[i := evolve sc (payload sc) (settled sc) idx
                         (if el <? totalMs sc then Animating else AwaitingReq)]> (scans p)
    ∧ status p' = stage ∧ applied p' = applied p ∧ bar p' = drawn
  else
    scans p' = <[i := evolve sc (payload sc) (settled sc) idx Closing]> (scans p)
    ∧ status p' = set_if stage (final_caption (payload sc))
    ∧ applied p' = applied p ++ delivered (payload sc)
    ∧ bar p' = match v with Rev1 => set_if drawn (Full, true) | Rev2 => drawn end.
Proof.
  unfold tick. cbv zeta.
  destruct (now - start sc <? totalMs sc); simpl; [done|].
  destruct (settled sc); simpl; [|done].
  rewrite list_insert_insert_eq. unfold delivered.
  split; [done|]. split; [done|]. split; [|done].
  destruct (payload sc) as [d|]; [|by rewrite app_nil_r].
  destruct (ok d); [done|by rewrite app_nil_r].
Qed.

(** What the settlement of the request does. *)
Lemma settle_cases v i sc o p :
  let p' := settle v i sc o p in
  scans p' = <[i := evolve sc (received o) true (stepIdx sc) (after_settle sc)]> (scans p)
  ∧ match ph sc with
    | AwaitingReq =>
        status p' = set_if (status p) (final_caption (received o))
        ∧ applied p' = applied p ++ delivered (received o)
        ∧ bar p' = match v with Rev1 => set_if (bar p) (Full, true) | Rev2 => bar p end
    | _ => status p' = status p ∧ applied p' = applied p ∧ bar p' = bar p
    end.
Proof.
  cbv zeta. split; [apply settle_scans|].
  unfold settle. destruct (ph sc); simpl; try done.
  unfold delivered. split; [done|]. split; [|done].
  destruct (received o) as [d|]; [|by rewrite app_nil_r].
  destruct (ok d); [done|by rewrite app_nil_r].
Qed.

Lemma set_if_twice {A} (el : option A) (x y : A) :
  set_if (set_if el x) y = set_if el y.
Proof. by destruct el. Qed.

(** One callback either finalizes the activation it belongs to, with all the
    effects of finalization, or has none of these effects. *)
Lemma step_finalization v ev p p' :
  step v ev p = Some p' →
  (∀ i, finalized_by_step p p' i →
     ∃ sc', scans p' !! i = Some sc' ∧ callback_of i ev
            ∧ finalization_effects v p p' sc'
            ∧ ∀ j, finalized_by_step p p' j → j = i)
  ∧ ((∀ i, ¬ finalized_by_step p p' i) → no_finalization_effects p p').
Proof.
  intros Hstep. destruct ev as [now r | i now | i o | i]; simpl in Hstep.
  - destruct (unit_interval r); [|done]. injection Hstep as <-.
    unfold doScan. destruct (scanInFlight p) eqn:Hflag.
    + split; [intros i Hi; by destruct (not_finalized_same p p eq_refl i)|].
      intros _. unfold no_finalization_effects. split; [done|]. split; [by left|].
      split; [done|eauto].
    + match goal with |- context [finalized_by_step p ?q] => set (p' := q) end.
      assert (Hsc : scans p' = scans p ++ [ {| totalMs := pick_totalMs v r;
                start := now; payload := None; settled := false; stepIdx := 0;
                ph := Animating |} ]) by done.
      split; [intros i Hi; by destruct (not_finalized_snoc p p' _ Hsc i)|].
      intros _. unfold no_finalization_effects. subst p'. simpl.
      split; [done|]. split; [right; by exists 0%nat|]. split.
      * intros tr Hbar. by destruct (bar p) as [[]|].
      * intros j sc' [[Hlt Hj] | [-> <-]]%lookup_snoc_Some Hph; [eauto|done].
  - destruct (scans p !! i) as [sc|] eqn:Hi; [|done]. simpl in Hstep.
    destruct (ph sc) eqn:Hph; try done. injection Hstep as <-.
    pose proof (tick_cases v i sc now p) as Hc. cbv zeta in Hc.
    set (due := stage_due v sc (now - start sc) && bool_decide (is_Some (status p))) in *.
    destruct ((now - start sc <? totalMs sc) || negb (settled sc)) eqn:Hgo.
    + destruct Hc as (Hsc & Hst & Hap & Hbar).
      assert (Hno : ∀ j, ¬ finalized_by_step p (tick v i sc now p) j).
      { intros j Hj.
        destruct (finalized_by_insert _ _ i sc _ j Hi Hsc Hj) as (_ & _ & Hf).
        unfold finalized, evolve in Hf. simpl in Hf.
        by destruct (now - start sc <? totalMs sc). }
      split; [intros j Hj; by destruct (Hno j)|]. intros _.
      unfold no_finalization_effects. rewrite Hst, Hap, Hbar.
      split; [done|]. split; [|split].
      * destruct due; [right; by eexists|by left].
      * intros tr Hfull. destruct (bar p) as [[w tr']|]; [|done]. by destruct v.
      * eapply closing_kept; [exact Hi|exact Hsc|].
        unfold evolve. simpl. by destruct (now - start sc <? totalMs sc).
    + destruct Hc as (Hsc & Hst & Hap & Hbar).
      assert (Hlt : (i < length (scans p))%nat) by (by eapply lookup_lt_Some).
      assert (Hnew : scans (tick v i sc now p) !! i
                     = Some (evolve sc (payload sc) (settled sc)
                               (if due then S (stepIdx sc) else stepIdx sc) Closing))
        by (rewrite Hsc; by apply list_lookup_insert_eq).
      assert (Hfin : finalized_by_step p (tick v i sc now p) i).
      { eexists _, _. split; [exact Hi|]. split; [exact Hnew|].
        unfold finalized. by rewrite Hph. }
      split; [|intros Hno; by destruct (Hno i)].
      intros j Hj.
      destruct (finalized_by_insert _ _ i sc _ j Hi Hsc Hj) as (-> & _ & _).
      eexists. split; [exact Hnew|]. split; [left; by eexists|]. split.
      * unfold finalization_effects. simpl. rewrite Hst, Hap, Hbar.
        split; [done|]. split; [by destruct due; rewrite ?set_if_twice|].
        split; [done|]. intros ->. by destruct (bar p) as [[w tr]|].
      * intros j Hj'.
        by destruct (finalized_by_insert _ _ i sc _ j Hi Hsc Hj') as (-> & _).
  - destruct (scans p !! i) as [sc|] eqn:Hi; [|done]. simpl in Hstep.
    destruct (settled sc) eqn:Hs; [done|]. injection Hstep as <-.
    destruct (settle_cases v i sc o p) as [Hsc Heff].
    assert (Hwait : ph sc = AwaitingReq ∨ ph sc ≠ AwaitingReq)
      by (destruct (ph sc); auto).
    destruct Hwait as [Hph | Hph].
    + rewrite Hph in Heff. destruct Heff as (Hst & Hap & Hbar).
      assert (Hlt : (i < length (scans p))%nat) by (by eapply lookup_lt_Some).
      assert (Hnew : scans (settle v i sc o p) !! i
                     = Some (evolve sc (received o) true (stepIdx sc) (after_settle sc)))
        by (rewrite Hsc; by apply list_lookup_insert_eq).
      assert (Hfin : finalized_by_step p (settle v i sc o p) i).
      { eexists _, _. split; [exact Hi|]. split; [exact Hnew|].
        unfold finalized, evolve, after_settle. simpl. by rewrite Hph. }
      split; [|intros Hno; by destruct (Hno i)].
      intros j Hj.
      destruct (finalized_by_insert _ _ i sc _ j Hi Hsc Hj) as (-> & _ & _).
      eexists. split; [exact Hnew|]. split; [right; by eexists|]. split.
      * unfold finalization_effects, evolve, after_settle. simpl.
        rewrite Hph, Hst, Hap, Hbar. split; [done|]. split; [done|].
        split; [done|]. by intros ->.
      * intros j Hj'.
        by destruct (finalized_by_insert _ _ i sc _ j Hi Hsc Hj') as (-> & _).
    + assert (Hsame : status (settle v i sc o p) = status p
                      ∧ applied (settle v i sc o p) = applied p
                      ∧ bar (settle v i sc o p) = bar p)
        by (by destruct (ph sc)).
      destruct Hsame as (Hst & Hap & Hbar).
      assert (Hkeep : after_settle sc = ph sc)
        by (unfold after_settle; by destruct (ph sc)).
      assert (Hno : ∀ j, ¬ finalized_by_step p (settle v i sc o p) j).
      { intros j Hj.
        destruct (finalized_by_insert _ _ i sc _ j Hi Hsc Hj) as (_ & Hf & Hf').
        unfold finalized, evolve in Hf'. simpl in Hf'. rewrite Hkeep in Hf'.
        unfold finalized in Hf. congruence. }
      split; [intros j Hj; by destruct (Hno j)|]. intros _.
      unfold no_finalization_effects. rewrite Hst, Hap, Hbar.
      split; [done|]. split; [by left|]. split; [done|].
      eapply closing_kept; [exact Hi|exact Hsc|].
      unfold evolve. simpl. by rewrite Hkeep.
  - destruct (scans p !! i) as [sc|] eqn:Hi; [|done]. simpl in Hstep.
    destruct (ph sc) eqn:Hph; try done. injection Hstep as <-.
    assert (Hsc : scans (close i sc p)
                  = <[i := evolve sc (payload sc) (settled sc) (stepIdx sc) Closed]>
                      (scans p)) by done.
    assert (Hno : ∀ j, ¬ finalized_by_step p (close i sc p) j).
    { intros j Hj.
      destruct (finalized_by_insert _ _ i sc _ j Hi Hsc Hj) as (_ & Hf & _).
      unfold finalized in Hf. by rewrite Hph in Hf. }
    split; [intros j Hj; by destruct (Hno j)|]. intros _.
    unfold no_finalization_effects.
    split; [done|]. split; [by left|]. split; [done|].
    eapply closing_kept; [exact Hi|exact Hsc|done].
Qed.

(** C2.  In every run of the page, an activation is finalized exactly when
    the history contains BOTH a frame delivered at or after the end of the
    randomized duration ([now - start >= totalMs]) AND the settlement of its
    scan request, and every observable effect of finalization presupposes a
    finalized activation.  Callback by callback, for every activation: the
    callback that finalizes activation [i] is a frame or the settlement of
    [i] itself, the later of the two events, and it is this callback that
    writes the final caption of [i]'s own payload, applies [i]'s body, snaps
    the bar to 100% and leaves [i]'s closing timeout outstanding; it
    finalizes no other activation.  A callback that finalizes no activation
    applies nothing, writes at most a stage caption, does not snap the bar
    and schedules no closing.  As the statement holds for every prefix of a
    run, neither event alone ever finalizes. *)
Theorem finalization_is_a_join v evs ev p0 p p' :
  is_loaded p0 → run v evs p0 = Some p → step v ev p = Some p' →
  (∀ i sc, scans p !! i = Some sc →
     (finalized sc = true ↔ elapsed_seen evs i sc ∧ response_seen evs i))
  ∧ (finalization_visible p →
     ∃ i sc, scans p !! i = Some sc ∧ finalized sc = true)
  ∧ (∀ i, finalized_by_step p p' i →
       ∃ sc', scans p' !! i = Some sc'
              ∧ callback_of i ev
              ∧ elapsed_seen (evs ++ [ev]) i sc' ∧ response_seen (evs ++ [ev]) i
              ∧ finalization_effects v p p' sc'
              ∧ ∀ j, finalized_by_step p p' j → j = i)
  ∧ ((∀ i, ¬ finalized_by_step p p' i) → no_finalization_effects p p').
Proof.
  intros Hload Hrun Hstep.
  assert (Hjoin : ∀ evs' q, run v evs' p0 = Some q →
            inv q
            ∧ (∀ i sc, scans q !! i = Some sc →
                 (finalized sc = true ↔ elapsed_seen evs' i sc ∧ response_seen evs' i))
            ∧ (finalization_visible q → some_finalized (scans q))).
  { intros evs' q Hq.
    destruct (run_agrees v evs' [] p0 q) as (Hinv & [Hag _] & Hvis); auto.
    - by apply inv_loaded.
    - destruct Hload as (a & b & c & d & ->). split.
      + intros i sc Hi. simpl in Hi. by rewrite lookup_nil in Hi.
      + intros i [(n & []%elem_of_nil) | (o & []%elem_of_nil)].
    - destruct Hload as (a & b & c & d & ->).
      unfold finalization_visible, final_caption_shown. simpl.
      intros [(k & Hk & Hfin) | [H | (tr & Hbar)]]; [|done|].
      + destruct d; [|done]. injection Hk as <-. by destruct (Hfin 0%nat).
      + by destruct c.
    - split; [done|]. split; [|done]. intros i sc Hi.
      destruct (Hag i sc Hi) as [<- <-].
      destruct (Hinv i sc Hi) as (_ & Hpend & Hwait).
      unfold finalized. split.
      + intros Hfin. split; [by destruct (ph sc)|].
        destruct (settled sc); [done|].
        destruct (Hpend eq_refl) as [Heq | Heq]; by rewrite Heq in Hfin.
      + intros [Hph Hs]. destruct (ph sc); try done.
        rewrite Hwait in Hs; done. }
  destruct (Hjoin evs p Hrun) as (_ & Hnow & Hvis).
  assert (Hrun' : run v (evs ++ [ev]) p0 = Some p').
  { clear -Hrun Hstep. revert p0 Hrun.
    induction evs as [|e evs IH]; intros p0 Hrun; simpl in *.
    - injection Hrun as ->. by rewrite Hstep.
    - destruct (step v e p0) as [p1|]; [|done]. simpl in *. by apply IH. }
  destruct (Hjoin _ p' Hrun') as (_ & Hnext & _).
  destruct (step_finalization v ev p p' Hstep) as [Hfin Hnone].
  split; [done|]. split; [done|]. split; [|done].
  intros i Hi. destruct (Hfin i Hi) as (sc' & Hsc' & Hcb & Heff & Honly).
  exists sc'. split; [done|]. split; [done|].
  destruct Hi as (sc & sc2 & _ & Hsc2 & _ & Hf').
  assert (sc2 = sc') as -> by congruence.
  destruct (proj1 (Hnext i sc' Hsc') Hf') as [He Hr].
  split; [exact He|]. split; [exact Hr|]. split; [exact Heff|exact Honly].
Qed.

(** Three runs of [Rev1] with [totalMs = 12000 + floor(0.5 * 8000) = 16000],
    started at clock reading 0. *)
Definition early_response : list event :=
  [Trigger 0 (1 # 2); Response 0 (Parsed (Some {| ok := true; changed := Some 2; tables := 7 |}));
   Frame 0 15999].

Definition late_response : list event :=
  [Trigger 0 (1 # 2); Frame 0 8000; Frame 0 16000].

Definition joined : list event :=
  late_response
  ++ [Response 0 (Parsed (Some {| ok := true; changed := Some 2; tables := 7 |}))].

(** The response alone does not finalize: the animation keeps running. *)
Example response_alone_waits :
  (λ p, (ph <$> scans p !! 0%nat, status p, applied p))
    <$> run Rev1 early_response (loaded true true true true)
  = Some (Some Animating, Some (Stage 0), []).
Proof. vm_compute. reflexivity. Qed.

(** The elapsed animation alone does not finalize: the reaction waits. *)
Example animation_alone_waits :
  (λ p, (ph <$> scans p !! 0%nat, status p, applied p))
    <$> run Rev1 late_response (loaded true true true true)
  = Some (Some AwaitingReq, Some (Stage 1), []).
Proof. vm_compute. reflexivity. Qed.

(** Once both have happened, the settlement is the callback that finalizes:
    it writes the caption of its own payload and applies its body. *)
Lemma finalization_is_a_join_witness :
  ∃ p p' sc',
    run Rev1 late_response (loaded true true true true) = Some p
    ∧ step Rev1 (Response 0 (Parsed (Some {| ok := true; changed := Some 2;
                                               tables := 7 |}))) p = Some p'
    ∧ scans p' !! 0%nat = Some sc'
    ∧ elapsed_seen joined 0 sc' ∧ response_seen joined 0
    ∧ finalization_effects Rev1 p p' sc'
    ∧ status p' = Some (Found 2)
    ∧ applied p' = [ {| ok := true; changed := Some 2; tables := 7 |} ].
Proof.
  eexists _, _.
  destruct (finalization_is_a_join Rev1 late_response
              (Response 0 (Parsed (Some {| ok := true; changed := Some 2;
                                           tables := 7 |})))
              (loaded true true true true) _ _
              ltac:(by exists true, true, true, true)
              ltac:(vm_compute; reflexivity) ltac:(vm_compute; reflexivity))
    as (_ & _ & Hfin & _).
  destruct (Hfin 0%nat) as (sc' & Hsc' & _ & He & Hr & Heff & _).
  { eexists _, _. split; [vm_compute; reflexivity|].
    split; [vm_compute; reflexivity|]. split; reflexivity. }
  exists sc'. split; [vm_compute; reflexivity|]. split; [vm_compute; reflexivity|].
  split; [exact Hsc'|]. split; [exact He|]. split; [exact Hr|].
  split; [exact Heff|]. split; reflexivity.
Defined.

End Scan.


(* ===================================================================== *)
(** * Row action controller (static/js/resolve_ports.js)                  *)
(* ===================================================================== *)
Module Resolve.

(** ** JavaScript values where the script expects a number of seconds *)

(** The result of [parseInt] and of the script's arithmetic on it: a whole
    number, [NaN] or an infinity. *)
Inductive jsint :=
  | Int (n : Z)
  | NaN
  | PosInf
  | NegInf.

Coercion Int : Z >-> jsint.

(** What a field of a JSON body can hold, and the numbers the script
    computes.  A finite number is given by the exact value of its double;
    [JSON.parse] makes an infinity of a literal beyond the range of a
    double. *)
Inductive jsval :=
  | JNum (q : Q)
  | JNaN
  | JInf (negative : bool)
  | JStr (s : string)
  | JBool (b : bool)
  | JNull
  | JObj (s : string).     (* an array or an object, by the string it prints as *)

(** A number the script has computed, as a value. *)
Definition of_int (x : jsint) : jsval :=
  match x with
  | Int n => JNum (inject_Z n)
  | NaN => JNaN
  | PosInf => JInf false
  | NegInf => JInf true
  end.

Coercion of_int : jsint >-> jsval.

(** [Math.max(0, x)] *)
Definition max_zero (x : jsint) : jsint :=
  match x with
  | Int n => Int (Z.max 0 n)
  | NaN => NaN
  | PosInf => PosInf
  | NegInf => Int 0
  end.

(** [x <= 0] *)
Definition le_zero (x : jsint) : bool :=
  match x with
  | Int n => n <=? 0
  | NegInf => true
  | NaN | PosInf => false
  end.

(** [v || 0] keeps [v] exactly when [v] is truthy. *)
Definition truthy (v : jsval) : bool :=
  match v with
  | JNum q => negb (Qeq_bool q 0)
  | JNaN => false
  | JInf _ => true
  | JStr s => negb (bool_decide (s = ""))
  | JBool b => b
  | JNull => false
  | JObj _ => true
  end.

(** [String(x)] spells a number without an exponent when it is zero or its
    magnitude is at least 0.000001 and below 1e21. *)
Definition plain (q : Q) : bool :=
  let m := if Qle_bool 0 q then q else (- q)%Q in
  Qeq_bool q 0
  || (Qle_bool (1 # 1000000) m && negb (Qle_bool (inject_Z (10 ^ 21)) m)).

(** What the browser makes of the values the model does not read by itself:
    [Number(s) > 0] and [parseInt(s, 10)] of a string [s] (also of the string
    an array or an object prints as), and [parseInt(x, 10)] of a number that
    [String(x)] spells with an exponent. *)
Class conversions := {
  string_gt_zero : string → bool;
  parseInt_string : string → jsint;
  parseInt_exponent : Q → jsint
}.

(** ** JSON bodies, requests and replies *)

(** A JSON object of the backend, as far as the script reads it; an absent
    field is [None]. *)
Record json := {
  ok : bool;
  error : option string;
  seconds_remaining : option jsval;
  remaining : option jsval;
  tables : bool;      (* are discovered, resolved and archived all there? *)
  content : nat       (* stands for counts, wallet and the rows of the tables *)
}.

(** The [fetch] calls of the script.  The [X-CSRFToken], [Content-Type] and
    [X-Requested-With] headers are the same on every call and left out. *)
Inductive request :=
  | PostResolve (port_id : string) (idempotency_key : string)
  | GetRemaining (port_id : string)
  | PostArchive (port_id : string)
  | PostUnarchive (port_id : string).

(** What [fetch] resolves to: a response with its status and its body
    ([None]: [r.json()] rejects; [Some None]: the JSON value [null]), or a
    rejection of [fetch] itself. *)
Inductive reply :=
  | Http (status : Z) (body : option (option json))
  | NetErr.

(** [r.ok] *)
Definition r_ok (status : Z) : bool := (200 <=? status) && (status <=? 299).

(** The promise returned by an api function, once settled. *)
Inductive result :=
  | Fulfilled (value : option json)
  | Rejected.

(** ** The api functions as trees of network effects *)

Inductive net :=
  | Ret (value : option json)
  | Throw
  | GenKey (k : string → net)             (* H.idempotencyKey() *)
  | Fetch (rq : request) (k : reply → net)
  | Sleep (ms : Z) (k : net).             (* await new Promise(res => setTimeout(res, ms)) *)

(** [{ ok: false, error: 'http_' + r.status }] *)
Definition http_error (status : Z) : json :=
  {| ok := false; error := Some ("http_" +:+ pretty status);
     seconds_remaining := None; remaining := None; tables := false;
     content := 0 |}.

Definition json_of (body : option (option json)) : net :=
  match body with Some v => Ret v | None => Throw end.

(** [apiResolve(portId, attempt)].  The recursion is bounded by
    [attempt < 2]; [fuel] counts the recursive calls still allowed. *)
Fixpoint apiResolve_fuel (fuel : nat) (portId : string) (attempt : nat) : net :=
  GenKey (λ key,
    Fetch (PostResolve portId key) (λ r,
      match r with
      | NetErr => Throw
      | Http status body =>
          if r_ok status then json_of body
          else if ((status =? 409) || (status =? 423)) && (attempt <? 2)%nat then
            match fuel with
            | S fuel' =>
                Sleep (150 * (Z.of_nat attempt + 1))
                      (apiResolve_fuel fuel' portId (attempt + 1))
            | O => Throw
            end
          else Ret (Some (http_error status))
      end)).

Definition apiResolve (portId : string) (attempt : nat) : net :=
  apiResolve_fuel (2 - attempt) portId attempt.

(** [apiArchive(portId)] and [apiUnarchive(portId)]: the body is parsed
    whatever the status. *)
Definition apiArchive (portId : string) : net :=
  Fetch (PostArchive portId) (λ r,
    match r with Http _ body => json_of body | NetErr => Throw end).

Definition apiUnarchive (portId : string) : net :=
  Fetch (PostUnarchive portId) (λ r,
    match r with Http _ body => json_of body | NetErr => Throw end).

(** [apiRemaining(portId)]: a non-OK status is turned into a rejection. *)
Definition apiRemaining (portId : string) : net :=
  Fetch (GetRemaining portId) (λ r,
    match r with
    | Http status body => if r_ok status then json_of body else Throw
    | NetErr => Throw
    end).

(** Running an api call against a script of replies: [keys n] is the value
    of the [n]th call of the key generator.  The outcome is [None] while a
    request is still unanswered. *)
Inductive obs :=
  | Sent (rq : request)
  | Slept (ms : Z).

Fixpoint drive (job : net) (keys : nat → string) (n : nat) (replies : list reply)
    : list obs * option result :=
  match job with
  | Ret v => ([], Some (Fulfilled v))
  | Throw => ([], Some Rejected)
  | GenKey k => drive (k (keys n)) keys (S n) replies
  | Fetch rq k =>
      match replies with
      | [] => ([Sent rq], None)
      | r :: replies' =>
          let '(tr, res) := drive (k r) keys n replies' in (Sent rq :: tr, res)
      end
  | Sleep ms k =>
      let '(tr, res) := drive k keys n replies in (Slept ms :: tr, res)
  end.

Definition requests (tr : list obs) : list request :=
  omap (λ o, match o with Sent rq => Some rq | Slept _ => None end) tr.



(** ** The key generator (static/js/user_dashboard.js, [idempotencyKey]) *)

(** The sources of randomness of the page: whether [crypto.randomUUID]
    exists, the value of its [n]th call, and the value of
    [Math.random().toString(16).slice(2)] at the [n]th call of the generator. *)
Record entropy := {
  has_randomUUID : bool;
  randomUUID : nat → string;
  random_hex : nat → string
}.

(** The [n]th call of [idempotencyKey()], made at clock reading [now]. *)
Definition idempotencyKey (E : entropy) (n : nat) (now : Z) : string :=
  if has_randomUUID E then randomUUID E n
  else pretty now +:+ random_hex E n.

(** ** Rows of the ports table *)

(** [fill.style.width]: a percentage; a zero-length countdown divides by
    zero and writes ['NaN%'] or ['-Infinity%']. *)
Inductive pct :=
  | Pct (n : Z)
  | PctNaN
  | PctNegInf.

(** Text of [.mini-txt]: the markup's placeholder, the hourglass with the
    value of [seconds] resp. [left] spelled out, or "resolving...". *)
Inductive mini_text :=
  | Placeholder
  | Hourglass (seconds : jsval)
  | ResolvingNow.

(** Text of [.td-status]. *)
Inductive cell := Discovered | Resolved | Archived.

(** A [<tr>] element.  The parts found with [querySelector] are [None] when
    the row has no such descendant. *)
Record row := {
  data_row_id : string;          (* attribute data-row-id, empty when absent *)
  data_port_id : string;         (* data-port-id of the button / value of the port_id input *)
  mini_hidden : option bool;     (* .mini-progress *)
  fill : option pct;             (* .mini-fill *)
  txt : option mini_text;        (* .mini-txt *)
  td_status : option cell;       (* .td-status *)
  actions_cleared : option bool  (* .row-actions replaced by a dash *)
}.

Definition set_if {A} (el : option A) (x : A) : option A :=
  match el with Some _ => Some x | None => None end.

(** ** The handlers as trees of calls *)

(** The body of an event handler or promise reaction: synchronous statements
    followed by at most one api call or countdown, whose reaction continues
    the tree.  Rows are referred to by element identity. *)
Inductive proc :=
  | Done
  | StopTimerForRow (rowKey : string) (next : proc)
  | CallRemaining (pid : string) (k : result → proc)
  | CallResolve (pid : string) (k : result → proc)
  | CallArchive (pid : string) (k : result → proc)
  | CallUnarchive (pid : string) (k : result → proc)
  | StartMiniCountdown (r : nat) (rowId : string) (seconds : jsval) (onDone : proc)
  | FinalizeResolve (r : nat) (payload : option json) (next : proc)
  | FinalizeArchive (r : nat) (payload : option json) (next : proc)
  | RefreshFromPayload (payload : option json) (next : proc)
  | HideMini (r : nat) (next : proc).

(** [payload && payload.ok] *)
Definition is_ok (payload : option json) : bool :=
  match payload with Some p => ok p | None => false end.

Section Browser.

Context {B : conversions}.

(** [v > 0] *)
Definition gt_zero (v : jsval) : bool :=
  match v with
  | JNum q => negb (Qle_bool q 0)
  | JNaN => false
  | JInf negative => negb negative
  | JStr s | JObj s => string_gt_zero s
  | JBool b => b
  | JNull => false
  end.

(** [parseInt(v, 10)]: the value is spelled out and the leading digits of
    the spelling are read.  Of a plainly spelled number these are the digits
    before the decimal point: the number cut to its integer part. *)
Definition parseInt (v : jsval) : jsint :=
  match v with
  | JNum q =>
      if plain q then Int (Z.quot (Qnum q) (Z.pos (Qden q)))
      else parseInt_exponent q
  | JNaN | JInf _ | JBool _ | JNull => NaN
  | JStr s | JObj s => parseInt_string s
  end.

(** [payload && payload.error === 'too_early' && payload.seconds_remaining > 0] *)
Definition is_too_early (payload : option json) : bool :=
  match payload with
  | Some p =>
      bool_decide (error p = Some "too_early")
      && match seconds_remaining p with Some v => gt_zero v | None => false end
  | None => false
  end.

(** [payload.seconds_remaining] as it is handed to the countdown; an absent
    field reads [undefined], which every operation of the script treats like
    [null]. *)
Definition seconds_of (payload : option json) : jsval :=
  match payload with
  | Some p => default JNull (seconds_remaining p)
  | None => JNull
  end.

(** The reaction to the retried resolve: [p2 => ...] and its [catch]. *)
Definition after_retry (r : nat) (res : result) : proc :=
  match res with
  | Fulfilled p2 =>
      if is_ok p2 then FinalizeResolve r p2 Done else HideMini r Done
  | Rejected => HideMini r Done
  end.

(** The reaction to the first resolve: [payload => ...] and its [catch].
    The script spells it out three times (after a zero remaining time, after
    the priming countdown, after a failed priming call) with the same
    branches. *)
Definition after_resolve (r : nat) (rowId pid : string) (res : result) : proc :=
  match res with
  | Fulfilled payload =>
      if is_ok payload then FinalizeResolve r payload Done
      else if is_too_early payload then
        StartMiniCountdown r rowId (seconds_of payload)
          (CallResolve pid (after_retry r))
      else HideMini r Done
  | Rejected => HideMini r Done
  end.

(** [row.getAttribute('data-row-id') || pid] *)
Definition row_key (rw : row) : string :=
  if decide (data_row_id rw = "") then data_port_id rw else data_row_id rw.

(** [data?.remaining ?? 0] *)
Definition remaining_or_zero (data : option json) : jsval :=
  match data ≫= remaining with
  | Some JNull | None => JNum 0
  | Some v => v
  end.

(** [Math.max(0, parseInt(data?.remaining ?? 0, 10))] *)
Definition primed_remaining (data : option json) : jsint :=
  max_zero (parseInt (remaining_or_zero data)).

(** The reaction to the priming call: [data => ...] and its [catch]. *)
Definition after_remaining (r : nat) (rowId pid : string) (res : result) : proc :=
  match res with
  | Fulfilled data =>
      let remaining := primed_remaining data in
      if le_zero remaining then CallResolve pid (after_resolve r rowId pid)
      else StartMiniCountdown r rowId (of_int remaining)
             (CallResolve pid (after_resolve r rowId pid))
  | Rejected => CallResolve pid (after_resolve r rowId pid)
  end.

(** [handleResolve(btn)] for the button of row element [r]. *)
Definition handleResolve (r : nat) (rw : row) : proc :=
  let pid := data_port_id rw in
  let rowId := row_key rw in
  StopTimerForRow rowId (CallRemaining pid (after_remaining r rowId pid)).

(** [handleArchive(btn)]: nothing happens without a port id. *)
Definition handleArchive (r : nat) (rw : row) : proc :=
  let pid := data_port_id rw in
  if decide (pid = "") then Done
  else
    StopTimerForRow (row_key rw)
      (CallArchive pid (λ res,
         match res with
         | Fulfilled data =>
             if is_ok data then FinalizeArchive r data (RefreshFromPayload data Done)
             else Done
         | Rejected => Done
         end)).

(** [handleUnarchive(btn)] *)
Definition handleUnarchive (r : nat) (rw : row) : proc :=
  let pid := data_port_id rw in
  if decide (pid = "") then Done
  else
    CallUnarchive pid (λ res,
      match res with
      | Fulfilled data => if is_ok data then RefreshFromPayload data Done else Done
      | Rejected => Done
      end).

(** ** The page state *)

(** A running [setInterval] of [startMiniCountdown] with the variables its
    callback closes over. *)
Record timer := {
  t_row : nat;
  t_key : string;
  t_total : jsint;
  t_start : Z;
  t_onDone : proc
}.

Record state := {
  rowTimers : gmap string positive;       (* VM.state.rowTimers *)
  intervals : gmap positive timer;        (* the intervals the browser is running *)
  next_handle : positive;                 (* the next handle setInterval returns *)
  tasks : gmap nat (net * (result → proc)); (* api calls under way, with their reactions *)
  next_task : nat;
  rows : gmap nat row;                    (* every row element *)
  sent : list request;                    (* requests handed to fetch, oldest first *)
  keys : list string;                     (* values returned by idempotencyKey(), oldest first *)
  wallet_updates : list (option json);    (* arguments of VM.updateCountsWallet *)
  renders : list (option json)            (* bodies rendered by VM.render.renderAll *)
}.

Definition initial (table : gmap nat row) : state :=
  {| rowTimers := ∅; intervals := ∅; next_handle := 1%positive;
     tasks := ∅; next_task := 0; rows := table; sent := []; keys := [];
     wallet_updates := []; renders := [] |}.

Definition with_timers (m : gmap string positive) (iv : gmap positive timer)
    (st : state) : state :=
  {| rowTimers := m; intervals := iv; next_handle := next_handle st;
     tasks := tasks st; next_task := next_task st; rows := rows st;
     sent := sent st; keys := keys st; wallet_updates := wallet_updates st;
     renders := renders st |}.

Definition with_rows (t : gmap nat row) (st : state) : state :=
  {| rowTimers := rowTimers st; intervals := intervals st;
     next_handle := next_handle st; tasks := tasks st;
     next_task := next_task st; rows := t; sent := sent st; keys := keys st;
     wallet_updates := wallet_updates st; renders := renders st |}.

Definition with_tasks (t : gmap nat (net * (result → proc))) (st : state) : state :=
  {| rowTimers := rowTimers st; intervals := intervals st;
     next_handle := next_handle st; tasks := t;
     next_task := next_task st; rows := rows st; sent := sent st;
     keys := keys st; wallet_updates := wallet_updates st;
     renders := renders st |}.

(** [stopTimerForRow(rowKey)].  Handles are positive, hence truthy. *)
Definition stopTimerForRow (rowKey : string) (st : state) : state :=
  match rowTimers st !! rowKey with
  | Some t => with_timers (delete rowKey (rowTimers st)) (delete t (intervals st)) st
  | None => st
  end.

(** [Math.max(0, parseInt(seconds || 0, 10))] *)
Definition countdown_total (seconds : jsval) : jsint :=
  max_zero (parseInt (if truthy seconds then seconds else JNum 0)).

(** [startMiniCountdown(row, rowId, seconds, onDone)] at clock reading [now]. *)
Definition startMiniCountdown (r : nat) (rowId : string) (seconds : jsval)
    (onDone : proc) (now : Z) (st : state) : state :=
  let shown rw :=
    {| data_row_id := data_row_id rw; data_port_id := data_port_id rw;
       mini_hidden := set_if (mini_hidden rw) false;
       fill := set_if (fill rw) (Pct 0);
       txt := set_if (txt rw) (Hourglass seconds);
       td_status := td_status rw; actions_cleared := actions_cleared rw |} in
  let st1 := stopTimerForRow rowId (with_rows (alter shown r (rows st)) st) in
  let total := countdown_total seconds in
  let h := next_handle st1 in
  {| rowTimers := <[rowId := h]> (rowTimers st1);
     intervals := <[h := {| t_row := r; t_key := rowId; t_total := total;
                            t_start := now; t_onDone := onDone |}]> (intervals st1);
     next_handle := (h + 1)%positive;
     tasks := tasks st1; next_task := next_task st1; rows := rows st1;
     sent := sent st1; keys := keys st1; wallet_updates := wallet_updates st1;
     renders := renders st1 |}.

(** [finalizeResolve(row, payload)].  The record keeps the parts of the row
    in place: in a row whose [.mini-progress] sits inside [.row-actions]
    (the dashboard's own markup), replacing the content of the actions also
    takes the indicator out of the row, which the record does not follow. *)
Definition finalizeResolve (r : nat) (payload : option json) (st : state) : state :=
  let final rw :=
    {| data_row_id := data_row_id rw; data_port_id := data_port_id rw;
       mini_hidden := set_if (mini_hidden rw) true;
       fill := fill rw; txt := txt rw;
       td_status := set_if (td_status rw) Resolved;
       actions_cleared := set_if (actions_cleared rw) true |} in
  {| rowTimers := rowTimers st; intervals := intervals st;
     next_handle := next_handle st; tasks := tasks st;
     next_task := next_task st; rows := alter final r (rows st);
     sent := sent st; keys := keys st;
     wallet_updates := wallet_updates st ++ [payload]; renders := renders st |}.

(** [finalizeArchive(row, payload)] *)
Definition finalizeArchive (r : nat) (payload : option json) (st : state) : state :=
  let final rw :=
    {| data_row_id := data_row_id rw; data_port_id := data_port_id rw;
       mini_hidden := set_if (mini_hidden rw) true;
       fill := fill rw; txt := txt rw;
       td_status := set_if (td_status rw) Archived;
       actions_cleared := set_if (actions_cleared rw) true |} in
  with_rows (alter final r (rows st)) st.

(** [refreshFromPayload(payload)]: [renderAll] is called when the body
    holds all three tables ([VM.render.renderAll] is part of the foundation
    the script requires), [updateCountsWallet] for every body. *)
Definition refreshFromPayload (payload : option json) (st : state) : state :=
  match payload with
  | None => st
  | Some d =>
      {| rowTimers := rowTimers st; intervals := intervals st;
         next_handle := next_handle st; tasks := tasks st;
         next_task := next_task st; rows := rows st;
         sent := sent st; keys := keys st;
         wallet_updates := wallet_updates st ++ [payload];
         renders := if tables d then renders st ++ [payload] else renders st |}
  end.

(** [const mini = row.querySelector('.mini-progress'); if (mini) mini.hidden = true;] *)
Definition hideMini (r : nat) (st : state) : state :=
  let hidden rw :=
    {| data_row_id := data_row_id rw; data_port_id := data_port_id rw;
       mini_hidden := set_if (mini_hidden rw) true;
       fill := fill rw; txt := txt rw; td_status := td_status rw;
       actions_cleared := actions_cleared rw |} in
  with_rows (alter hidden r (rows st)) st.

(** ** Callbacks *)

Section Machine.

Variable E : entropy.

(** The synchronous start of an api call, or of its continuation after a
    reply: keys are generated, and the call stops at the next [fetch] (which
    is handed to the browser) or timeout. *)
Fixpoint advance (job : net) (now : Z) (st : state) : net * state :=
  match job with
  | GenKey k =>
      let key := idempotencyKey E (length (keys st)) now in
      advance (k key) now
        {| rowTimers := rowTimers st; intervals := intervals st;
           next_handle := next_handle st; tasks := tasks st;
           next_task := next_task st; rows := rows st; sent := sent st;
           keys := keys st ++ [key]; wallet_updates := wallet_updates st;
           renders := renders st |}
  | Fetch rq k =>
      (job,
       {| rowTimers := rowTimers st; intervals := intervals st;
          next_handle := next_handle st; tasks := tasks st;
          next_task := next_task st; rows := rows st; sent := sent st ++ [rq];
          keys := keys st; wallet_updates := wallet_updates st;
          renders := renders st |})
  | _ => (job, st)
  end.

(** An api call is made and its reaction [k] registered. *)
Definition spawn (job : net) (k : result → proc) (now : Z) (st : state) : state :=
  let '(job', st') := advance job now st in
  {| rowTimers := rowTimers st'; intervals := intervals st';
     next_handle := next_handle st';
     tasks := <[next_task st' := (job', k)]> (tasks st');
     next_task := S (next_task st'); rows := rows st'; sent := sent st';
     keys := keys st'; wallet_updates := wallet_updates st';
     renders := renders st' |}.

(** A handler body runs to its end. *)
Fixpoint exec (now : Z) (p : proc) (st : state) : state :=
  match p with
  | Done => st
  | StopTimerForRow rowKey next => exec now next (stopTimerForRow rowKey st)
  | CallRemaining pid k => spawn (apiRemaining pid) k now st
  | CallResolve pid k => spawn (apiResolve pid 0) k now st
  | CallArchive pid k => spawn (apiArchive pid) k now st
  | CallUnarchive pid k => spawn (apiUnarchive pid) k now st
  | StartMiniCountdown r rowId seconds onDone =>
      startMiniCountdown r rowId seconds onDone now st
  | FinalizeResolve r payload next => exec now next (finalizeResolve r payload st)
  | FinalizeArchive r payload next => exec now next (finalizeArchive r payload st)
  | RefreshFromPayload payload next => exec now next (refreshFromPayload payload st)
  | HideMini r next => exec now next (hideMini r st)
  end.

(** The seconds left at clock reading [now]:
    [Math.max(0, total - Math.floor((Date.now() - start) / 1000))]. *)
Definition seconds_left (t : timer) (now : Z) : jsint :=
  match t_total t with
  | Int total => Int (Z.max 0 (total - (now - t_start t) / 1000))
  | NaN => NaN
  | PosInf => PosInf
  | NegInf => Int 0
  end.

(** [Math.min(100, Math.round(((total - left) / total) * 100))], in exact
    arithmetic ([Math.round x] is [floor (x + 1/2)]).  A division of zero by
    zero or with [NaN] or two infinities in it is [NaN]; a quotient of
    [-Infinity] stays, one of [+Infinity] is cut to 100. *)
Definition percent_done (total left : jsint) : pct :=
  match total, left with
  | Int t, Int l =>
      if t =? 0 then
        (if l =? 0 then PctNaN else if 0 <? l then PctNegInf else Pct 100)
      else Pct (Z.min 100 ((200 * (t - l) + t) / (2 * t)))
  | Int t, PosInf => if t <? 0 then Pct 100 else PctNegInf
  | Int t, NegInf => if t <? 0 then PctNegInf else Pct 100
  | _, _ => PctNaN
  end.

(** What a tick writes into the row: the fill width and the seconds left,
    overwritten by "resolving..." on completion. *)
Definition show_progress (total left : jsint) (rw : row) : row :=
  {| data_row_id := data_row_id rw; data_port_id := data_port_id rw;
     mini_hidden := mini_hidden rw;
     fill := set_if (fill rw) (percent_done total left);
     txt := set_if (txt rw)
              (if le_zero left then ResolvingNow else Hourglass (of_int left));
     td_status := td_status rw; actions_cleared := actions_cleared rw |}.


(** The interval callback of timer [h] at clock reading [now]. *)
Definition interval_callback (h : positive) (t : timer) (now : Z) (st : state) : state :=
  let left := seconds_left t now in
  let st1 := with_rows (alter (show_progress (t_total t) left) (t_row t) (rows st)) st in
  if le_zero left then
    exec now (t_onDone t)
      (with_timers (delete (t_key t) (rowTimers st1)) (delete h (intervals st1)) st1)
  else st1.

(** A reply or a wake-up continues an api call; when the call settles, its
    reaction runs. *)
Definition resume (i : nat) (job : net) (k : result → proc) (now : Z)
    (st : state) : state :=
  let '(job', st') := advance job now st in
  match job' with
  | Ret v => exec now (k (Fulfilled v)) (with_tasks (delete i (tasks st')) st')
  | Throw => exec now (k Rejected) (with_tasks (delete i (tasks st')) st')
  | _ => with_tasks (<[i := (job', k)]> (tasks st')) st'
  end.

Inductive event :=
  | ClickResolve (r : nat) (now : Z)
  | ClickArchive (r : nat) (now : Z)
  | ClickUnarchive (r : nat) (now : Z)
  | Tick (h : positive) (now : Z)
  | Reply (i : nat) (rp : reply) (now : Z)
  | Wake (i : nat) (now : Z).

(** One callback; [None] when the browser cannot deliver the event (no such
    row, interval, pending request or pending timeout). *)
Definition step (ev : event) (st : state) : option state :=
  match ev with
  | ClickResolve r now => rw ← rows st !! r; Some (exec now (handleResolve r rw) st)
  | ClickArchive r now => rw ← rows st !! r; Some (exec now (handleArchive r rw) st)
  | ClickUnarchive r now => rw ← rows st !! r; Some (exec now (handleUnarchive r rw) st)
  | Tick h now => t ← intervals st !! h; Some (interval_callback h t now st)
  | Reply i rp now =>
      tk ← tasks st !! i;
      match tk.1 with
      | Fetch _ k => Some (resume i (k rp) tk.2 now st)
      | _ => None
      end
  | Wake i now =>
      tk ← tasks st !! i;
      match tk.1 with
      | Sleep _ k => Some (resume i k tk.2 now st)
      | _ => None
      end
  end.

Fixpoint run (evs : list event) (st : state) : option state :=
  match evs with
  | [] => Some st
  | ev :: evs' => st' ← step ev st; run evs' st'
  end.

End Machine.

(** ** One resolve flow, call by call *)

(** The calls a handler makes, in order. *)
Inductive act :=
  | AStopTimer (rowKey : string)
  | ARemaining (pid : string)
  | AResolve (pid : string)
  | AArchive (pid : string)
  | AUnarchive (pid : string)
  | ACountdown (r : nat) (rowId : string) (seconds : jsval)
  | AFinalizeResolve (r : nat) (payload : option json)
  | AFinalizeArchive (r : nat) (payload : option json)
  | ARefresh (payload : option json)
  | AHideMini (r : nat).

(** The flow of a handler when its api calls settle with [answers], in the
    order they are made, and every countdown it starts runs to completion.
    The flow ends early at a call that never settles. *)
Fixpoint play (p : proc) (answers : list result) : list act :=
  let settle a k :=
    a :: match answers with
         | [] => []
         | res :: rest => play (k res) rest
         end in
  match p with
  | Done => []
  | StopTimerForRow rowKey next => AStopTimer rowKey :: play next answers
  | CallRemaining pid k => settle (ARemaining pid) k
  | CallResolve pid k => settle (AResolve pid) k
  | CallArchive pid k => settle (AArchive pid) k
  | CallUnarchive pid k => settle (AUnarchive pid) k
  | StartMiniCountdown r rowId seconds onDone =>
      ACountdown r rowId seconds :: play onDone answers
  | FinalizeResolve r payload next => AFinalizeResolve r payload :: play next answers
  | FinalizeArchive r payload next => AFinalizeArchive r payload :: play next answers
  | RefreshFromPayload payload next => ARefresh payload :: play next answers
  | HideMini r next => AHideMini r :: play next answers
  end.

(** The body [{ok: false, error: 'too_early', seconds_remaining: v}] with
    [v > 0]. *)
Definition too_early_with (p : json) (v : jsval) : Prop :=
  ok p = false ∧ error p = Some "too_early" ∧ seconds_remaining p = Some v
  ∧ gt_zero v = true.

(** How a flow ends once the retried resolve has settled. *)
Definition ending (r : nat) (res : result) : act :=
  match res with
  | Fulfilled p2 => if is_ok p2 then AFinalizeResolve r p2 else AHideMini r
  | Rejected => AHideMini r
  end.

Definition is_resolve (a : act) : bool :=
  match a with AResolve _ => true | _ => false end.

Definition count_resolves (l : list act) : nat :=
  length (List.filter is_resolve l).

(** ** Retry of lock conflicts in [apiResolve] *)

Definition conflict_status (status : Z) : bool := (status =? 409) || (status =? 423).


(** One unfolding of [apiResolve] under [drive]. *)
Lemma drive_apiResolve_fuel fuel portId attempt keys n replies :
  drive (apiResolve_fuel fuel portId attempt) keys n replies =
  match replies with
  | [] => ([Sent (PostResolve portId (keys n))], None)
  | r :: rest =>
      let '(tr, res) :=
        match r with
        | NetErr => ([], Some Rejected)
        | Http status body =>
            if r_ok status then drive (json_of body) keys (S n) rest
            else if conflict_status status && (attempt <? 2)%nat then
              match fuel with
              | S fuel' =>
                  let '(tr, res) :=
                    drive (apiResolve_fuel fuel' portId (attempt + 1)) keys (S n) rest in
                  (Slept (150 * (Z.of_nat attempt + 1)) :: tr, res)
              | O => ([], Some Rejected)
              end
            else ([], Some (Fulfilled (Some (http_error status))))
        end in
      (Sent (PostResolve portId (keys n)) :: tr, res)
  end.
Proof.
  unfold conflict_status.
  destruct fuel; simpl; destruct replies as [|[status body|] rest]; simpl; try done;
    destruct (r_ok status); try done;
    destruct ((_ || _) && _); try done;
    destruct (drive _ _ _ _); done.
Qed.

(** [r.json()] of a body: the parsed value, or a rejection. *)
Definition parsed (body : option (option json)) : result :=
  match body with Some v => Fulfilled v | None => Rejected end.

Lemma drive_json_of body keys n replies :
  drive (json_of body) keys n replies = ([], Some (parsed body)).
Proof. by destruct body. Qed.









(** The retry sequence of one [apiResolve] call uses consecutive values of the
    generator, one per request. *)
Lemma drive_apiResolve_keys fuel : ∀ portId attempt keys n replies,
  requests (drive (apiResolve_fuel fuel portId attempt) keys n replies).1
  = (λ i, PostResolve portId (keys i))
      <$> seq n (length (requests
            (drive (apiResolve_fuel fuel portId attempt) keys n replies).1)).
Proof.
  induction fuel as [|fuel IH]; intros portId attempt keys n replies;
    rewrite drive_apiResolve_fuel;
    (destruct replies as [|[status body|] rest]; [done| |done]);
    (destruct (r_ok status); [by rewrite drive_json_of|]);
    (destruct (conflict_status status && (attempt <? 2)%nat); [|done]).
  - done.
  - specialize (IH portId (attempt + 1)%nat keys (S n) rest).
    destruct (drive (apiResolve_fuel fuel portId (attempt + 1)) keys (S n) rest)
      as [tr res]. simpl in *. f_equal. exact IH.
Qed.


(** Two conflicts, then a 423: three requests, pauses of 150 and 300 ms, and
    the failure value [http_423]. *)
Example three_conflicts :
  drive (apiResolve "p7" 0) (λ n, pretty n) 0
        [Http 409 None; Http 423 None; Http 423 None; Http 200 None]
  = ([Sent (PostResolve "p7" "0"); Slept 150;
      Sent (PostResolve "p7" "1"); Slept 300;
      Sent (PostResolve "p7" "2")],
     Some (Fulfilled (Some {| ok := false; error := Some "http_423";
                              seconds_remaining := None; remaining := None;
                              tables := false; content := 0 |}))).
Proof. vm_compute. reflexivity. Qed.

(** A rejected [fetch] is not turned into a failure value: the call rejects. *)
Example network_error_rejects :
  drive (apiResolve "p7" 0) (λ n, pretty n) 0 [NetErr]
  = ([Sent (PostResolve "p7" "0")], Some Rejected).
Proof. vm_compute. reflexivity. Qed.


(** ** Idempotency keys *)

Definition resolve_keys (l : list request) : list string :=
  omap (λ rq, match rq with PostResolve _ key => Some key | _ => None end) l.

(** An api call that has not started yet is well keyed when every resolve
    request in it is built right after a call of the generator, from the
    value of that call, and every call of the generator is used so. *)
Fixpoint fresh_keyed (job : net) : Prop :=
  match job with
  | Ret _ | Throw => True
  | GenKey k =>
      ∀ key, match k key with
             | Fetch (PostResolve _ key') k' => key' = key ∧ ∀ rp, fresh_keyed (k' rp)
             | _ => False
             end
  | Fetch rq k =>
      match rq with PostResolve _ _ => False | _ => True end
      ∧ ∀ rp, fresh_keyed (k rp)
  | Sleep _ k => fresh_keyed k
  end.

(** A call waiting for a reply or a wake-up. *)
Definition parked (job : net) : Prop :=
  match job with
  | Fetch _ k => ∀ rp, fresh_keyed (k rp)
  | Sleep _ k => fresh_keyed k
  | _ => True
  end.

Lemma fresh_keyed_json_of body : fresh_keyed (json_of body).
Proof. by destruct body. Qed.

Lemma fresh_keyed_apiResolve fuel : ∀ portId attempt,
  fresh_keyed (apiResolve_fuel fuel portId attempt).
Proof.
  induction fuel as [|fuel IH]; intros portId attempt; simpl;
    (intros key; split; [done|]); intros [status body|]; try done;
    destruct (r_ok status); try apply fresh_keyed_json_of;
    destruct (_ && _); try done.
  apply IH.
Qed.

Lemma fresh_keyed_apiRemaining portId : fresh_keyed (apiRemaining portId).
Proof.
  simpl. split; [done|]. intros [status body|]; [|done].
  destruct (r_ok status); [apply fresh_keyed_json_of|done].
Qed.

Lemma fresh_keyed_apiArchive portId : fresh_keyed (apiArchive portId).
Proof.
  simpl. split; [done|]. intros [status body|]; [|done]. apply fresh_keyed_json_of.
Qed.

Lemma fresh_keyed_apiUnarchive portId : fresh_keyed (apiUnarchive portId).
Proof.
  simpl. split; [done|]. intros [status body|]; [|done]. apply fresh_keyed_json_of.
Qed.

Lemma resolve_keys_snoc l rq :
  resolve_keys (l ++ [rq])
  = resolve_keys l ++ match rq with PostResolve _ key => [key] | _ => [] end.
Proof. unfold resolve_keys. rewrite omap_app. by destruct rq. Qed.

(** ** The row-timer map and the running intervals *)

Definition same_timers (st st' : state) : Prop :=
  rowTimers st' = rowTimers st ∧ intervals st' = intervals st
  ∧ next_handle st' = next_handle st.

(** The map holds exactly the running intervals, each under its own key, and
    handles are never reused. *)
Definition timers_ok (st : state) : Prop :=
  (∀ h t, intervals st !! h = Some t → rowTimers st !! t_key t = Some h)
  ∧ (∀ k h, rowTimers st !! k = Some h → ∃ t, intervals st !! h = Some t ∧ t_key t = k)
  ∧ (∀ h t, intervals st !! h = Some t → (h < next_handle st)%positive).

Lemma timers_ok_same st st' : same_timers st st' → timers_ok st → timers_ok st'.
Proof. intros (Hm & Hi & Hn). unfold timers_ok. by rewrite Hm, Hi, Hn. Qed.

Lemma timers_ok_initial table : timers_ok (initial table).
Proof.
  repeat split; simpl; intros *; by rewrite lookup_empty.
Qed.

Lemma stopTimerForRow_spec rowKey st :
  timers_ok st →
  let st' := stopTimerForRow rowKey st in
  timers_ok st'
  ∧ rowTimers st' !! rowKey = None
  ∧ (∀ h t, intervals st' !! h = Some t → t_key t ≠ rowKey)
  ∧ (∀ h, rowTimers st !! rowKey = Some h → intervals st' !! h = None)
  ∧ next_handle st' = next_handle st
  ∧ (∀ h t, intervals st' !! h = Some t → intervals st !! h = Some t).
Proof.
  intros (Hiv & Hmap & Hfresh). unfold stopTimerForRow.
  destruct (rowTimers st !! rowKey) as [h0|] eqn:Hk; cbv zeta; simpl.
  - split; [unfold timers_ok; simpl; split; [|split]|split; [|split; [|split; [|split]]]].
    + intros h t [Hne Hh]%lookup_delete_Some.
      rewrite lookup_delete_ne; [by apply Hiv|].
      intros Heq. apply Hiv in Hh. congruence.
    + intros k h [Hne Hkh]%lookup_delete_Some.
      destruct (Hmap k h Hkh) as (t & Ht & Hkey). exists t. split; [|done].
      rewrite lookup_delete_ne; [done|]. intros Heq. subst h.
      destruct (Hmap rowKey h0 Hk) as (t0 & Ht0 & Hkey0). congruence.
    + intros h t [_ Hh]%lookup_delete_Some. by eapply Hfresh.
    + apply lookup_delete_eq.
    + intros h t [Hne Hh]%lookup_delete_Some Hkey.
      apply Hiv in Hh. congruence.
    + intros h [= ->]. apply lookup_delete_eq.
    + done.
    + by intros h t [_ Hh]%lookup_delete_Some.
  - split; [done|]. split; [done|]. split; [|done].
    intros h t Hh Hkey. apply Hiv in Hh. congruence.
Qed.

Lemma startMiniCountdown_spec r rowId seconds onDone now st :
  timers_ok st →
  let st' := startMiniCountdown r rowId seconds onDone now st in
  let h' := next_handle st in
  timers_ok st'
  ∧ rowTimers st' !! rowId = Some h'
  ∧ intervals st' !! h'
    = Some {| t_row := r; t_key := rowId; t_total := countdown_total seconds;
              t_start := now; t_onDone := onDone |}
  ∧ (∀ h, rowTimers st !! rowId = Some h → intervals st' !! h = None)
  ∧ (∀ h t, intervals st' !! h = Some t → t_key t = rowId → h = h')
  ∧ next_handle st' = (h' + 1)%positive
  ∧ (∀ h t, intervals st' !! h = Some t → h = h' ∨ intervals st !! h = Some t).
Proof.
  intros Hok. unfold startMiniCountdown.
  set (st0 := with_rows _ st).
  assert (Hok0 : timers_ok st0) by (by eapply timers_ok_same; [|exact Hok]).
  destruct (stopTimerForRow_spec rowId st0 Hok0)
    as ((Hiv & Hmap & Hfresh) & Hgone & Hnokey & Hprior & Hnext & Hsub).
  set (st1 := stopTimerForRow rowId st0) in *.
  change (next_handle st0) with (next_handle st) in Hnext.
  change (rowTimers st0) with (rowTimers st) in Hprior.
  change (intervals st0) with (intervals st) in Hsub.
  cbv zeta. simpl. rewrite Hnext. rewrite Hnext in Hfresh.
  split; [unfold timers_ok; simpl; split; [|split]|
          split; [|split; [|split; [|split; [|split]]]]].
  - intros h t [[<- <-] | [Hne Hh]]%lookup_insert_Some; simpl.
    + apply lookup_insert_eq.
    + rewrite lookup_insert_ne; [by apply Hiv|].
      intros Heq. by eapply Hnokey.
  - intros k h [[<- <-] | [Hne Hk]]%lookup_insert_Some.
    + eexists. split; [apply lookup_insert_eq|done].
    + destruct (Hmap k h Hk) as (t & Ht & Hkey). exists t. split; [|done].
      rewrite lookup_insert_ne; [done|]. intros <-.
      apply Hfresh in Ht. lia.
  - intros h t [[<- <-] | [Hne Hh]]%lookup_insert_Some; [lia|].
    apply Hfresh in Hh. lia.
  - apply lookup_insert_eq.
  - apply lookup_insert_eq.
  - intros h Hh. rewrite lookup_insert_ne; [by apply Hprior|].
    intros <-. destruct Hok as (_ & Hmap0 & Hfresh0).
    destruct (Hmap0 rowId _ Hh) as (t & Ht & _). apply Hfresh0 in Ht. lia.
  - intros h t [[<- <-] | [Hne Hh]]%lookup_insert_Some Hkey; [done|].
    by destruct (Hnokey h t Hh).
  - done.
  - intros h t [[<- <-] | [Hne Hh]]%lookup_insert_Some; auto.
Qed.

(** Callbacks only ever add intervals with fresh handles. *)
Definition grows (st st' : state) : Prop :=
  timers_ok st'
  ∧ (next_handle st <= next_handle st')%positive
  ∧ (∀ h t, intervals st' !! h = Some t →
       intervals st !! h = Some t ∨ (next_handle st <= h)%positive).

Lemma grows_refl st : timers_ok st → grows st st.
Proof. intros Hok. split; [done|]. split; [lia|auto]. Qed.

Lemma grows_trans st1 st2 st3 : grows st1 st2 → grows st2 st3 → grows st1 st3.
Proof.
  intros (_ & Hn1 & Hi1) (Hok & Hn2 & Hi2). split; [done|]. split; [lia|].
  intros h t [Hh | Hh]%Hi2; [|right; lia]. by apply Hi1.
Qed.

Lemma grows_same st st' : timers_ok st → same_timers st st' → grows st st'.
Proof.
  intros Hok Hsame. split; [by eapply timers_ok_same|].
  destruct Hsame as (Hm & -> & ->). split; [lia|auto].
Qed.

Lemma grows_stop rowKey st : timers_ok st → grows st (stopTimerForRow rowKey st).
Proof.
  intros Hok.
  destruct (stopTimerForRow_spec rowKey st Hok) as (Hok' & _ & _ & _ & Hn & Hsub).
  split; [done|]. split; [lia|]. intros h t Hh. left. by apply Hsub.
Qed.

Lemma grows_start r rowId seconds onDone now st :
  timers_ok st → grows st (startMiniCountdown r rowId seconds onDone now st).
Proof.
  intros Hok.
  destruct (startMiniCountdown_spec r rowId seconds onDone now st Hok)
    as (Hok' & _ & _ & _ & _ & Hn & Hsub).
  split; [done|]. split; [lia|].
  intros h t [-> | Hh]%Hsub; [right; lia|by left].
Qed.

(** The total of a countdown for a whole number of seconds below 1e21,
    handed over as a number, is that number; a fraction is cut off. *)
Lemma parseInt_plain q :
  plain q = true → parseInt (JNum q) = Int (Z.quot (Qnum q) (Z.pos (Qden q))).
Proof. intros Hp. simpl. by rewrite Hp. Qed.



Section MachineFacts.

Variable E : entropy.

Lemma advance_same job : ∀ now st, same_timers st (advance E job now st).2.
Proof.
  induction job as [v| |k IH|rq k IH|ms job IH]; intros now st; simpl; try done.
  destruct (IH (idempotencyKey E (length (keys st)) now) now
              (Build_state (rowTimers st) (intervals st) (next_handle st) (tasks st)
                 (next_task st) (rows st) (sent st)
                 (keys st ++ [idempotencyKey E (length (keys st)) now])
                 (wallet_updates st) (renders st))) as (H1 & H2 & H3).
  done.
Qed.

Lemma spawn_same job k now st : same_timers st (spawn E job k now st).
Proof.
  unfold spawn. pose proof (advance_same job now st) as Hs.
  by destruct (advance E job now st) as [job' st'].
Qed.

Lemma exec_grows p : ∀ now st, timers_ok st → grows st (exec E now p st).
Proof.
  induction p as [|rowKey next IH|pid k _|pid k _|pid k _|pid k _
                  |r rowId seconds onDone _|r payload next IH
                  |r payload next IH|payload next IH|r next IH];
    intros now st Hok; simpl.
  - by apply grows_refl.
  - eapply grows_trans; [by apply grows_stop|]. apply IH.
    by destruct (grows_stop rowKey st Hok).
  - apply grows_same; [done|apply spawn_same].
  - apply grows_same; [done|apply spawn_same].
  - apply grows_same; [done|apply spawn_same].
  - apply grows_same; [done|apply spawn_same].
  - by apply grows_start.
  - eapply grows_trans; [apply (grows_same st (finalizeResolve r payload st)); done|].
    apply IH. by eapply timers_ok_same; [|exact Hok].
  - eapply grows_trans; [apply (grows_same st (finalizeArchive r payload st)); done|].
    apply IH. by eapply timers_ok_same; [|exact Hok].
  - assert (Hs : same_timers st (refreshFromPayload payload st))
      by (by destruct payload).
    eapply grows_trans; [by apply grows_same|].
    apply IH. by eapply timers_ok_same; [|exact Hok].
  - eapply grows_trans; [apply (grows_same st (hideMini r st)); done|].
    apply IH. by eapply timers_ok_same; [|exact Hok].
Qed.

(** A completing tick removes the interval the way [stopTimerForRow] does. *)
Lemma completion_is_stop h t st :
  timers_ok st → intervals st !! h = Some t →
  with_timers (delete (t_key t) (rowTimers st)) (delete h (intervals st)) st
  = stopTimerForRow (t_key t) st.
Proof.
  intros (Hiv & _ & _) Hh. unfold stopTimerForRow. by rewrite (Hiv h t Hh).
Qed.

Lemma interval_callback_grows h t now st :
  timers_ok st → intervals st !! h = Some t →
  grows st (interval_callback E h t now st).
Proof.
  intros Hok Hh. unfold interval_callback.
  set (st1 := with_rows _ st).
  assert (Hok1 : timers_ok st1) by (by eapply timers_ok_same; [|exact Hok]).
  assert (Hg1 : grows st st1) by (by apply grows_same).
  destruct (le_zero (seconds_left t now)); [|done].
  rewrite (completion_is_stop h t st1 Hok1 Hh).
  eapply grows_trans; [exact Hg1|].
  eapply grows_trans; [by apply grows_stop|].
  apply exec_grows. by destruct (grows_stop (t_key t) st1 Hok1).
Qed.

Lemma resume_grows i job k now st :
  timers_ok st → grows st (resume E i job k now st).
Proof.
  intros Hok. unfold resume.
  pose proof (advance_same job now st) as Hs.
  destruct (advance E job now st) as [job' st']. simpl in Hs.
  assert (Hok' : timers_ok st') by (by eapply timers_ok_same).
  assert (Hg : grows st st') by (by apply grows_same).
  assert (Hdel : grows st (with_tasks (delete i (tasks st')) st')).
  { eapply grows_trans; [exact Hg|]. by apply grows_same. }
  destruct job'.
  - eapply grows_trans; [exact Hdel|]. apply exec_grows. by destruct Hdel.
  - eapply grows_trans; [exact Hdel|]. apply exec_grows. by destruct Hdel.
  - eapply grows_trans; [exact Hg|]. by apply grows_same.
  - eapply grows_trans; [exact Hg|]. by apply grows_same.
  - eapply grows_trans; [exact Hg|]. by apply grows_same.
Qed.

Lemma step_grows ev st st' :
  timers_ok st → step E ev st = Some st' → grows st st'.
Proof.
  intros Hok Hstep.
  destruct ev as [r now|r now|r now|h now|i rp now|i now];
    cbn -[exec handleResolve handleArchive handleUnarchive interval_callback resume]
      in Hstep.
  - destruct (rows st !! r); [|done]. apply (inj Some) in Hstep; subst st'. by apply exec_grows.
  - destruct (rows st !! r); [|done]. apply (inj Some) in Hstep; subst st'. by apply exec_grows.
  - destruct (rows st !! r); [|done]. apply (inj Some) in Hstep; subst st'. by apply exec_grows.
  - destruct (intervals st !! h) as [t|] eqn:Hh; [|done]. apply (inj Some) in Hstep; subst st'.
    by apply interval_callback_grows.
  - destruct (tasks st !! i) as [[job k]|]; [|done].
    cbn -[resume] in Hstep.
    destruct job; try done. apply (inj Some) in Hstep; subst st'. by apply resume_grows.
  - destruct (tasks st !! i) as [[job k]|]; [|done].
    cbn -[resume] in Hstep.
    destruct job; try done. apply (inj Some) in Hstep; subst st'. by apply resume_grows.
Qed.

Lemma run_grows evs : ∀ st st',
  timers_ok st → run E evs st = Some st' → grows st st'.
Proof.
  induction evs as [|ev evs IH]; intros st st' Hok Hrun; simpl in Hrun.
  - injection Hrun as <-. by apply grows_refl.
  - destruct (step E ev st) as [st1|] eqn:Hstep; [|done]. simpl in Hrun.
    pose proof (step_grows ev st st1 Hok Hstep) as Hg.
    eapply grows_trans; [exact Hg|]. apply IH; [by destruct Hg|done].
Qed.

(** C7.  In every state the page can reach, the running countdown intervals
    are exactly the entries of [VM.state.rowTimers]: no two running intervals
    belong to the same row key.  Starting a countdown for a key cancels the
    interval the map held for it (its handle no longer runs) and leaves the
    new handle as the only interval of the key; stopping the timer of a key
    leaves the map without that key and no interval of that key running; a
    completing tick removes its own handle and its key before the
    completion callback runs. *)
Theorem one_timer_per_row evs table st :
  run E evs (initial table) = Some st →
  (∀ h1 h2 t1 t2,
      intervals st !! h1 = Some t1 → intervals st !! h2 = Some t2 →
      t_key t1 = t_key t2 → h1 = h2)
  ∧ (∀ k h, rowTimers st !! k = Some h
            ↔ ∃ t, intervals st !! h = Some t ∧ t_key t = k)
  ∧ (∀ r k seconds onDone now,
      let st' := startMiniCountdown r k seconds onDone now st in
      (∀ h, rowTimers st !! k = Some h → intervals st' !! h = None)
      ∧ rowTimers st' !! k = Some (next_handle st)
      ∧ (∀ h t, intervals st' !! h = Some t → t_key t = k → h = next_handle st))
  ∧ (∀ k,
      let st' := stopTimerForRow k st in
      rowTimers st' !! k = None
      ∧ (∀ h, rowTimers st !! k = Some h → intervals st' !! h = None)
      ∧ (∀ h t, intervals st' !! h = Some t → t_key t ≠ k))
  ∧ (∀ h t now,
      intervals st !! h = Some t → le_zero (seconds_left t now) = true →
      ∃ st0, step E (Tick h now) st = Some (exec E now (t_onDone t) st0)
             ∧ rowTimers st0 !! t_key t = None
             ∧ intervals st0 !! h = None
             ∧ (∀ h' t', intervals st0 !! h' = Some t' → t_key t' ≠ t_key t)).
Proof.
  intros Hrun.
  destruct (run_grows evs _ _ (timers_ok_initial table) Hrun) as (Hok & _ & _).
  pose proof Hok as (Hiv & Hmap & Hfresh).
  split; [|split; [|split; [|split]]].
  - intros h1 h2 t1 t2 H1 H2 Hkey. apply Hiv in H1, H2. congruence.
  - intros k h. split; [apply Hmap|].
    intros (t & Ht & <-). by apply Hiv.
  - intros r k seconds onDone now.
    destruct (startMiniCountdown_spec r k seconds onDone now st Hok)
      as (_ & Hnew & _ & Hprior & Honly & _). cbv zeta. eauto.
  - intros k.
    destruct (stopTimerForRow_spec k st Hok) as (_ & Hgone & Hnokey & Hprior & _).
    cbv zeta. eauto.
  - intros h t now Hh Hleft. cbn -[interval_callback]. rewrite Hh.
    cbn -[interval_callback]. unfold interval_callback.
    set (st1 := with_rows _ st).
    assert (Hok1 : timers_ok st1) by (by eapply timers_ok_same; [|exact Hok]).
    rewrite Hleft.
    eexists. split; [reflexivity|].
    rewrite (completion_is_stop h t st1 Hok1 Hh).
    destruct (stopTimerForRow_spec (t_key t) st1 Hok1)
      as (_ & Hgone & Hnokey & Hprior & _).
    split; [done|]. split; [|done]. apply Hprior. by apply Hiv.
Qed.

(** An interval that has been cleared never runs again. *)
Definition retired (h : positive) (st : state) : Prop :=
  intervals st !! h = None ∧ (h < next_handle st)%positive.

Lemma retired_grows h st st' : grows st st' → retired h st → retired h st'.
Proof.
  intros (_ & Hn & Hsub) [Hnone Hlt]. split; [|lia].
  destruct (intervals st' !! h) as [t|] eqn:Hh; [|done].
  destruct (Hsub h t Hh) as [Hold | Hnew]; [congruence|lia].
Qed.


(** *** Every resolve request carries the value of its own generator call *)

Definition same_net (st st' : state) : Prop :=
  sent st' = sent st ∧ keys st' = keys st ∧ tasks st' = tasks st.

Definition keys_ok (st : state) : Prop :=
  resolve_keys (sent st) = keys st
  ∧ (∀ i job k, tasks st !! i = Some (job, k) → parked job)
  ∧ (∀ j key, keys st !! j = Some key → ∃ now, key = idempotencyKey E j now).

Lemma keys_ok_same st st' : same_net st st' → keys_ok st → keys_ok st'.
Proof. intros (Hs & Hk & Ht). unfold keys_ok. by rewrite Hs, Hk, Ht. Qed.

Lemma keys_ok_initial table : keys_ok (initial table).
Proof.
  split; [done|]. split; simpl.
  - intros i job k Hi. by rewrite lookup_empty in Hi.
  - intros j key Hj. by rewrite lookup_nil in Hj.
Qed.

Lemma stop_same_net rowKey st : same_net st (stopTimerForRow rowKey st).
Proof. unfold stopTimerForRow. by destruct (rowTimers st !! rowKey). Qed.

Lemma start_same_net r rowId seconds onDone now st :
  same_net st (startMiniCountdown r rowId seconds onDone now st).
Proof.
  unfold startMiniCountdown. set (st0 := with_rows _ st).
  destruct (stop_same_net rowId st0) as (Hs & Hk & Ht). simpl. by rewrite Hs, Hk, Ht.
Qed.

Lemma advance_keys job now st :
  fresh_keyed job → keys_ok st →
  parked (advance E job now st).1
  ∧ keys_ok (advance E job now st).2
  ∧ tasks (advance E job now st).2 = tasks st.
Proof.
  intros Hjob (Hsent & Htasks & Hkeys).
  destruct job as [v| |k|rq k|ms job]; simpl in *; try done.
  - specialize (Hjob (idempotencyKey E (length (keys st)) now)).
    destruct (k (idempotencyKey E (length (keys st)) now)) as [| | |rq k'|];
      try done.
    destruct rq as [pid key'| | |]; try done. destruct Hjob as [-> Hnext].
    simpl. split; [done|]. split; [|done]. split; [|split]; simpl.
    + rewrite resolve_keys_snoc. by rewrite Hsent.
    + done.
    + intros j key [[_ Hj] | [-> <-]]%lookup_snoc_Some; eauto.
  - destruct Hjob as [Hrq Hnext]. split; [done|]. split; [|done].
    split; [|split]; simpl; try done.
    rewrite resolve_keys_snoc, Hsent. destruct rq; try done; by rewrite app_nil_r.
Qed.

Lemma spawn_keys job k now st :
  fresh_keyed job → keys_ok st → keys_ok (spawn E job k now st).
Proof.
  intros Hjob Hok. unfold spawn.
  destruct (advance_keys job now st Hjob Hok) as (Hpark & (Hs & Ht & Hk) & Htasks).
  destruct (advance E job now st) as [job' st']. simpl in *.
  split; [done|]. split; [|done]. simpl.
  intros i j0 k0 [[<- [= <- <-]] | [Hne Hi]]%lookup_insert_Some; eauto.
Qed.

Lemma exec_keys p : ∀ now st, keys_ok st → keys_ok (exec E now p st).
Proof.
  induction p as [|rowKey next IH|pid k _|pid k _|pid k _|pid k _
                  |r rowId seconds onDone _|r payload next IH
                  |r payload next IH|payload next IH|r next IH];
    intros now st Hok; simpl.
  - done.
  - apply IH. eapply keys_ok_same; [apply stop_same_net|done].
  - apply spawn_keys; [apply fresh_keyed_apiRemaining|done].
  - apply spawn_keys; [apply fresh_keyed_apiResolve|done].
  - apply spawn_keys; [apply fresh_keyed_apiArchive|done].
  - apply spawn_keys; [apply fresh_keyed_apiUnarchive|done].
  - eapply keys_ok_same; [apply start_same_net|done].
  - apply IH. by eapply keys_ok_same; [|exact Hok].
  - apply IH. by eapply keys_ok_same; [|exact Hok].
  - apply IH. eapply keys_ok_same; [|exact Hok]. by destruct payload.
  - apply IH. by eapply keys_ok_same; [|exact Hok].
Qed.

Lemma interval_callback_keys h t now st :
  keys_ok st → keys_ok (interval_callback E h t now st).
Proof.
  intros Hok. unfold interval_callback.
  destruct (le_zero _).
  - apply exec_keys. by eapply keys_ok_same; [|exact Hok].
  - by eapply keys_ok_same; [|exact Hok].
Qed.

Lemma resume_keys i job k now st :
  fresh_keyed job → keys_ok st → keys_ok (resume E i job k now st).
Proof.
  intros Hjob Hok. unfold resume.
  destruct (advance_keys job now st Hjob Hok) as (Hpark & (Hs & Ht & Hk) & Htasks).
  destruct (advance E job now st) as [job' st']. simpl in *.
  assert (Hdel : keys_ok (with_tasks (delete i (tasks st')) st')).
  { split; [done|]. split; [|done]. simpl.
    intros i0 j0 k0 [_ Hi]%lookup_delete_Some. eauto. }
  assert (Hins : keys_ok (with_tasks (<[i := (job', k)]> (tasks st')) st')).
  { split; [done|]. split; [|done]. simpl.
    intros i0 j0 k0 [[<- [= <- <-]] | [Hne Hi]]%lookup_insert_Some; eauto. }
  destruct job'; try done; by apply exec_keys.
Qed.

Lemma step_keys ev st st' : keys_ok st → step E ev st = Some st' → keys_ok st'.
Proof.
  intros Hok Hstep.
  destruct ev as [r now|r now|r now|h now|i rp now|i now];
    cbn -[exec handleResolve handleArchive handleUnarchive interval_callback resume]
      in Hstep.
  - destruct (rows st !! r); [|done]. apply (inj Some) in Hstep; subst st'.
    by apply exec_keys.
  - destruct (rows st !! r); [|done]. apply (inj Some) in Hstep; subst st'.
    by apply exec_keys.
  - destruct (rows st !! r); [|done]. apply (inj Some) in Hstep; subst st'.
    by apply exec_keys.
  - destruct (intervals st !! h) as [t|] eqn:Hh; [|done].
    apply (inj Some) in Hstep; subst st'. by apply interval_callback_keys.
  - destruct (tasks st !! i) as [[job k]|] eqn:Hi; [|done].
    cbn -[resume] in Hstep.
    destruct job; try done. apply (inj Some) in Hstep; subst st'.
    apply resume_keys; [|done]. destruct Hok as (_ & Hpark & _).
    apply (Hpark i _ _ Hi).
  - destruct (tasks st !! i) as [[job k]|] eqn:Hi; [|done].
    cbn -[resume] in Hstep.
    destruct job; try done. apply (inj Some) in Hstep; subst st'.
    apply resume_keys; [|done]. destruct Hok as (_ & Hpark & _).
    apply (Hpark i _ _ Hi).
Qed.

Lemma run_keys evs : ∀ st st', keys_ok st → run E evs st = Some st' → keys_ok st'.
Proof.
  induction evs as [|ev evs IH]; intros st st' Hok Hrun; simpl in Hrun.
  - by injection Hrun as <-.
  - destruct (step E ev st) as [st1|] eqn:Hstep; [|done]. simpl in Hrun.
    eapply IH; [|exact Hrun]. by eapply step_keys.
Qed.

(** The generator never returns the same value twice. *)
Definition never_repeats : Prop :=
  ∀ i j now now', i ≠ j → idempotencyKey E i now ≠ idempotencyKey E j now'.

(** C5.  In every state the page can reach, the idempotency keys of the
    resolve requests sent so far (first attempts, 409/423 retries and retries
    after a countdown alike) are, in order, the values returned by the calls
    of [idempotencyKey()] made so far: request number [j] carries the value
    of call number [j], no call serves two requests.  Within one [apiResolve]
    call the retries use consecutive calls of the generator.  Hence, when the
    generator never returns a value twice, no two requests carry the same
    key. *)
Theorem fresh_key_per_request evs table st :
  run E evs (initial table) = Some st →
  resolve_keys (sent st) = keys st
  ∧ (∀ j key, keys st !! j = Some key → ∃ now, key = idempotencyKey E j now)
  ∧ (∀ portId gen n replies,
       requests (drive (apiResolve portId 0) gen n replies).1
       = (λ i, PostResolve portId (gen i))
           <$> seq n (length (requests (drive (apiResolve portId 0) gen n replies).1)))
  ∧ (never_repeats → NoDup (resolve_keys (sent st))).
Proof.
  intros Hrun.
  destruct (run_keys evs _ _ (keys_ok_initial table) Hrun) as (Hsent & _ & Hkeys).
  split; [done|]. split; [done|]. split; [intros; apply drive_apiResolve_keys|].
  intros Hfresh. rewrite Hsent. apply NoDup_alt.
  intros i j key Hi Hj. destruct (decide (i = j)) as [|Hne]; [done|].
  destruct (Hkeys i key Hi) as [now ->], (Hkeys j _ Hj) as [now' Heq].
  by destruct (Hfresh i j now now' Hne).
Qed.

End MachineFacts.

(** ** The resolve flow *)

Lemma too_early_tests p v :
  too_early_with p v →
  is_ok (Some p) = false ∧ is_too_early (Some p) = true ∧ seconds_of (Some p) = v.
Proof.
  intros (Hok & Herr & Hsec & Hpos). unfold is_ok, is_too_early, seconds_of.
  rewrite Hok, Herr, Hsec. simpl. by rewrite Hpos.
Qed.

Lemma play_after_retry r res rest :
  play (after_retry r res) rest = [ending r res].
Proof. destruct res as [p2|]; simpl; [|done]. by destruct (is_ok p2). Qed.


Lemma hideMini_row r st rw :
  rows st !! r = Some rw →
  ∃ rw', rows (hideMini r st) !! r = Some rw'
         ∧ mini_hidden rw' = set_if (mini_hidden rw) true
         ∧ td_status rw' = td_status rw ∧ txt rw' = txt rw
         ∧ fill rw' = fill rw ∧ actions_cleared rw' = actions_cleared rw.
Proof.
  intros Hr. unfold hideMini. simpl. rewrite lookup_alter_eq, Hr. simpl.
  eexists. split; [done|]. done.
Qed.

Lemma stop_keeps key st :
  tasks (stopTimerForRow key st) = tasks st
  ∧ next_task (stopTimerForRow key st) = next_task st
  ∧ rows (stopTimerForRow key st) = rows st
  ∧ sent (stopTimerForRow key st) = sent st
  ∧ wallet_updates (stopTimerForRow key st) = wallet_updates st
  ∧ renders (stopTimerForRow key st) = renders st.
Proof. unfold stopTimerForRow. by destruct (rowTimers st !! key). Qed.

Lemma countdown_registered r rowId seconds onDone now st :
  intervals (startMiniCountdown r rowId seconds onDone now st) !! next_handle st
  = Some {| t_row := r; t_key := rowId; t_total := countdown_total seconds;
            t_start := now; t_onDone := onDone |}.
Proof.
  unfold startMiniCountdown. set (st0 := with_rows _ st).
  assert (Hn : next_handle (stopTimerForRow rowId st0) = next_handle st).
  { unfold stopTimerForRow. by destruct (rowTimers st0 !! rowId). }
  simpl. rewrite Hn. apply lookup_insert_eq.
Qed.


(** The reply [rp] settles the call [job] that waits for it, with [res]. *)
Definition settled_by (job : net) (rp : reply) (res : result) : Prop :=
  match job with
  | Fetch _ k =>
      match k rp with
      | Ret v => res = Fulfilled v
      | Throw => res = Rejected
      | _ => False
      end
  | _ => False
  end.

(** The first resolve answer is neither a success nor a [too_early] with
    [seconds_remaining > 0]. *)
Definition plain_failure (res : result) : Prop :=
  match res with
  | Fulfilled payload => is_ok payload = false ∧ is_too_early payload = false
  | Rejected => True
  end.

Section Flow.

Variable E : entropy.

(** A reply that settles a call runs the reaction of the call, then and
    there, and the call is no longer under way. *)
Lemma reply_settles i job react rp res now st :
  tasks st !! i = Some (job, react) → settled_by job rp res →
  step E (Reply i rp now) st
  = Some (exec E now (react res) (with_tasks (delete i (tasks st)) st)).
Proof.
  intros Hi Hset. cbn -[resume]. rewrite Hi. cbn -[resume].
  destruct job as [| | |rq k|]; try done. simpl in Hset. unfold resume.
  destruct (k rp) as [v| | | |]; try done; subst res; done.
Qed.

(** The reaction to a [too_early] answer with [seconds_remaining > 0] is
    the start of a countdown. *)
Lemma exec_too_early r key pid p v now st :
  too_early_with p v →
  exec E now (after_resolve r key pid (Fulfilled (Some p))) st
  = startMiniCountdown r key v (CallResolve pid (after_retry r)) now st.
Proof.
  intros (Hok & Hearly & Hsec)%too_early_tests.
  cbn [after_resolve]. by rewrite Hok, Hearly, Hsec.
Qed.

(** A tick redraws the row; at zero it clears its interval and runs the
    completion callback. *)
Lemma tick_splits h t now st :
  timers_ok st → intervals st !! h = Some t →
  let st1 := with_rows (alter (show_progress (t_total t) (seconds_left t now))
                          (t_row t) (rows st)) st in
  step E (Tick h now) st
  = Some (if le_zero (seconds_left t now)
          then exec E now (t_onDone t) (stopTimerForRow (t_key t) st1)
          else st1).
Proof.
  intros Hok Hh. cbn -[interval_callback]. rewrite Hh. cbn -[interval_callback].
  unfold interval_callback. destruct (le_zero (seconds_left t now)); [|done].
  set (st1 := with_rows _ st).
  assert (Hok1 : timers_ok st1) by (by eapply timers_ok_same; [|exact Hok]).
  by rewrite (completion_is_stop h t st1 Hok1 Hh).
Qed.

(** The countdown [h] of state [st], whose completion callback is the retry
    of the resolve call: a tick before the end sends nothing and leaves the
    calls and intervals as they are; the tick at the end sends one resolve
    request, registers its reaction, and removes the interval for good. *)
Definition counts_down_then_retries (st : state) (h : positive) (t : timer)
    (pid : string) (r : nat) : Prop :=
  ∀ now,
    (le_zero (seconds_left t now) = false →
     ∃ st', step E (Tick h now) st = Some st'
            ∧ sent st' = sent st ∧ tasks st' = tasks st
            ∧ intervals st' = intervals st)
    ∧ (le_zero (seconds_left t now) = true →
       ∃ st', step E (Tick h now) st = Some st'
              ∧ sent st'
                = sent st ++ [PostResolve pid (idempotencyKey E (length (keys st)) now)]
              ∧ (∃ job, tasks st' = <[next_task st := (job, after_retry r)]> (tasks st))
              ∧ intervals st' = delete h (intervals st)
              ∧ ∀ evs st'', run E evs st' = Some st'' → intervals st'' !! h = None).

Lemma counts_down_then_retries_holds st h t pid r :
  timers_ok st → intervals st !! h = Some t →
  t_onDone t = CallResolve pid (after_retry r) →
  counts_down_then_retries st h t pid r.
Proof.
  intros Hok Hh Hdone now.
  pose proof (tick_splits h t now st Hok Hh) as Hstep. cbv zeta in Hstep.
  split; intros Hle; rewrite Hle in Hstep.
  - eexists. split; [exact Hstep|]. done.
  - set (st1 := with_rows _ st) in Hstep.
    assert (Hok1 : timers_ok st1) by (by eapply timers_ok_same; [|exact Hok]).
    destruct (stopTimerForRow_spec (t_key t) st1 Hok1)
      as (Hok0 & _ & _ & Hprior & Hnext0 & _).
    destruct (stop_keeps (t_key t) st1) as (Ht0 & Hn0 & _ & Hs0 & _).
    assert (Hkey : rowTimers st1 !! t_key t = Some h)
      by (destruct Hok as (Hiv & _); by apply Hiv).
    assert (Hk0 : keys (stopTimerForRow (t_key t) st1) = keys st
                  ∧ intervals (stopTimerForRow (t_key t) st1) = delete h (intervals st)).
    { unfold stopTimerForRow. by rewrite Hkey. }
    destruct Hk0 as [Hk0 Hi0].
    set (st0 := stopTimerForRow (t_key t) st1) in *.
    rewrite Hdone in Hstep. eexists. split; [exact Hstep|].
    assert (Hfields :
      sent (exec E now (CallResolve pid (after_retry r)) st0)
      = sent st ++ [PostResolve pid (idempotencyKey E (length (keys st)) now)]
      ∧ (∃ job, tasks (exec E now (CallResolve pid (after_retry r)) st0)
                = <[next_task st := (job, after_retry r)]> (tasks st))
      ∧ intervals (exec E now (CallResolve pid (after_retry r)) st0)
        = delete h (intervals st)).
    { cbn [exec]. unfold spawn, apiResolve. cbn [apiResolve_fuel advance].
      cbn -[idempotencyKey]. rewrite Hk0, Hs0, Ht0, Hn0, Hi0.
      split; [done|]. split; [by eexists|done]. }
    destruct Hfields as (Hf1 & Hf2 & Hf3).
    split; [exact Hf1|]. split; [exact Hf2|]. split; [exact Hf3|].
    intros evs st'' Hrun.
    assert (Hret : retired h st0).
    { split; [by apply Hprior|]. rewrite Hnext0.
      destruct Hok as (_ & _ & Hfresh). by eapply Hfresh. }
    pose proof (exec_grows E (CallResolve pid (after_retry r)) now _ Hok0) as Hg.
    apply (retired_grows h _ _ Hg) in Hret. destruct Hg as (Hok4 & _).
    by destruct (retired_grows h _ _ (run_grows E evs _ _ Hok4 Hrun) Hret).
Qed.

Lemma after_retry_is_final r res now st :
  sent (exec E now (after_retry r res) st) = sent st
  ∧ tasks (exec E now (after_retry r res) st) = tasks st
  ∧ intervals (exec E now (after_retry r res) st) = intervals st.
Proof. destruct res as [p2|]; simpl; [|done]. by destruct (is_ok p2). Qed.



(** ** Fallback after a failed priming call *)

(** A click on the resolve button of row [r] sends the priming request and
    registers [after_remaining] as its reaction. *)
Lemma click_primes r rw now st :
  rows st !! r = Some rw →
  ∃ st', step E (ClickResolve r now) st = Some st'
         ∧ sent st' = sent st ++ [GetRemaining (data_port_id rw)]
         ∧ tasks st' !! next_task st
           = Some (apiRemaining (data_port_id rw),
                   after_remaining r (row_key rw) (data_port_id rw)).
Proof.
  intros Hr. cbn -[exec handleResolve]. rewrite Hr. cbn -[exec handleResolve].
  eexists. split; [reflexivity|].
  destruct (stop_keeps (row_key rw) st) as (Ht & Hn & _ & Hs & _).
  unfold handleResolve. cbn [exec]. unfold spawn, apiRemaining. cbn [advance].
  cbn -[stopTimerForRow]. rewrite Hs, Hn. split; [done|]. apply lookup_insert_eq.
Qed.

(** C10, as amended.  The priming call of a click on row [r] is under way
    (a click registers it).  It is rejected when [fetch] rejects and when the
    status is not OK.  The callback of such an answer does not stop the
    flow: it makes one resolve call, one request, and touches neither the
    rows nor the timers.  The reaction to that call finalizes the row on a
    success; on a [too_early] answer with [seconds_remaining > 0] it starts
    a countdown with the value of [seconds_remaining] (of
    [Math.max(0, parseInt(seconds_remaining || 0, 10))] seconds), and the
    tick at the end of that countdown makes exactly one retry, whose
    reaction ends the flow; on every other answer, a rejection and a
    [too_early] answer without a positive [seconds_remaining] included, it
    only hides the mini indicator, which changes neither the status cell
    nor the actions of the row. *)
Theorem failed_priming_falls_back evs table st i rp now r rw :
  let pid := data_port_id rw in
  let key := row_key rw in
  run E evs (initial table) = Some st →
  tasks st !! i = Some (apiRemaining pid, after_remaining r key pid) →
  (rp = NetErr ∨ ∃ status body, rp = Http status body ∧ r_ok status = false) →
  (∀ st' now', rows st' !! r = Some rw →
     ∃ st'', step E (ClickResolve r now') st' = Some st''
             ∧ sent st'' = sent st' ++ [GetRemaining pid]
             ∧ tasks st'' !! next_task st'
               = Some (apiRemaining pid, after_remaining r key pid))
  ∧ (∀ gen n replies,
       (drive (apiRemaining pid) gen n (rp :: replies)).2 = Some Rejected)
  ∧ (∃ st1,
       step E (Reply i rp now) st = Some st1
       ∧ sent st1
         = sent st ++ [PostResolve pid (idempotencyKey E (length (keys st)) now)]
       ∧ (∃ job, tasks st1
                 = <[next_task st := (job, after_resolve r key pid)]>
                     (delete i (tasks st)))
       ∧ rows st1 = rows st ∧ intervals st1 = intervals st
       ∧ rowTimers st1 = rowTimers st)
  ∧ (∀ now' st',
       (∀ payload, is_ok payload = true →
          exec E now' (after_resolve r key pid (Fulfilled payload)) st'
          = finalizeResolve r payload st')
       ∧ (∀ p v, too_early_with p v →
            exec E now' (after_resolve r key pid (Fulfilled (Some p))) st'
            = startMiniCountdown r key v (CallResolve pid (after_retry r)) now' st')
       ∧ (∀ res, plain_failure res →
            exec E now' (after_resolve r key pid res) st' = hideMini r st'))
  ∧ (∀ evs2 table2 st2 h t,
       run E evs2 (initial table2) = Some st2 → intervals st2 !! h = Some t →
       t_onDone t = CallResolve pid (after_retry r) →
       counts_down_then_retries st2 h t pid r)
  ∧ (∀ res now' st',
       sent (exec E now' (after_retry r res) st') = sent st'
       ∧ tasks (exec E now' (after_retry r res) st') = tasks st'
       ∧ intervals (exec E now' (after_retry r res) st') = intervals st')
  ∧ (∀ st' rw0, rows st' !! r = Some rw0 →
       ∃ rw1, rows (hideMini r st') !! r = Some rw1
              ∧ td_status rw1 = td_status rw0 ∧ txt rw1 = txt rw0
              ∧ actions_cleared rw1 = actions_cleared rw0).
Proof.
  intros pid key Hrun Htask Hfail.
  assert (Hset : settled_by (apiRemaining pid) rp Rejected).
  { destruct Hfail as [-> | (status & body & -> & Hok)]; simpl; [done|].
    by rewrite Hok. }
  split; [intros st' now' Hr; by apply click_primes|].
  split; [|split; [|split; [|split; [|split]]]].
  - intros gen n replies.
    destruct Hfail as [-> | (status & body & -> & Hok)]; simpl; [done|].
    by rewrite Hok.
  - rewrite (reply_settles i _ _ rp _ now st Htask Hset).
    eexists. split; [reflexivity|]. cbn [after_remaining exec].
    unfold spawn, apiResolve. cbn [apiResolve_fuel advance].
    cbn -[idempotencyKey]. split; [done|]. split; [by eexists|]. done.
  - intros now' st'. split; [|split].
    + intros payload Hok. cbn [after_resolve]. by rewrite Hok.
    + intros p v Hearly. by apply exec_too_early.
    + intros [payload|]; [|done]. intros [Hok Hearly].
      cbn [after_resolve]. by rewrite Hok, Hearly.
  - intros evs2 table2 st2 h t Hrun2 Hh Hdone.
    destruct (run_grows E evs2 _ _ (timers_ok_initial table2) Hrun2) as (Hok2 & _).
    by apply counts_down_then_retries_holds.
  - intros res now' st'. apply after_retry_is_final.
  - intros st' rw0 Hr.
    destruct (hideMini_row r st' rw0 Hr) as (rw1 & Hrw1 & _ & Hs & Ht & _ & Ha).
    by exists rw1.
Qed.

End Flow.

End Browser.

(** ** A page with one discovered row *)

(** A browser for the examples: a string of decimal digits is read as that
    number by [Number] and by [parseInt], every other string as [NaN]; a
    number spelled with an exponent is read by the first digit of its value.
    The examples send plainly spelled numbers only. *)
Fixpoint digits_value (s : string) (acc : Z) : option Z :=
  match s with
  | EmptyString => Some acc
  | String c s' =>
      let d := Z.of_N (Ascii.N_of_ascii c) - 48 in
      if (0 <=? d) && (d <=? 9) then digits_value s' (10 * acc + d) else None
  end.

Definition read_digits (s : string) : option Z :=
  if bool_decide (s = "") then None else digits_value s 0.

Fixpoint first_digit (fuel : nat) (m : Q) : Z :=
  match fuel with
  | O => 0
  | S fuel' =>
      if Qle_bool 10 m then first_digit fuel' (m / 10)%Q
      else if Qle_bool 1 m then Qfloor m
      else first_digit fuel' (m * 10)%Q
  end.

Definition decimal_browser : conversions :=
  {| string_gt_zero := λ s,
       match read_digits s with Some n => 0 <? n | None => false end;
     parseInt_string := λ s,
       match read_digits s with Some n => Int n | None => NaN end;
     parseInt_exponent := λ q,
       let fuel := S (Z.to_nat (Z.log2 (Z.abs (Qnum q)) + Z.log2 (Z.pos (Qden q)))) in
       if Qle_bool 0 q then Int (first_digit fuel q)
       else Int (- first_digit fuel (- q)%Q) |}.

Section Examples.

#[local] Existing Instance decimal_browser.

Definition early_body (v : jsval) : json :=
  {| ok := false; error := Some "too_early"; seconds_remaining := Some v;
     remaining := None; tables := false; content := 0 |}.

Definition ok_body : json :=
  {| ok := true; error := None; seconds_remaining := None; remaining := None;
     tables := true; content := 1 |}.

Definition no_wait : json :=
  {| ok := true; error := None; seconds_remaining := None;
     remaining := Some (JNum 0); tables := false; content := 0 |}.

Definition discovered_row (id : string) : row :=
  {| data_row_id := id; data_port_id := id; mini_hidden := Some true;
     fill := Some (Pct 0); txt := Some Placeholder; td_status := Some Discovered;
     actions_cleared := Some false |}.

(** A browser with [crypto.randomUUID], whose values are pairwise distinct. *)
Definition uuid_source : entropy :=
  {| has_randomUUID := true; randomUUID := λ n, "uuid-" +:+ pretty n;
     random_hex := λ _, "" |}.

Lemma uuid_source_never_repeats : never_repeats uuid_source.
Proof.
  intros i j now now' Hne Heq. unfold idempotencyKey in Heq. simpl in Heq.
  apply Hne. by apply (inj pretty), (inj (String.app "uuid-")).
Qed.

Definition one_row : gmap nat row := {[ 0%nat := discovered_row "17" ]}.

(** The row is clicked; the priming call answers 0 s; the resolve call meets
    a 409, is retried after the pause and answered [too_early], 2 s; the
    countdown ticks at 0.3 s and, after a stall of the page, at 2.0 s; the
    retried resolve succeeds. *)
Definition busy_click : list event :=
  [ClickResolve 0 1000;
   Reply 0 (Http 200 (Some (Some no_wait))) 1100;
   Reply 1 (Http 409 None) 1200;
   Wake 1 1350;
   Reply 1 (Http 200 (Some (Some (early_body (JNum 2))))) 1400;
   Tick 1 1700;
   Tick 1 3400;
   Reply 2 (Http 200 (Some (Some ok_body))) 3500].

Example busy_click_ends_resolved :
  (λ st, (sent st, td_status <$> rows st !! 0%nat, map_to_list (rowTimers st)))
    <$> run uuid_source busy_click (initial one_row)
  = Some ([GetRemaining "17"; PostResolve "17" "uuid-0";
           PostResolve "17" "uuid-1"; PostResolve "17" "uuid-2"],
          Some (Some Resolved), []).
Proof. vm_compute. reflexivity. Qed.

(** While the countdown runs: the first tick shows 2 s left. *)
Example busy_click_counting :
  (λ st, (txt <$> rows st !! 0%nat, map_to_list (rowTimers st),
          t_total <$> intervals st !! 1%positive))
    <$> run uuid_source (take 6 busy_click) (initial one_row)
  = Some (Some (Some (Hourglass (JNum 2))), [("17", 1%positive)], Some (Int 2)).
Proof. vm_compute. reflexivity. Qed.




(** C10 as it was stated fails: a [too_early] answer whose
    [seconds_remaining] is zero (or absent) is not followed by a countdown
    and a retry; the flow ends by hiding the mini indicator. *)
Lemma fallback_too_early_without_seconds :
  play (handleResolve 0 (discovered_row "17"))
       [Rejected; Fulfilled (Some (early_body (JNum 0))); Fulfilled (Some ok_body)]
  = [AStopTimer "17"; ARemaining "17"; AResolve "17"; AHideMini 0]
  ∧ sent <$> run uuid_source
               [ClickResolve 0 1000; Reply 0 (Http 404 None) 1100;
                Reply 1 (Http 200 (Some (Some (early_body (JNum 0))))) 1200]
               (initial one_row)
    = Some [GetRemaining "17"; PostResolve "17" "uuid-0"]
  ∧ (λ st, map_to_list (intervals st))
      <$> run uuid_source
            [ClickResolve 0 1000; Reply 0 (Http 404 None) 1100;
             Reply 1 (Http 200 (Some (Some (early_body (JNum 0))))) 1200]
            (initial one_row)
    = Some []
  ∧ ¬ (∀ p : json,
         ok p = false → error p = Some "too_early" →
         ∃ v, play (handleResolve 0 (discovered_row "17"))
                   [Rejected; Fulfilled (Some p); Fulfilled (Some ok_body)]
              = [AStopTimer "17"; ARemaining "17"; AResolve "17";
                 ACountdown 0 "17" v; AResolve "17";
                 AFinalizeResolve 0 (Some ok_body)]).
Proof.
  split; [reflexivity|]. split; [vm_compute; reflexivity|].
  split; [vm_compute; reflexivity|].
  intros H. destruct (H (early_body (JNum 0)) eq_refl eq_refl) as [v Hv].
  vm_compute in Hv. discriminate Hv.
Qed.

(** The priming call fails with a 404; the single resolve attempt is
    answered [too_early], 2 s; the tick at the end of the countdown retries. *)
Definition unprimed_click : list event :=
  [ClickResolve 0 1000;
   Reply 0 (Http 404 None) 1100;
   Reply 1 (Http 200 (Some (Some (early_body (JNum 2))))) 1200;
   Tick 1 3200].

Lemma failed_priming_falls_back_witness :
  ∃ st,
    run uuid_source (take 1 unprimed_click) (initial one_row) = Some st
    ∧ ∃ st1,
        step uuid_source (Reply 0 (Http 404 None) 1100) st = Some st1
        ∧ sent st1
          = sent st ++ [PostResolve "17"
                          (idempotencyKey uuid_source (length (keys st)) 1100)]
        ∧ intervals st1 = intervals st.
Proof.
  eexists. split; [reflexivity|].
  lazymatch goal with
  | |- ∃ st1, step _ _ ?s = _ ∧ _ => set (st := s)
  end.
  assert (Hrun : run uuid_source (take 1 unprimed_click) (initial one_row) = Some st)
    by reflexivity.
  assert (Htask : tasks st !! 0%nat
                  = Some (apiRemaining "17", after_remaining 0 "17" "17"))
    by reflexivity.
  assert (Hfail : Http 404 None = NetErr
                  ∨ ∃ status body, Http 404 None = Http status body
                                   ∧ r_ok status = false)
    by (right; by exists 404, None).
  clearbody st.
  destruct (failed_priming_falls_back (B := decimal_browser) uuid_source
              (take 1 unprimed_click) one_row st 0%nat (Http 404 None) 1100
              0%nat (discovered_row "17") Hrun Htask Hfail)
    as (_ & _ & (st1 & Hstep & Hsent & _ & _ & Hiv & _) & _).
  exists st1. split; [exact Hstep|]. split; [exact Hsent|exact Hiv].
Defined.

Example unprimed_click_retries :
  sent <$> run uuid_source unprimed_click (initial one_row)
  = Some [GetRemaining "17"; PostResolve "17" "uuid-0"; PostResolve "17" "uuid-1"].
Proof. vm_compute. reflexivity. Qed.

Lemma fresh_key_per_request_witness :
  ∃ st, run uuid_source busy_click (initial one_row) = Some st
        ∧ resolve_keys (sent st) = ["uuid-0"; "uuid-1"; "uuid-2"]
        ∧ NoDup (resolve_keys (sent st)).
Proof.
  eexists. split; [vm_compute; reflexivity|]. split; [reflexivity|].
  refine (proj2 (proj2 (proj2
    (fresh_key_per_request (B := decimal_browser) uuid_source busy_click one_row _ _))) _).
  - vm_compute. reflexivity.
  - exact uuid_source_never_repeats.
Defined.

Lemma one_timer_per_row_witness :
  ∃ st, run uuid_source (take 6 busy_click) (initial one_row) = Some st
        ∧ ∀ k h, rowTimers st !! k = Some h
                 ↔ ∃ t, intervals st !! h = Some t ∧ t_key t = k.
Proof.
  eexists. split; [vm_compute; reflexivity|].
  refine (proj1 (proj2
    (one_timer_per_row (B := decimal_browser) uuid_source (take 6 busy_click) one_row _ _))).
  vm_compute. reflexivity.
Defined.


End Examples.

End Resolve.

(* ===================================================================== *)
(** * News-search job poller (static/js/news_search.js)                   *)
(* ===================================================================== *)
Module News.

(** [job.status]: ['in_progress'], ['completed'], or anything else. *)
Inductive jstatus := InProgress | Completed | OtherStatus.

(** [job.result], as far as the rendering reads it. *)
Record outcome := {
  has_hit : bool;
  has_hit_display : bool     (* is result.hit_display present? *)
}.

(** A job as sent by the backend.  Timestamps are given by what [Date.parse]
    makes of them, in milliseconds; [None] is [NaN]. *)
Record job := {
  status : jstatus;
  started_at : option Z;         (* Date.parse(job.started_at || '') *)
  eta : option (option Z);       (* None: job.eta is falsy; else Date.parse(job.eta) *)
  duration_sec : Q;              (* job.duration_sec || 0 *)
  result : option outcome
}.

(** [style.width] of the progress fill: a whole percentage (['0%'], ['3%'],
    ['100%']) or the output of [toFixed(2)], in hundredths of a percent. *)
Inductive width :=
  | Whole (percent : Z)
  | Fixed2 (hundredths : Z).

(** Text of the timer line. *)
Inductive timer_text :=
  | Blank
  | Finalizing                      (* remaining time exhausted *)
  | MinSec (minutes seconds : Z)
  | Sec (seconds : Z)
  | SearchDone.                     (* "search completed." *)

Inductive pill := Idle | Running | DoneHit | DoneNoHit.

Inductive btn_label := RunSearch | Working | NewRun.

(** The module's variables and the elements it found under
    [#news-search-module] ([None]: no such element).  The preview line and
    the body texts of the result panel hold no state of the protocol and are
    left out. *)
Record page := {
  current : option job;               (* let job *)
  tickTimer : bool;                   (* is the 1 s interval running? *)
  pollTimer : option Z;               (* delay of the pending status poll *)
  btn : option (bool * btn_label);    (* disabled, label *)
  progressWrap : option bool;         (* hidden *)
  progressFill : option width;
  timerEl : option timer_text;
  resultBox : option bool;            (* hidden *)
  resultTitle : option bool;          (* the title announces a hit *)
  clearBtn : option bool;             (* hidden *)
  statusPill : option pill
}.

Definition set_if {A} (el : option A) (x : A) : option A :=
  match el with Some _ => Some x | None => None end.

(** [scheduleStatusFetch(delayMs)] *)
Definition scheduleStatusFetch (delayMs : Z) (p : page) : page :=
  {| current := current p; tickTimer := tickTimer p;
     pollTimer := Some (if delayMs =? 0 then 30000 else delayMs);
     btn := btn p; progressWrap := progressWrap p; progressFill := progressFill p;
     timerEl := timerEl p; resultBox := resultBox p; resultTitle := resultTitle p;
     clearBtn := clearBtn p; statusPill := statusPill p |}.

(** [resetUI()] *)
Definition resetUI (p : page) : page :=
  {| current := current p; tickTimer := tickTimer p; pollTimer := pollTimer p;
     btn := set_if (btn p) (false, RunSearch);
     progressWrap := set_if (progressWrap p) true;
     progressFill := set_if (progressFill p) (Whole 0);
     timerEl := set_if (timerEl p) Blank;
     resultBox := set_if (resultBox p) true;
     resultTitle := resultTitle p; clearBtn := clearBtn p;
     statusPill := set_if (statusPill p) Idle |}.

(** [showResult(result)] *)
Definition showResult (r : option outcome) (p : page) : page :=
  match resultBox p with
  | None => p
  | Some _ =>
      {| current := current p; tickTimer := tickTimer p; pollTimer := pollTimer p;
         btn := btn p; progressWrap := progressWrap p;
         progressFill := progressFill p; timerEl := timerEl p;
         resultBox := Some false;
         resultTitle := set_if (resultTitle p)
                          (match r with Some o => has_hit o | None => false end);
         clearBtn := set_if (clearBtn p) false;
         statusPill := statusPill p |}
  end.

(** The end of the job: [job.eta ? Date.parse(job.eta)
    : started + (job.duration_sec || 0) * 1000]. *)
Definition eta_ms (j : job) : option Q :=
  match eta j with
  | Some parsed => inject_Z <$> parsed
  | None => (λ s, inject_Z s + duration_sec j * 1000)%Q <$> started_at j
  end.

(** [Math.min(0.99, Math.max(0, (now - started) / (eta - started)))] *)
Definition progress_fraction (now started : Z) (e : Q) : Q :=
  Qmin (99 # 100) (Qmax 0 (inject_Z (now - started) / (e - inject_Z started))).

(** [x.toFixed(2)], as a number of hundredths (round to nearest). *)
Definition toFixed2 (x : Q) : Z := Qfloor (x * 100 + (1 # 2))%Q.

(** [formatRemaining(totalSeconds)] *)
Definition formatRemaining (totalSeconds : Z) : timer_text :=
  if totalSeconds <=? 0 then Finalizing
  else
    let minutes := totalSeconds / 60 in
    let seconds := totalSeconds mod 60 in
    if 0 <? minutes then MinSec minutes seconds else Sec seconds.

(** [Math.ceil(Math.max(0, eta - now) / 1000)] *)
Definition remaining_sec (now : Z) (e : Q) : Z :=
  Qceiling (Qmax 0 (e - inject_Z now) / 1000).

(** [updateProgressUI()] at clock reading [now]. *)
Definition updateProgressUI (now : Z) (p : page) : page :=
  match current p with
  | Some j =>
      match status j, started_at j, eta_ms j with
      | InProgress, Some started, Some e =>
          if Qlt_le_dec (inject_Z started) e then
            let progress := progress_fraction now started e in
            let remainingSec := remaining_sec now e in
            let p1 :=
              {| current := current p; tickTimer := tickTimer p;
                 pollTimer := pollTimer p; btn := btn p;
                 progressWrap := progressWrap p;
                 progressFill := set_if (progressFill p)
                                   (Fixed2 (toFixed2 (progress * 100)));
                 timerEl := set_if (timerEl p) (formatRemaining remainingSec);
                 resultBox := resultBox p; resultTitle := resultTitle p;
                 clearBtn := clearBtn p; statusPill := statusPill p |} in
            if remainingSec <=? 1 then scheduleStatusFetch 1500 p1 else p1
          else p
      | _, _, _ => p
      end
  | None => p
  end.

(** [renderJob(newJob)] at clock reading [now]. *)
Definition renderJob (newJob : option job) (now : Z) (p : page) : page :=
  let p0 :=
    {| current := newJob; tickTimer := false; pollTimer := pollTimer p;
       btn := btn p; progressWrap := progressWrap p;
       progressFill := progressFill p; timerEl := timerEl p;
       resultBox := resultBox p; resultTitle := resultTitle p;
       clearBtn := clearBtn p; statusPill := statusPill p |} in
  match newJob with
  | None => resetUI p0
  | Some j =>
      match status j with
      | InProgress =>
          let p1 :=
            {| current := current p0; tickTimer := tickTimer p0;
               pollTimer := pollTimer p0;
               btn := set_if (btn p0) (true, Working);
               progressWrap := set_if (progressWrap p0) false;
               progressFill := progressFill p0; timerEl := timerEl p0;
               resultBox := set_if (resultBox p0) true;
               resultTitle := resultTitle p0; clearBtn := clearBtn p0;
               statusPill := set_if (statusPill p0) Running |} in
          let p2 := updateProgressUI now p1 in
          scheduleStatusFetch 30000
            {| current := current p2; tickTimer := true;
               pollTimer := pollTimer p2; btn := btn p2;
               progressWrap := progressWrap p2; progressFill := progressFill p2;
               timerEl := timerEl p2; resultBox := resultBox p2;
               resultTitle := resultTitle p2; clearBtn := clearBtn p2;
               statusPill := statusPill p2 |}
      | Completed =>
          let hit := match result j with Some o => has_hit o | None => false end in
          showResult (result j)
            {| current := current p0; tickTimer := tickTimer p0;
               pollTimer := pollTimer p0;
               btn := set_if (btn p0) (false, NewRun);
               progressWrap := set_if (progressWrap p0) false;
               progressFill := set_if (progressFill p0) (Whole 100);
               timerEl := set_if (timerEl p0) SearchDone;
               resultBox := resultBox p0; resultTitle := resultTitle p0;
               clearBtn := clearBtn p0;
               statusPill := set_if (statusPill p0) (if hit then DoneHit else DoneNoHit) |}
      | OtherStatus => resetUI p0
      end
  end.

(** The 1 s ticker firing at the clock readings [nows]. *)
Definition ticks (nows : list Z) (p : page) : page :=
  foldl (λ q now, updateProgressUI now q) p nows.

(** The bar shows one hundred percent. *)
Definition shows_full (w : width) : bool :=
  match w with
  | Whole n => 100 <=? n
  | Fixed2 h => 10000 <=? h
  end.

(** [started_at] and [eta] are valid and [eta > started_at]. *)
Definition timed (j : job) (started : Z) (e : Q) : Prop :=
  started_at j = Some started ∧ eta_ms j = Some e ∧ (inject_Z started < e)%Q.

(** ** The bar stays below 100% until the job is completed *)

Lemma progress_fraction_bounds now started e :
  (0 <= progress_fraction now started e <= 99 # 100)%Q.
Proof.
  unfold progress_fraction. split.
  - apply Q.min_glb; [done|apply Q.le_max_l].
  - apply Q.le_min_l.
Qed.

Lemma toFixed2_bounds q :
  (0 <= q <= 99 # 100)%Q → 0 <= toFixed2 (q * 100) <= 9900.
Proof.
  intros [Hlo Hhi]. unfold toFixed2. split.
  - change 0 with (Qfloor (inject_Z 0)). apply Qfloor_resp_le.
    change (inject_Z 0) with 0%Q. lra.
  - change 9900 with (Qfloor (19801 # 2)). apply Qfloor_resp_le. lra.
Qed.

Lemma set_if_set_if {A} (el : option A) (x y : A) :
  set_if (set_if el x) y = set_if el y.
Proof. by destruct el. Qed.

(** A tick on a running, well-timed job redraws the fill and the timer line
    and may re-arm the poll; nothing else changes. *)
Lemma updateProgressUI_running now p j started e :
  current p = Some j → status j = InProgress → timed j started e →
  current (updateProgressUI now p) = Some j
  ∧ progressFill (updateProgressUI now p)
    = set_if (progressFill p)
        (Fixed2 (toFixed2 (progress_fraction now started e * 100)))
  ∧ resultBox (updateProgressUI now p) = resultBox p
  ∧ tickTimer (updateProgressUI now p) = tickTimer p.
Proof.
  intros Hj Hst (Hs & He & Hlt). unfold updateProgressUI.
  rewrite Hj, Hst, Hs, He.
  destruct (Qlt_le_dec (inject_Z started) e) as [_|Hle]; [|lra].
  by destruct (remaining_sec now e <=? 1).
Qed.

(** A tick does nothing unless a job is in progress. *)
Lemma updateProgressUI_idle now p j :
  current p = Some j → status j ≠ InProgress → updateProgressUI now p = p.
Proof.
  intros Hj Hst. unfold updateProgressUI. rewrite Hj. by destruct (status j).
Qed.

Lemma ticks_idle nows : ∀ p j,
  current p = Some j → status j ≠ InProgress → ticks nows p = p.
Proof.
  induction nows as [|now nows IH]; intros p j Hj Hst; [done|].
  unfold ticks. simpl. rewrite (updateProgressUI_idle now p j Hj Hst).
  by apply (IH p j).
Qed.

Definition capped (fill0 : option width) (j : job) (p : page) : Prop :=
  current p = Some j
  ∧ ∃ h, progressFill p = set_if fill0 (Fixed2 h) ∧ 0 <= h <= 9900.

Lemma ticks_capped fill0 j started e nows : ∀ p,
  status j = InProgress → timed j started e →
  capped fill0 j p → capped fill0 j (ticks nows p).
Proof.
  induction nows as [|now nows IH]; intros p Hst Ht Hcap; [done|].
  unfold ticks. simpl. apply IH; try done.
  destruct Hcap as (Hj & h & Hfill & Hh).
  destruct (updateProgressUI_running now p j started e Hj Hst Ht)
    as (Hj' & Hfill' & _).
  split; [done|]. eexists. split.
  - rewrite Hfill', Hfill. apply set_if_set_if.
  - apply toFixed2_bounds, progress_fraction_bounds.
Qed.

(** C8.  For a job in progress whose [started_at] and [eta] are valid with
    [eta > started_at]: the interpolated fraction lies in [[0, 0.99]] at
    every clock reading; after the job is rendered and after any number of
    ticks, however late, the fill (when the element exists) is the
    [toFixed(2)] of at most 99.00, never 100%.  Rendering a completed job
    sets the fill to exactly ['100%'], shows the result box, stops the
    ticker, and later calls of the tick function leave the page as it is. *)
Theorem progress_capped_until_completed p j started e now nows :
  status j = InProgress → timed j started e →
  (∀ t, (0 <= progress_fraction t started e <= 99 # 100)%Q)
  ∧ (∃ h, progressFill (ticks nows (renderJob (Some j) now p))
          = set_if (progressFill p) (Fixed2 h)
          ∧ 0 <= h <= 9900)
  ∧ (∀ w, progressFill (ticks nows (renderJob (Some j) now p)) = Some w →
          shows_full w = false)
  ∧ (∀ q j' now',
       status j' = Completed →
       let q' := renderJob (Some j') now' q in
       progressFill q' = set_if (progressFill q) (Whole 100)
       ∧ resultBox q' = set_if (resultBox q) false
       ∧ tickTimer q' = false
       ∧ ∀ nows', ticks nows' q' = q').
Proof.
  intros Hst Ht.
  assert (Hcap : capped (progressFill p) j (ticks nows (renderJob (Some j) now p))).
  { apply (ticks_capped _ j started e); try done.
    unfold renderJob, capped. rewrite Hst. simpl.
    match goal with
    | |- context [updateProgressUI now ?q] =>
        destruct (updateProgressUI_running now q j started e eq_refl Hst Ht)
          as (Hj' & Hfill' & _)
    end.
    split; [done|]. eexists. split; [exact Hfill'|].
    apply toFixed2_bounds, progress_fraction_bounds. }
  split; [intros t; apply progress_fraction_bounds|].
  split; [by destruct Hcap as (_ & h & Hfill & Hh); exists h|].
  split.
  - intros w Hw. destruct Hcap as (_ & h & Hfill & Hh). rewrite Hfill in Hw.
    destruct (progressFill p); [|done]. injection Hw as <-. simpl. lia.
  - intros q j' now' Hst' q'. subst q'. unfold renderJob. rewrite Hst'.
    unfold showResult. simpl.
    destruct (resultBox q) eqn:Hbox; simpl; (split; [done|]);
      (split; [done|]); (split; [done|]); intros nows';
      by apply (ticks_idle nows' _ j'); [|rewrite Hst'].
Qed.

(** A job of 10 s started at clock reading 0: rendered at 5 s it shows
    50.00%; ticking on at 9.999 s, 12 s and 60 s it ends at 99.00%. *)
Definition ten_seconds : job :=
  {| status := InProgress; started_at := Some 0; eta := Some (Some 10000);
     duration_sec := 10; result := None |}.

Definition finished : job :=
  {| status := Completed; started_at := Some 0; eta := Some (Some 10000);
     duration_sec := 10;
     result := Some {| has_hit := true; has_hit_display := true |} |}.

Definition blank_page : page :=
  {| current := None; tickTimer := false; pollTimer := None;
     btn := Some (false, RunSearch); progressWrap := Some true;
     progressFill := Some (Whole 0); timerEl := Some Blank;
     resultBox := Some true; resultTitle := Some false; clearBtn := Some true;
     statusPill := Some Idle |}.

Example half_way :
  progressFill (renderJob (Some ten_seconds) 5000 blank_page) = Some (Fixed2 5000).
Proof. vm_compute. reflexivity. Qed.

Example overdue_stays_at_99 :
  progressFill (ticks [9999; 12000; 60000] (renderJob (Some ten_seconds) 5000 blank_page))
  = Some (Fixed2 9900).
Proof. vm_compute. reflexivity. Qed.

Example completed_is_full :
  (λ q, (progressFill q, resultBox q, tickTimer q))
    (renderJob (Some finished) 12500
       (ticks [9999; 12000] (renderJob (Some ten_seconds) 5000 blank_page)))
  = (Some (Whole 100), Some false, false).
Proof. vm_compute. reflexivity. Qed.

Lemma progress_capped_until_completed_witness :
  status ten_seconds = InProgress
  ∧ timed ten_seconds 0 10000
  ∧ ∀ w, progressFill (ticks [9999; 12000; 60000]
                         (renderJob (Some ten_seconds) 5000 blank_page)) = Some w →
         shows_full w = false.
Proof.
  assert (Ht : timed ten_seconds 0 10000) by (repeat split; reflexivity).
  split; [reflexivity|]. split; [exact Ht|].
  exact (proj1 (proj2 (proj2
    (progress_capped_until_completed blank_page ten_seconds 0 10000 5000
       [9999; 12000; 60000] eq_refl Ht)))).
Defined.

End News.


(* ===================================================================== *)
(** * Withdrawal form (static/js/user_dashboard.js, attachWithdrawHandler) *)
(* ===================================================================== *)
Module Withdraw.

(** A JavaScript number: a finite value (the exact value of the double) or
    one of the three non-finite ones. *)
Inductive jsnum :=
  | Fin (q : Q)
  | NaN
  | PosInf
  | NegInf.

(** [isFinite(x)] *)
Definition isFinite (x : jsnum) : bool :=
  match x with Fin _ => true | _ => false end.

(** [x <= 0] ([NaN] compares false) *)
Definition le_zero (x : jsnum) : bool :=
  match x with
  | Fin q => Qle_bool q 0
  | NegInf => true
  | NaN | PosInf => false
  end.

(** The value serialized by [JSON.stringify] for a finite number. *)
Definition value_of (x : jsnum) : Q :=
  match x with Fin q => q | _ => 0 end.

(** [String.prototype.trim], for the ASCII white space. *)
Fixpoint drop_spaces (s : string) : string :=
  match s with
  | String c rest => if Ascii.is_space c then drop_spaces rest else s
  | EmptyString => EmptyString
  end.

Definition trim (s : string) : string :=
  String.rev (drop_spaces (String.rev (drop_spaces s))).

(** Amounts of money are shown with [toFixed(2)]: hundredths, rounded to
    nearest, halves away from zero. *)
Definition toFixed2 (q : Q) : Z :=
  if Qle_bool 0 q then Qfloor (q * 100 + (1 # 2))%Q
  else - Qfloor (- q * 100 + (1 # 2))%Q.

(** [formatReward(v)] for a number [v]. *)
Definition formatReward (q : Q) : Z := toFixed2 q.

Record wallet := {
  w_available_balance : Q;
  w_total_earned : Q
}.

Record summary := {
  s_pending_total : Q;
  s_pending_count : Z;
  s_recent : list Q           (* amounts of the recent requests *)
}.

(** The JSON body of the withdraw endpoint. *)
Record body := {
  ok : bool;
  wallet_of : option wallet;
  counts : option (Z * Z);          (* discovered, resolved *)
  withdrawals : option summary
}.

(** The outcome of [fetch(...).then(r => r.json().then(...))]: a status with
    a parsed body ([Some None]: the JSON value [null]; [None]: not JSON), or
    a rejected [fetch]. *)
Inductive reply :=
  | Http (status : Z) (json : option (option body))
  | NetErr.

(** The elements the handler and the updaters touch; [None]: no such
    element.  Texts of money are in hundredths. *)
Record page := {
  amountInput : option string;        (* value of input[name=amount_sar] *)
  btn : option bool;                  (* submit button disabled *)
  available_balance : option Z;       (* #available-balance *)
  total_earned : option Z;            (* #total-earned *)
  hdr_counts : option (option (Z * Z)); (* #hdr-counts, None inside: as served *)
  pending_total : option Z;           (* [data-withdraw-pending-total] *)
  pending_count : option Z;           (* [data-withdraw-pending-count] *)
  history : option (list Z);          (* [data-withdraw-history] items *)
  posts : list Q                      (* amount_sar of the POSTs sent, oldest first *)
}.

Definition set_if {A} (el : option A) (x : A) : option A :=
  match el with Some _ => Some x | None => None end.

Section Handler.

(** [Number(string)] of the browser. *)
Variable Number : string → jsnum.

(** The submit listener, up to and including the call of [fetch]. *)
Definition submit (p : page) : page :=
  match amountInput p with
  | None => p
  | Some value =>
      let raw := trim value in
      let amt := Number raw in
      if negb (isFinite amt) || le_zero amt then p
      else
        {| amountInput := amountInput p; btn := set_if (btn p) true;
           available_balance := available_balance p;
           total_earned := total_earned p; hdr_counts := hdr_counts p;
           pending_total := pending_total p; pending_count := pending_count p;
           history := history p; posts := posts p ++ [value_of amt] |}
  end.

End Handler.

(** [VM.updateCountsWallet(payload)] *)
Definition updateCountsWallet (b : body) (p : page) : page :=
  {| amountInput := amountInput p; btn := btn p;
     available_balance :=
       match wallet_of b with
       | Some w => set_if (available_balance p) (formatReward (w_available_balance w))
       | None => available_balance p
       end;
     total_earned :=
       match wallet_of b with
       | Some w => set_if (total_earned p) (formatReward (w_total_earned w))
       | None => total_earned p
       end;
     hdr_counts :=
       match counts b with
       | Some c => set_if (hdr_counts p) (Some c)
       | None => hdr_counts p
       end;
     pending_total := pending_total p; pending_count := pending_count p;
     history := history p; posts := posts p |}.

(** [VM.updateWithdrawals(summary)] *)
Definition updateWithdrawals (s : summary) (p : page) : page :=
  {| amountInput := amountInput p; btn := btn p;
     available_balance := available_balance p; total_earned := total_earned p;
     hdr_counts := hdr_counts p;
     pending_total := set_if (pending_total p) (formatReward (s_pending_total s));
     pending_count := set_if (pending_count p) (s_pending_count s);
     history := set_if (history p) (formatReward <$> s_recent s);
     posts := posts p |}.

(** The reactions to the response: the [then] callback on success, nothing
    on anything else, and the [finally] callback. *)
Definition respond (r : reply) (p : page) : page :=
  let p1 :=
    match r with
    | Http status (Some (Some b)) =>
        if (status =? 200) && ok b then
          let p2 := match wallet_of b with
                    | Some _ => updateCountsWallet b p
                    | None => p
                    end in
          let p3 := match withdrawals b with
                    | Some s => updateWithdrawals s p2
                    | None => p2
                    end in
          {| amountInput := set_if (amountInput p3) ""; btn := btn p3;
             available_balance := available_balance p3;
             total_earned := total_earned p3; hdr_counts := hdr_counts p3;
             pending_total := pending_total p3; pending_count := pending_count p3;
             history := history p3; posts := posts p3 |}
        else p
    | _ => p
    end in
  {| amountInput := amountInput p1; btn := set_if (btn p1) false;
     available_balance := available_balance p1; total_earned := total_earned p1;
     hdr_counts := hdr_counts p1; pending_total := pending_total p1;
     pending_count := pending_count p1; history := history p1;
     posts := posts p1 |}.

(** [Number] on plain decimal spellings: white space around an optional
    sign, then [Infinity] or digits with an optional fraction; the empty
    string is 0.  Exponents and radix prefixes are not read here (they come
    out as [NaN]); the theorems below hold for every [Number], this one
    serves the examples. *)
Fixpoint read_digits (s : string) (acc : Z) (count : nat) : Z * nat * string :=
  match s with
  | String c rest =>
      match Ascii.is_nat c with
      | Some d => read_digits rest (acc * 10 + Z.of_nat d) (S count)
      | None => (acc, count, s)
      end
  | EmptyString => (acc, count, EmptyString)
  end.

Definition unsigned_decimal (s : string) : option Q :=
  let '(i, ni, rest) := read_digits s 0 0 in
  match rest with
  | EmptyString => if (ni =? 0)%nat then None else Some (inject_Z i)
  | String "."%char rest' =>
      let '(fr, nf, rest'') := read_digits rest' 0 0 in
      if bool_decide (rest'' = EmptyString) && negb ((ni + nf =? 0)%nat) then
        Some (Qred (Qmake (i * 10 ^ Z.of_nat nf + fr) (Z.to_pos (10 ^ Z.of_nat nf))))
      else None
  | _ => None
  end.

Definition NumberDecimal (s : string) : jsnum :=
  let t := trim s in
  if bool_decide (t = EmptyString) then Fin 0
  else
    let '(negative, digits) :=
      match t with
      | String "-"%char rest => (true, rest)
      | String "+"%char rest => (false, rest)
      | _ => (false, t)
      end in
    if bool_decide (digits = "Infinity") then (if negative then NegInf else PosInf)
    else
      match unsigned_decimal digits with
      | Some q => Fin (if negative then - q else q)%Q
      | None => NaN
      end.

(** ** Validation, the single POST, and the success reaction *)

(** C9, as amended.  A submission whose amount parses to a non-finite or
    non-positive number leaves the page as it is and sends nothing.  A
    submission whose amount parses to a finite positive number [q] sends
    exactly one POST, with [amount_sar = q], and disables the button.  On a
    response with status 200 and [ok: true] the input is cleared, no request
    is sent, and the balance shown becomes the formatted
    [wallet.available_balance] of the response when the response carries a
    [wallet]; without one the balance shown stays as it was. *)
Theorem withdraw_submission Number p value :
  amountInput p = Some value →
  let amt := Number (trim value) in
  (isFinite amt = false ∨ le_zero amt = true → submit Number p = p)
  ∧ (∀ q, amt = Fin q → (0 < q)%Q →
       posts (submit Number p) = posts p ++ [q]
       ∧ btn (submit Number p) = set_if (btn p) true
       ∧ amountInput (submit Number p) = amountInput p
       ∧ available_balance (submit Number p) = available_balance p)
  ∧ (∀ b, ok b = true →
       let p' := respond (Http 200 (Some (Some b))) p in
       amountInput p' = Some ""
       ∧ posts p' = posts p
       ∧ btn p' = set_if (btn p) false
       ∧ (∀ w, wallet_of b = Some w →
            available_balance p'
            = set_if (available_balance p) (formatReward (w_available_balance w)))
       ∧ (wallet_of b = None → available_balance p' = available_balance p)).
Proof.
  intros Hin amt. split; [|split].
  - intros Hbad. unfold submit. rewrite Hin. fold amt.
    by destruct Hbad as [-> | ->]; [|rewrite orb_true_r].
  - intros q Hq Hpos. unfold submit. rewrite Hin. fold amt. rewrite Hq. simpl.
    assert (Qle_bool q 0 = false) as ->.
    { destruct (Qle_bool q 0) eqn:Hle; [|done].
      apply Qle_bool_iff in Hle. lra. }
    done.
  - intros b Hok p'. subst p'. unfold respond. rewrite Hok. simpl.
    destruct (wallet_of b) as [w|] eqn:Hw, (withdrawals b) as [s|]; simpl;
      rewrite ?Hw, ?Hin; simpl; repeat split; try done;
      intros w' [= <-]; done.
Qed.

(** The page of a user with a balance of 10.00 and 25.50 typed in. *)
Definition typed (value : string) : page :=
  {| amountInput := Some value; btn := Some false;
     available_balance := Some 1000; total_earned := Some 4000;
     hdr_counts := Some None; pending_total := Some 0; pending_count := Some 0;
     history := Some []; posts := [] |}.

Definition paid : body :=
  {| ok := true;
     wallet_of := Some {| w_available_balance := 0; w_total_earned := 40 |};
     counts := None;
     withdrawals := Some {| s_pending_total := 10; s_pending_count := 1;
                            s_recent := [10%Q] |} |}.

Example zero_and_negative_send_nothing :
  posts (submit NumberDecimal (typed "0")) = []
  ∧ posts (submit NumberDecimal (typed "-5")) = []
  ∧ posts (submit NumberDecimal (typed "")) = []
  ∧ posts (submit NumberDecimal (typed "ten")) = []
  ∧ posts (submit NumberDecimal (typed "Infinity")) = [].
Proof. repeat split; vm_compute; reflexivity. Qed.

Example twenty_five_fifty_sends_one :
  posts (submit NumberDecimal (typed "25.50")) = [51 # 2].
Proof. vm_compute. reflexivity. Qed.

Example success_clears_and_updates :
  (λ p, (amountInput p, available_balance p, btn p, pending_count p))
    (respond (Http 200 (Some (Some paid))) (submit NumberDecimal (typed "10")))
  = (Some "", Some 0, Some false, Some 1).
Proof. vm_compute. reflexivity. Qed.

Lemma withdraw_submission_witness :
  amountInput (typed "25.50") = Some "25.50"
  ∧ posts (submit NumberDecimal (typed "25.50")) = posts (typed "25.50") ++ [51 # 2].
Proof.
  split; [reflexivity|].
  refine (proj1 (proj1 (proj2
    (withdraw_submission NumberDecimal (typed "25.50") "25.50" eq_refl))
    (51 # 2) _ _)).
  - vm_compute. reflexivity.
  - reflexivity.
Defined.

(** C9 as it was stated fails: a 200 response with [ok: true] that carries
    no [wallet] clears the input but leaves the balance shown at 10.00. *)
Definition silent : body :=
  {| ok := true; wallet_of := None; counts := None; withdrawals := None |}.

Lemma success_without_wallet_keeps_balance :
  amountInput (respond (Http 200 (Some (Some silent)))
                 (submit NumberDecimal (typed "25.50"))) = Some ""
  ∧ available_balance (respond (Http 200 (Some (Some silent)))
                         (submit NumberDecimal (typed "25.50"))) = Some 1000
  ∧ ¬ (∀ b : body, ok b = true →
         ∃ w, wallet_of b = Some w
              ∧ available_balance
                  (respond (Http 200 (Some (Some b)))
                     (submit NumberDecimal (typed "25.50")))
                = Some (formatReward (w_available_balance w))).
Proof.
  split; [reflexivity|]. split; [reflexivity|].
  intros H.
  destruct (H silent eq_refl) as (w & Hw & _).
  discriminate Hw.
Qed.

End Withdraw.


(* ===================================================================== *)
(** * Scan overlay: bounds, overlay state, and closing                    *)
(* ===================================================================== *)
Module ScanMore.
Import Scan.

(** What [step] does, callback by callback. *)
Lemma step_cases v ev p p' :
  step v ev p = Some p' →
  (∃ now r, ev = Trigger now r ∧ unit_interval r = true ∧ p' = doScan v now r p)
  ∨ (∃ i now sc, ev = Frame i now ∧ scans p !! i = Some sc ∧ ph sc = Animating
                 ∧ p' = tick v i sc now p)
  ∨ (∃ i o sc, ev = Response i o ∧ scans p !! i = Some sc ∧ settled sc = false
               ∧ p' = settle v i sc o p)
  ∨ (∃ i sc, ev = Timeout i ∧ scans p !! i = Some sc ∧ ph sc = Closing
             ∧ p' = close i sc p).
Proof.
  intros Hstep. destruct ev as [now r | i now | i o | i]; simpl in Hstep.
  - destruct (unit_interval r) eqn:Hr; [|done]. injection Hstep as <-.
    left. by exists now, r.
  - destruct (scans p !! i) as [sc|] eqn:Hi; [|done]. simpl in Hstep.
    destruct (ph sc) eqn:Hph; try done. injection Hstep as <-.
    right; left. by exists i, now, sc.
  - destruct (scans p !! i) as [sc|] eqn:Hi; [|done]. simpl in Hstep.
    destruct (settled sc) eqn:Hs; [done|]. injection Hstep as <-.
    right; right; left. by exists i, o, sc.
  - destruct (scans p !! i) as [sc|] eqn:Hi; [|done]. simpl in Hstep.
    destruct (ph sc) eqn:Hph; try done. injection Hstep as <-.
    right; right; right. by exists i, sc.
Qed.

(** A property of pages kept by every callback holds after every run. *)
Lemma run_preserves v (I : page → Prop) :
  (∀ ev p p', I p → step v ev p = Some p' → I p') →
  ∀ evs p p', I p → run v evs p = Some p' → I p'.
Proof.
  intros Hstep. induction evs as [|ev evs IH]; intros p p' Hp Hrun; simpl in Hrun.
  - by injection Hrun as <-.
  - destruct (step v ev p) as [p1|] eqn:H1; [|done]. simpl in Hrun.
    eapply IH; [|exact Hrun]. eapply Hstep; eauto.
Qed.

(** ** The length of the animation *)

Definition duration_range (v : revision) (ms : Z) : Prop :=
  match v with
  | Rev1 => 12000 <= ms <= 19999
  | Rev2 => 4000 <= ms <= 8999
  end.

Lemma floor_scale r n :
  0 < n → unit_interval r = true → 0 <= Qfloor (r * inject_Z n) < n.
Proof.
  intros Hn [Hlo Hhi]%andb_true_iff. apply Qle_bool_iff in Hlo.
  apply negb_true_iff in Hhi.
  assert (Hlt : (r < 1)%Q).
  { destruct (Qlt_le_dec r 1) as [|Hge]; [done|].
    apply Qle_bool_iff in Hge. congruence. }
  assert (HnQ : (inject_Z 0 < inject_Z n)%Q) by (by rewrite <- Zlt_Qlt).
  change (inject_Z 0) with 0%Q in HnQ.
  split.
  - change 0 with (Qfloor (inject_Z 0)). apply Qfloor_resp_le.
    change (inject_Z 0) with 0%Q. nra.
  - destruct (Z_lt_le_dec (Qfloor (r * inject_Z n)) n) as [|Hge]; [done|].
    rewrite Zle_Qle in Hge. pose proof (Qfloor_le (r * inject_Z n)). nra.
Qed.

Lemma pick_totalMs_range v r :
  unit_interval r = true → duration_range v (pick_totalMs v r).
Proof.
  intros Hr. destruct v; unfold duration_range, pick_totalMs.
  - pose proof (floor_scale r 8000 ltac:(lia) Hr) as H.
    change (inject_Z 8000) with 8000%Q in H. lia.
  - pose proof (floor_scale r 5000 ltac:(lia) Hr) as H.
    change (inject_Z 5000) with 5000%Q in H. lia.
Qed.

Definition durations_ok (v : revision) (p : page) : Prop :=
  ∀ i sc, scans p !! i = Some sc → duration_range v (totalMs sc).

Lemma durations_step v ev p p' :
  durations_ok v p → step v ev p = Some p' → durations_ok v p'.
Proof.
  intros Hp Hstep j scj Hj.
  destruct (step_cases v ev p p' Hstep)
    as [(now & r & -> & Hr & ->) | [(i & now & sc & -> & Hi & Hph & ->)
       | [(i & o & sc & -> & Hi & Hs & ->) | (i & sc & -> & Hi & Hph & ->)]]].
  - unfold doScan in Hj. destruct (scanInFlight p); [eauto|]. simpl in Hj.
    apply lookup_snoc_Some in Hj as [[_ Hj] | [_ <-]]; [eauto|].
    simpl. by apply pick_totalMs_range.
  - destruct (tick_scans v i sc now p) as (_ & _ & idx & Hsc).
    rewrite Hsc in Hj.
    apply list_lookup_insert_Some in Hj as [(-> & <- & _) | [_ Hj]]; simpl; eauto.
  - destruct (settle_scans v i sc o p) as (_ & _ & Hsc). rewrite Hsc in Hj.
    apply list_lookup_insert_Some in Hj as [(-> & <- & _) | [_ Hj]]; simpl; eauto.
  - simpl in Hj.
    apply list_lookup_insert_Some in Hj as [(-> & <- & _) | [_ Hj]]; simpl; eauto.
Qed.

Lemma durations_loaded v p : is_loaded p → durations_ok v p.
Proof.
  intros (a & b & c & d & ->) i sc Hi. simpl in Hi. by rewrite lookup_nil in Hi.
Qed.

(** X1.  Every activation the page ever holds has an animation length
    inside the range of its revision: 12000..19999 ms in [Rev1], 4000..8999 ms
    in [Rev2]; the length never changes after [doScan] has drawn it. *)
Theorem animation_length_in_range v evs p0 p i sc :
  is_loaded p0 → run v evs p0 = Some p → scans p !! i = Some sc →
  duration_range v (totalMs sc).
Proof.
  intros Hload Hrun. revert i sc.
  apply (run_preserves v (durations_ok v) (durations_step v) evs p0 p);
    [by apply durations_loaded|done].
Qed.

Lemma animation_length_in_range_witness :
  ∃ p sc, run Rev1 joined (loaded true true true true) = Some p
          ∧ scans p !! 0%nat = Some sc
          ∧ 12000 <= totalMs sc <= 19999.
Proof.
  eexists _, _. split; [vm_compute; reflexivity|]. split; [reflexivity|].
  refine (animation_length_in_range Rev1 joined (loaded true true true true)
            _ 0%nat _ _ _ _).
  - by exists true, true, true, true.
  - vm_compute. reflexivity.
  - reflexivity.
Defined.

(** The same, for properties that lean on the invariant of the activations. *)
Lemma run_preserves_inv v (I : page → Prop) :
  (∀ ev p p', inv p → I p → step v ev p = Some p' → I p') →
  ∀ evs p p', inv p → I p → run v evs p = Some p' → I p'.
Proof.
  intros Hstep evs p p' Hinv Hp Hrun.
  apply (run_preserves v (λ q, inv q ∧ I q)
           ltac:(intros ev q q' [Hq1 Hq2] Hs; split;
                 [by eapply inv_step|by eapply Hstep]) evs p p'); done.
Qed.

(** ** The overlay is up exactly while a scan is in flight *)

Lemma tick_frame v i sc now p :
  overlay (tick v i sc now p) = overlay p ∧ btn (tick v i sc now p) = btn p.
Proof.
  unfold tick. destruct (_ <? _); [done|]. by destruct (settled sc).
Qed.

Lemma settle_frame v i sc o p :
  overlay (settle v i sc o p) = overlay p ∧ btn (settle v i sc o p) = btn p.
Proof. unfold settle. by destruct (ph sc). Qed.

(** The overlay and the button, where they exist, follow the flag. *)
Definition mirrors (p : page) : Prop :=
  (overlay p = None ∨ overlay p = Some (scanInFlight p))
  ∧ (btn p = None ∨ btn p = Some (scanInFlight p)).

(** While the flag is set, some activation is still live. *)
Definition has_live (p : page) : Prop :=
  scanInFlight p = true →
  ∃ i sc, scans p !! i = Some sc ∧ in_flight sc = true.

Lemma mirrors_step v ev p p' : mirrors p → step v ev p = Some p' → mirrors p'.
Proof.
  intros [Ho Hb] Hstep. unfold mirrors.
  destruct (step_cases v ev p p' Hstep)
    as [(now & r & -> & Hr & ->) | [(i & now & sc & -> & Hi & Hph & ->)
       | [(i & o & sc & -> & Hi & Hs & ->) | (i & sc & -> & Hi & Hph & ->)]]].
  - unfold doScan. destruct (scanInFlight p) eqn:Hf; [by rewrite Hf|].
    split; simpl; [destruct (overlay p)|destruct (btn p)]; auto.
  - destruct (tick_frame v i sc now p) as [-> ->].
    destruct (tick_scans v i sc now p) as (-> & _). done.
  - destruct (settle_frame v i sc o p) as [-> ->].
    destruct (settle_scans v i sc o p) as (-> & _). done.
  - split; simpl; [destruct (overlay p)|destruct (btn p)]; auto.
Qed.

Lemma has_live_step v ev p p' :
  inv p → has_live p → step v ev p = Some p' → has_live p'.
Proof.
  intros Hinv Hlive Hstep.
  assert (Hkeep : ∀ i sc sc',
            scans p !! i = Some sc → in_flight sc' = true →
            scanInFlight p' = scanInFlight p → scans p' = <[i := sc']> (scans p) →
            has_live p').
  { intros i sc sc' Hi Hsc' Hf Hs Hflag. rewrite Hf in Hflag.
    destruct (Hlive Hflag) as (j & scj & Hj & Hlj). rewrite Hs.
    destruct (decide (i = j)) as [-> | Hne].
    - exists j, sc'. split; [|done].
      apply list_lookup_insert_eq. by eapply lookup_lt_Some.
    - exists j, scj. by rewrite list_lookup_insert_ne. }
  destruct (step_cases v ev p p' Hstep)
    as [(now & r & -> & Hr & ->) | [(i & now & sc & -> & Hi & Hph & ->)
       | [(i & o & sc & -> & Hi & Hs & ->) | (i & sc & -> & Hi & Hph & ->)]]].
  - unfold doScan. destruct (scanInFlight p) eqn:Hf; [done|].
    intros _. eexists (length (scans p)), _. simpl.
    split; [by apply list_lookup_middle|done].
  - destruct (tick_scans v i sc now p) as (Hf & _ & idx & Hsc).
    eapply (Hkeep i sc); eauto. unfold in_flight, evolve, after_tick. simpl.
    destruct (_ <? _); [done|]. by destruct (settled sc).
  - destruct (settle_scans v i sc o p) as (Hf & _ & Hsc).
    eapply (Hkeep i sc); eauto. unfold in_flight, evolve, after_settle. simpl.
    destruct (Hinv i sc Hi) as (_ & Hpend & _).
    destruct (Hpend Hs) as [-> | ->]; done.
  - intros Hflag. simpl in Hflag. done.
Qed.

(** The frame at the end of the animation, the settlement of the request and
    the closing timeout, as far as they are still outstanding. *)
Definition closing_events (i : nat) (sc : activation) : list event :=
  match ph sc with
  | Animating =>
      Frame i (start sc + totalMs sc)
      :: (if settled sc then [] else [Response i Rejected]) ++ [Timeout i]
  | AwaitingReq => [Response i Rejected; Timeout i]
  | Closing => [Timeout i]
  | Closed => []
  end.

Lemma run_timeout v i sc p :
  scans p !! i = Some sc → ph sc = Closing →
  run v [Timeout i] p = Some (close i sc p).
Proof. intros Hi Hph. simpl. rewrite Hi. simpl. by rewrite Hph. Qed.

Lemma run_response v i sc p :
  scans p !! i = Some sc → ph sc = AwaitingReq → settled sc = false →
  ∃ p1 sc1, run v [Response i Rejected; Timeout i] p = Some (close i sc1 p1)
            ∧ overlay p1 = overlay p ∧ btn p1 = btn p.
Proof.
  intros Hi Hph Hs.
  destruct (settle_scans v i sc Rejected p) as (_ & _ & Hsc).
  destruct (settle_frame v i sc Rejected p) as [Ho Hb].
  eexists (settle v i sc Rejected p), _.
  split; [|done].
  cbn -[settle]. rewrite Hi. cbn -[settle]. rewrite Hs. cbn -[settle].
  rewrite Hsc, list_lookup_insert_eq by (by eapply lookup_lt_Some).
  cbn -[settle]. unfold after_settle. rewrite Hph. done.
Qed.

Lemma run_closing v i sc p :
  inv p → scans p !! i = Some sc → in_flight sc = true →
  ∃ p1 sc1, run v (closing_events i sc) p = Some (close i sc1 p1)
            ∧ overlay p1 = overlay p ∧ btn p1 = btn p.
Proof.
  intros Hinv Hi Hlive. unfold closing_events.
  destruct (Hinv i sc Hi) as (_ & Hpend & Hwait).
  destruct (ph sc) eqn:Hph.
  - (* the animation is running *)
    destruct (tick_scans v i sc (start sc + totalMs sc) p) as (_ & _ & idx & Hsc).
    destruct (tick_frame v i sc (start sc + totalMs sc) p) as [Ho Hb].
    set (p1 := tick v i sc (start sc + totalMs sc) p) in *.
    assert (Hstep : step v (Frame i (start sc + totalMs sc)) p = Some p1).
    { simpl. rewrite Hi. simpl. by rewrite Hph. }
    assert (Hafter : after_tick sc (start sc + totalMs sc)
                     = if settled sc then Closing else AwaitingReq).
    { unfold after_tick.
      replace (start sc + totalMs sc - start sc) with (totalMs sc) by lia.
      by rewrite Z.ltb_irrefl. }
    rewrite Hafter in Hsc.
    assert (Hi1 : scans p1 !! i
                  = Some (evolve sc (payload sc) (settled sc) idx
                            (if settled sc then Closing else AwaitingReq))).
    { rewrite Hsc. apply list_lookup_insert_eq. by eapply lookup_lt_Some. }
    change (run v (?e :: ?l) p) with (step v e p ≫= run v l).
    rewrite Hstep. cbn [mbind option_bind].
    destruct (settled sc) eqn:Hs.
    + eexists p1, _. split; [|done]. by apply run_timeout.
    + destruct (run_response v i _ p1 Hi1 eq_refl eq_refl) as (p2 & sc2 & Hrun & Ho2 & Hb2).
      exists p2, sc2. split; [exact Hrun|]. split; congruence.
  - destruct (run_response v i sc p Hi Hph (Hwait eq_refl)) as (p2 & sc2 & Hrun & H).
    by exists p2, sc2.
  - exists p, sc. split; [|done]. by apply run_timeout.
  - unfold in_flight in Hlive. by rewrite Hph in Hlive.
Qed.

(** X2.  In every state the page can reach, the overlay and the trigger
    button (where they exist) are shown resp. disabled exactly while
    [scanInFlight] is set; and a scan in flight can always be brought to its
    end: the outstanding callbacks of the live activation (the frame at the
    end of the animation, a settlement of the request, be it a rejection, and
    the closing timeout; three at most) are deliverable in this order and
    leave the flag cleared, the overlay hidden and the button enabled. *)
Theorem overlay_open_while_in_flight v evs p0 p :
  is_loaded p0 → run v evs p0 = Some p →
  (overlay p = None ∨ overlay p = Some (scanInFlight p))
  ∧ (btn p = None ∨ btn p = Some (scanInFlight p))
  ∧ (scanInFlight p = true →
     ∃ i sc p',
       scans p !! i = Some sc
       ∧ (length (closing_events i sc) <= 3)%nat
       ∧ run v (closing_events i sc) p = Some p'
       ∧ scanInFlight p' = false
       ∧ overlay p' = set_if (overlay p) false
       ∧ btn p' = set_if (btn p) false).
Proof.
  intros Hload Hrun.
  assert (Hinv : inv p) by (eapply inv_run; eauto using inv_loaded).
  assert (Hm : mirrors p).
  { apply (run_preserves v mirrors (mirrors_step v) evs p0 p); [|done].
    destruct Hload as (a & b & c & d & ->).
    split; simpl; [destruct a|destruct b]; auto. }
  assert (Hl : has_live p).
  { apply (run_preserves_inv v has_live (has_live_step v) evs p0 p); try done.
    - by apply inv_loaded.
    - destruct Hload as (a & b & c & d & ->). by intros Hf. }
  destruct Hm as [Ho Hb]. split; [done|]. split; [done|].
  intros Hflag. destruct (Hl Hflag) as (i & sc & Hi & Hlive).
  destruct (run_closing v i sc p Hinv Hi Hlive) as (p1 & sc1 & Hclose & Ho1 & Hb1).
  exists i, sc, (close i sc1 p1). split; [done|]. split.
  - unfold closing_events. destruct (ph sc); simpl; try lia.
    destruct (settled sc); simpl; lia.
  - split; [done|]. simpl. by rewrite Ho1, Hb1.
Qed.

Lemma overlay_open_while_in_flight_witness :
  ∃ p, run Rev1 late_response (loaded true true true true) = Some p
       ∧ overlay p = Some true ∧ scanInFlight p = true
       ∧ (overlay p = None ∨ overlay p = Some (scanInFlight p)).
Proof.
  eexists. split; [vm_compute; reflexivity|].
  split; [reflexivity|]. split; [reflexivity|].
  refine (proj1 (overlay_open_while_in_flight Rev1 late_response
                   (loaded true true true true) _ _ _)).
  - by exists true, true, true, true.
  - vm_compute. reflexivity.
Defined.

(** ** What a callback writes, field by field *)

Definition awaiting (sc : activation) : bool :=
  match ph sc with AwaitingReq => true | _ => false end.

(** The caption, bar and table updates of the [finally] reaction. *)
Definition final_status (pl : option body) (s : option caption) : option caption :=
  set_if s (final_caption pl).

Definition final_bar (v : revision) (b : option (width * bool)) : option (width * bool) :=
  match v with Rev1 => set_if b (Full, true) | Rev2 => b end.

Definition final_applied (pl : option body) (l : list body) : list body :=
  match pl with
  | Some d => if ok d then l ++ [d] else l
  | None => l
  end.

Lemma tick_fields v i sc now p :
  let elapsed := now - start sc in
  let due := stage_due v sc elapsed && bool_decide (is_Some (status p)) in
  let ends := negb (elapsed <? totalMs sc) && settled sc in
  let s1 := if due then set_if (status p) (Stage (stepIdx sc)) else status p in
  let b1 := match bar p with
            | Some (_, tr) =>
                Some (match v with
                      | Rev1 => Eased (percent elapsed (totalMs sc))
                      | Rev2 => Plain (percent elapsed (totalMs sc))
                      end, tr)
            | None => None
            end in
  scans (tick v i sc now p)
  = <[i := evolve sc (payload sc) (settled sc)
             (if due then S (stepIdx sc) else stepIdx sc) (after_tick sc now)]> (scans p)
  ∧ status (tick v i sc now p) = (if ends then final_status (payload sc) s1 else s1)
  ∧ bar (tick v i sc now p) = (if ends then final_bar v b1 else b1)
  ∧ applied (tick v i sc now p)
    = (if ends then final_applied (payload sc) (applied p) else applied p).
Proof.
  cbv zeta. unfold tick, after_tick, evolve.
  destruct (now - start sc <? totalMs sc); simpl; [done|].
  destruct (settled sc) eqn:Hs; simpl; rewrite ?list_insert_insert_eq, ?Hs; done.
Qed.

Lemma settle_fields v i sc o p :
  status (settle v i sc o p)
  = (if awaiting sc then final_status (received o) (status p) else status p)
  ∧ bar (settle v i sc o p) = (if awaiting sc then final_bar v (bar p) else bar p)
  ∧ applied (settle v i sc o p)
    = (if awaiting sc then final_applied (received o) (applied p) else applied p).
Proof. unfold settle, awaiting. by destruct (ph sc). Qed.

(** ** The stage captions *)

Definition captions_ok (p : page) : Prop :=
  (∀ i sc, scans p !! i = Some sc → (stepIdx sc <= steps_length)%nat)
  ∧ (∀ k, status p = Some (Stage k) → (k < steps_length)%nat).

Lemma final_status_stage pl s k : final_status pl s = Some (Stage k) → False.
Proof.
  unfold final_status, final_caption. destruct s; simpl; [|done].
  destruct pl as [d|]; [|done]. destruct (ok d); [|done].
  destruct (changed d) as [n|]; [|done]. by destruct (0 <? n).
Qed.

Lemma stage_due_lt v sc e :
  stage_due v sc e = true → (stepIdx sc < steps_length)%nat.
Proof.
  unfold stage_due. destruct v; intros [H1 H2]%andb_true_iff;
    by apply Nat.ltb_lt.
Qed.

Lemma captions_step v ev p p' :
  captions_ok p → step v ev p = Some p' → captions_ok p'.
Proof.
  intros [Hidx Hst] Hstep.
  destruct (step_cases v ev p p' Hstep)
    as [(now & r & -> & Hr & ->) | [(i & now & sc & -> & Hi & Hph & ->)
       | [(i & o & sc & -> & Hi & Hs & ->) | (i & sc & -> & Hi & Hph & ->)]]].
  - unfold doScan. destruct (scanInFlight p); [done|]. split; simpl.
    + intros j scj [[_ Hj] | [_ <-]]%lookup_snoc_Some; [eauto|].
      simpl. unfold steps_length. lia.
    + intros k. destruct (status p); simpl; [|done].
      intros [= <-]. unfold steps_length. lia.
  - destruct (tick_fields v i sc now p) as (Hsc & Hstat & _). split.
    + intros j scj. rewrite Hsc.
      intros [(-> & <- & _) | [_ Hj]]%list_lookup_insert_Some; [|eauto]. simpl.
      destruct (stage_due v sc (now - start sc)) eqn:Hdue; simpl.
      * apply stage_due_lt in Hdue. destruct (bool_decide _); lia.
      * eauto.
    + intros k. rewrite Hstat.
      destruct (negb _ && settled sc); [by intros ?%final_status_stage|].
      destruct (stage_due v sc (now - start sc)) eqn:Hdue; simpl; [|eauto].
      destruct (bool_decide _); [|eauto].
      destruct (status p); simpl; [|done]. intros [= <-].
      by eapply stage_due_lt.
  - destruct (settle_scans v i sc o p) as (_ & _ & Hsc).
    destruct (settle_fields v i sc o p) as (Hstat & _). split.
    + intros j scj. rewrite Hsc.
      intros [(-> & <- & _) | [_ Hj]]%list_lookup_insert_Some; simpl; eauto.
    + intros k. rewrite Hstat.
      destruct (awaiting sc); [by intros ?%final_status_stage|eauto].
  - split; simpl; [|done].
    intros j scj [(-> & <- & _) | [_ Hj]]%list_lookup_insert_Some; simpl; eauto.
Qed.

(** X3.  The stage caption is always one of the five entries of [steps]:
    no activation ever counts past the end of the array, and the caption
    element never shows [steps[k]] for an index [k] outside it (which would
    read as "undefined"). *)
Theorem stage_caption_defined v evs p0 p :
  is_loaded p0 → run v evs p0 = Some p →
  (∀ i sc, scans p !! i = Some sc → (stepIdx sc <= steps_length)%nat)
  ∧ (∀ k, status p = Some (Stage k) → (k < steps_length)%nat).
Proof.
  intros Hload Hrun.
  apply (run_preserves v captions_ok (captions_step v) evs p0 p); [|done].
  destruct Hload as (a & b & c & d & ->). split; simpl.
  - intros i sc Hi. by rewrite lookup_nil in Hi.
  - intros k. destruct d; [|done]. intros [= <-]. unfold steps_length. lia.
Qed.

Lemma stage_caption_defined_witness :
  ∃ p, run Rev1 early_response (loaded true true true true) = Some p
       ∧ ∀ k, status p = Some (Stage k) → (k < steps_length)%nat.
Proof.
  eexists. split; [vm_compute; reflexivity|].
  refine (proj2 (stage_caption_defined Rev1 early_response
                   (loaded true true true true) _ _ _)).
  - by exists true, true, true, true.
  - vm_compute. reflexivity.
Defined.

(** ** The percentage of the bar *)

Lemma ratio_facts t :
  0 < t →
  ∃ q, (∀ e, inject_Z e / inject_Z t == inject_Z e * q)%Q ∧ (0 < q)%Q
       ∧ (inject_Z t * q == 1)%Q.
Proof.
  intros Ht. exists (/ inject_Z t)%Q.
  assert (HtQ : (0 < inject_Z t)%Q).
  { change 0%Q with (inject_Z 0). by rewrite <- Zlt_Qlt. }
  split; [reflexivity|]. split; [by apply Qinv_lt_0_compat|].
  apply Qmult_inv_r. intros H. rewrite H in HtQ. by apply Qlt_irrefl in HtQ.
Qed.

Lemma percent_mono e e' t : 0 < t → e <= e' → percent e t <= percent e' t.
Proof.
  intros Ht He. unfold percent. apply Z.min_le_compat_l, Qfloor_resp_le.
  destruct (ratio_facts t Ht) as (q & Hdiv & Hq & _).
  rewrite !Hdiv. rewrite Zle_Qle in He. nra.
Qed.

Lemma percent_zero t : 0 < t → percent 0 t = 0.
Proof.
  intros Ht. unfold percent.
  destruct (ratio_facts t Ht) as (q & Hdiv & _ & _).
  assert (H : (inject_Z 0 / inject_Z t * 100 + (1 # 2) == 1 # 2)%Q).
  { rewrite Hdiv. change (inject_Z 0) with 0%Q. ring. }
  rewrite H. reflexivity.
Qed.

Lemma percent_full e t : 0 < t → t <= e → percent e t = 100.
Proof.
  intros Ht He. unfold percent. apply Z.min_l.
  apply Z.le_trans with (Qfloor (inject_Z 100)); [by rewrite Qfloor_Z|].
  apply Qfloor_resp_le.
  destruct (ratio_facts t Ht) as (q & Hdiv & Hq & Hone).
  rewrite Hdiv. rewrite Zle_Qle in He. change (inject_Z 100) with 100%Q.
  assert (Hle : (inject_Z t * q <= inject_Z e * q)%Q).
  { apply Qmult_le_compat_r; [done|by apply Qlt_le_weak]. }
  rewrite Hone in Hle. lra.
Qed.

(** X4.  The rounded percentage behind the bar width never runs backwards
    as the frames' clock advances, stays within 0..100 from the start of the
    animation on, and is 100 on every frame at or after the end of the
    animation time. *)
Theorem percent_monotone_within_bounds e e' t :
  0 < t → 0 <= e → e <= e' →
  0 <= percent e t ∧ percent e t <= percent e' t ∧ percent e' t <= 100
  ∧ (t <= e → percent e t = 100).
Proof.
  intros Ht He Hee'. split; [|split; [|split]].
  - rewrite <- (percent_zero t Ht). by apply percent_mono.
  - by apply percent_mono.
  - unfold percent. apply Z.le_min_l.
  - by apply percent_full.
Qed.

Lemma percent_monotone_within_bounds_witness :
  percent 6000 12000 = 50 ∧ percent 11950 12000 = 100
  ∧ percent 6000 12000 <= percent 11950 12000.
Proof.
  split; [reflexivity|]. split; [reflexivity|].
  exact (proj1 (proj2 (percent_monotone_within_bounds 6000 11950 12000
                         ltac:(lia) ltac:(lia) ltac:(lia)))).
Defined.

(** ** The bar at the end of the animation *)

Definition complete (w : width) : bool :=
  match w with
  | Full => true
  | Eased pct | Plain pct => pct =? 100
  | Zero => false
  end.

(** The bar, where it exists, is at 100%; in [Rev1] it has been snapped
    there with the closing transition once the activation is finalized. *)
Definition bar_at_end (v : revision) (sc : activation) (p : page) : Prop :=
  match bar p with
  | None => True
  | Some (w, tr) =>
      complete w = true
      ∧ (v = Rev1 → finalized sc = true → w = Full ∧ tr = true)
  end.

Definition bar_ok (v : revision) (p : page) : Prop :=
  ∀ i sc, scans p !! i = Some sc → S i = length (scans p) →
          ph sc ≠ Animating → bar_at_end v sc p.

Definition sound (v : revision) (p : page) : Prop := inv p ∧ durations_ok v p.

Lemma run_preserves_sound v (I : page → Prop) :
  (∀ ev p p', sound v p → I p → step v ev p = Some p' → I p') →
  ∀ evs p p', sound v p → I p → run v evs p = Some p' → I p'.
Proof.
  intros Hstep evs p p' Hs Hp Hrun.
  apply (run_preserves v (λ q, sound v q ∧ I q)
           ltac:(intros ev q q' [[Hq1 Hq2] Hq3] Hs'; split;
                 [split; [by eapply inv_step|by eapply durations_step]
                 |by apply (Hstep ev q q'); [split| |]]) evs p p'); done.
Qed.

Lemma sound_loaded v p : is_loaded p → sound v p.
Proof. intros H. split; [by apply inv_loaded|by apply durations_loaded]. Qed.

Lemma duration_positive v ms : duration_range v ms → 0 < ms.
Proof. destruct v; simpl; lia. Qed.

(** A live activation is the last one of the list. *)
Lemma live_is_last p i sc j :
  inv p → scans p !! i = Some sc → in_flight sc = true →
  S j = length (scans p) → j = i.
Proof.
  intros Hinv Hi Hlive Hj. destruct (Hinv i sc Hi) as (Hlast & _).
  destruct (Hlast Hlive) as [_ Hlen]. lia.
Qed.

Lemma bar_step v ev p p' :
  sound v p → bar_ok v p → step v ev p = Some p' → bar_ok v p'.
Proof.
  intros [Hinv Hdur] Hbar Hstep j scj Hj Hlast Hph'.
  destruct (step_cases v ev p p' Hstep)
    as [(now & r & -> & Hr & ->) | [(i & now & sc & -> & Hi & Hph & ->)
       | [(i & o & sc & -> & Hi & Hs & ->) | (i & sc & -> & Hi & Hph & ->)]]].
  - unfold doScan in *. destruct (scanInFlight p); [eauto|]. simpl in *.
    rewrite length_app in Hlast. simpl in Hlast.
    apply lookup_snoc_Some in Hj as [[Hlt _] | [_ <-]]; [lia|]. done.
  - destruct (tick_fields v i sc now p) as (Hsc & _ & Hb & _).
    rewrite Hsc in Hj, Hlast. rewrite length_insert in Hlast.
    assert (j = i) as ->.
    { eapply live_is_last; eauto. unfold in_flight. by rewrite Hph. }
    rewrite list_lookup_insert_eq in Hj by (by eapply lookup_lt_Some).
    injection Hj as <-. simpl in Hph'. unfold after_tick in Hph'.
    unfold bar_at_end. rewrite Hb. simpl. unfold after_tick.
    destruct (now - start sc <? totalMs sc) eqn:Hlt; [done|]. simpl.
    apply Z.ltb_ge in Hlt.
    rewrite (percent_full (now - start sc) (totalMs sc))
      by (eauto using duration_positive).
    destruct (bar p) as [[w tr]|]; destruct (settled sc), v; simpl; try done.
    all: split; [done|]; intros; done.
  - destruct (settle_scans v i sc o p) as (_ & _ & Hsc).
    destruct (settle_fields v i sc o p) as (_ & Hb & _).
    rewrite Hsc in Hj, Hlast. rewrite length_insert in Hlast.
    destruct (Hinv i sc Hi) as (_ & Hpend & _).
    assert (j = i) as ->.
    { eapply live_is_last; eauto. unfold in_flight.
      destruct (Hpend Hs) as [-> | ->]; done. }
    rewrite list_lookup_insert_eq in Hj by (by eapply lookup_lt_Some).
    injection Hj as <-. simpl in Hph'. unfold after_settle in Hph'.
    unfold bar_at_end. rewrite Hb. unfold awaiting. simpl. unfold after_settle.
    destruct (Hpend Hs) as [Hp | Hp]; rewrite Hp in *; [done|].
    assert (Hold : bar_at_end v sc p).
    { apply (Hbar i sc Hi Hlast). by rewrite Hp. }
    unfold bar_at_end, finalized in Hold. rewrite Hp in Hold.
    destruct (bar p) as [[w tr]|]; destruct v; simpl; try done.
    destruct Hold as [Hw _]. split; [done|]. intros; done.
  - simpl in Hj, Hlast. rewrite length_insert in Hlast.
    assert (j = i) as ->.
    { eapply live_is_last; eauto. unfold in_flight. by rewrite Hph. }
    rewrite list_lookup_insert_eq in Hj by (by eapply lookup_lt_Some).
    injection Hj as <-.
    assert (Hold : bar_at_end v sc p).
    { apply (Hbar i sc Hi Hlast). by rewrite Hph. }
    unfold bar_at_end, finalized in *. simpl. rewrite Hph in Hold.
    destruct (bar p) as [[w tr]|]; [|done].
    destruct Hold as [Hw Hfull]. split; [done|]. intros Hv _. by apply Hfull.
Qed.

(** X5.  Once the animation time of the latest activation is over, the bar
    (where it exists) shows 100% and stays there, through the wait for the
    request, the final caption and the closing of the overlay, until the next
    scan starts; in [Rev1] the finalized activation has it snapped to '100%'
    with the closing transition set. *)
Theorem bar_complete_after_animation v evs p0 p i sc :
  is_loaded p0 → run v evs p0 = Some p →
  scans p !! i = Some sc → S i = length (scans p) → ph sc ≠ Animating →
  match bar p with
  | None => True
  | Some (w, tr) =>
      complete w = true
      ∧ (v = Rev1 → finalized sc = true → w = Full ∧ tr = true)
  end.
Proof.
  intros Hload Hrun Hi Hlast Hph.
  assert (Hbar : bar_ok v p).
  { apply (run_preserves_sound v (bar_ok v) (bar_step v) evs p0 p);
      [by apply sound_loaded| |done].
    destruct Hload as (a & b & c & d & ->). intros j scj Hj. simpl in Hj.
    by rewrite lookup_nil in Hj. }
  exact (Hbar i sc Hi Hlast Hph).
Qed.

Lemma bar_complete_after_animation_witness :
  ∃ p sc, run Rev1 joined (loaded true true true true) = Some p
          ∧ scans p !! 0%nat = Some sc ∧ ph sc = Closing
          ∧ match bar p with
            | None => True
            | Some (w, tr) =>
                complete w = true
                ∧ (Rev1 = Rev1 → finalized sc = true → w = Full ∧ tr = true)
            end.
Proof.
  eexists _, _. split; [vm_compute; reflexivity|].
  split; [reflexivity|]. split; [reflexivity|].
  lazymatch goal with
  | |- context [finalized ?s] =>
      lazymatch goal with
      | |- match bar ?q with _ => _ end =>
          refine (bar_complete_after_animation Rev1 joined
                    (loaded true true true true) q 0%nat s _ _ _ _ _)
      end
  end.
  - by exists true, true, true, true.
  - vm_compute. reflexivity.
  - reflexivity.
  - reflexivity.
  - done.
Defined.

(** ** The bodies handed to the tables *)

(** The body a finalized activation has handed to [VM.updateCountsWallet] and
    [VM.render.renderAll]: its payload, if that says [ok]. *)
Definition rendered (sc : activation) : option body :=
  if finalized sc then
    match payload sc with
    | Some d => if ok d then Some d else None
    | None => None
    end
  else None.

Lemma omap_insert_keep {A B} (f : A → option B) (l : list A) (i : nat) x y :
  l !! i = Some x → f y = f x → omap f (<[i := y]> l) = omap f l.
Proof.
  intros Hi Hf. rewrite <- (take_drop_middle l i x Hi) at 2.
  rewrite insert_take_drop by (by eapply lookup_lt_Some).
  rewrite !omap_app. simpl. by rewrite Hf.
Qed.

Lemma omap_insert_last {A B} (f : A → option B) (l : list A) (i : nat) x y :
  l !! i = Some x → S i = length l → f x = None →
  omap f (<[i := y]> l) = omap f l ++ option_list (f y).
Proof.
  intros Hi Hlast Hf. rewrite <- (take_drop_middle l i x Hi) at 2.
  rewrite insert_take_drop by (by eapply lookup_lt_Some).
  rewrite !omap_app. simpl. rewrite Hf.
  rewrite drop_ge by lia. simpl. destruct (f y); simpl; by rewrite ?app_nil_r.
Qed.

Lemma omap_length_le {A B} (f : A → option B) (l : list A) :
  (length (omap f l) <= length l)%nat.
Proof.
  induction l as [|x l IH]; [done|]. cbn. destruct (f x); cbn; lia.
Qed.

Lemma final_applied_rendered sc pl s idx l :
  final_applied pl l = l ++ option_list (rendered (evolve sc pl s idx Closing)).
Proof.
  unfold final_applied, rendered. simpl. destruct pl as [d|]; simpl.
  - destruct (ok d); simpl; by rewrite ?app_nil_r.
  - by rewrite app_nil_r.
Qed.

Definition applied_ok (p : page) : Prop := applied p = omap rendered (scans p).

Lemma applied_step v ev p p' :
  inv p → applied_ok p → step v ev p = Some p' → applied_ok p'.
Proof.
  intros Hinv Happ Hstep. unfold applied_ok in *.
  destruct (step_cases v ev p p' Hstep)
    as [(now & r & -> & Hr & ->) | [(i & now & sc & -> & Hi & Hph & ->)
       | [(i & o & sc & -> & Hi & Hs & ->) | (i & sc & -> & Hi & Hph & ->)]]].
  - unfold doScan. destruct (scanInFlight p); [done|]. simpl.
    rewrite omap_app. simpl. by rewrite app_nil_r.
  - destruct (tick_fields v i sc now p) as (Hsc & _ & _ & Ha).
    rewrite Hsc, Ha. clear Hsc Ha.
    assert (Hnone : rendered sc = None).
    { unfold rendered, finalized. by rewrite Hph. }
    assert (Hlast : S i = length (scans p)).
    { destruct (Hinv i sc Hi) as (Hl & _). apply Hl. unfold in_flight.
      by rewrite Hph. }
    unfold after_tick.
    destruct (now - start sc <? totalMs sc); simpl.
    + rewrite (omap_insert_keep rendered _ i sc); [done|done|].
      by rewrite Hnone.
    + destruct (settled sc) eqn:Hs.
      * rewrite (omap_insert_last rendered _ i sc) by done.
        rewrite Happ. apply final_applied_rendered.
      * rewrite (omap_insert_keep rendered _ i sc); [done|done|].
        by rewrite Hnone.
  - destruct (settle_scans v i sc o p) as (_ & _ & Hsc).
    destruct (settle_fields v i sc o p) as (_ & _ & Ha).
    rewrite Hsc, Ha. clear Hsc Ha.
    destruct (Hinv i sc Hi) as (Hl & Hpend & _).
    unfold awaiting, after_settle.
    destruct (Hpend Hs) as [Hp | Hp]; rewrite Hp.
    + rewrite (omap_insert_keep rendered _ i sc); [done|done|].
      unfold rendered, finalized. simpl. by rewrite Hp.
    + rewrite (omap_insert_last rendered _ i sc); try done.
      * rewrite Happ. apply final_applied_rendered.
      * apply Hl. unfold in_flight. by rewrite Hp.
      * unfold rendered, finalized. by rewrite Hp.
  - simpl. rewrite (omap_insert_keep rendered _ i sc); [done|done|].
    unfold rendered, finalized. simpl. by rewrite Hph.
Qed.

(** X6.  The bodies handed to the wallet and table update are exactly the
    payloads of the finalized activations whose payload says [ok], one per
    activation and in the order of the scans: a failed or rejected scan
    updates nothing, no scan is applied twice, and nothing is applied before
    the activation is finalized.  In particular there are never more updates
    than requests posted. *)
Theorem tables_updated_once_per_successful_scan v evs p0 p :
  is_loaded p0 → run v evs p0 = Some p →
  applied p = omap rendered (scans p)
  ∧ (length (applied p) <= posts p)%nat.
Proof.
  intros Hload Hrun.
  assert (Happ : applied_ok p).
  { apply (run_preserves_inv v applied_ok (applied_step v) evs p0 p);
      [by apply inv_loaded| |done].
    by destruct Hload as (a & b & c & d & ->). }
  split; [done|].
  rewrite (posts_run v evs p0 p); [|by destruct Hload as (a & b & c & d & ->)|done].
  rewrite Happ. apply omap_length_le.
Qed.

Lemma tables_updated_once_per_successful_scan_witness :
  ∃ p, run Rev1 joined (loaded true true true true) = Some p
       ∧ applied p = omap rendered (scans p) ∧ length (applied p) = 1%nat.
Proof.
  eexists. split; [vm_compute; reflexivity|]. split; [|reflexivity].
  refine (proj1 (tables_updated_once_per_successful_scan Rev1 joined
                   (loaded true true true true) _ _ _)).
  - by exists true, true, true, true.
  - vm_compute. reflexivity.
Defined.

End ScanMore.

(* ===================================================================== *)
(** * Row actions: what the handlers never do                             *)
(* ===================================================================== *)
Module ResolveMore.
Import Resolve.

Section Browser.

Context {B : conversions}.

(** ** Handler bodies under their guards *)

(** Every update of the wallet, the counters and the tables in the body is
    made with a payload that says [ok]. *)
Fixpoint guarded (p : proc) : Prop :=
  match p with
  | Done => True
  | StopTimerForRow _ next => guarded next
  | CallRemaining _ k | CallResolve _ k | CallArchive _ k | CallUnarchive _ k =>
      ∀ res, guarded (k res)
  | StartMiniCountdown _ _ _ onDone => guarded onDone
  | FinalizeResolve _ payload next => is_ok payload = true ∧ guarded next
  | FinalizeArchive _ payload next => is_ok payload = true ∧ guarded next
  | RefreshFromPayload payload next => is_ok payload = true ∧ guarded next
  | HideMini _ next => guarded next
  end.

Lemma is_too_early_seconds payload :
  is_too_early payload = true → gt_zero (seconds_of payload) = true.
Proof.
  destruct payload as [p|]; simpl; [|done].
  intros [_ Hs]%andb_true_iff. by destruct (seconds_remaining p) as [v|].
Qed.

Lemma guarded_after_retry r res : guarded (after_retry r res).
Proof.
  destruct res as [p2|]; simpl; [|done]. by destruct (is_ok p2) eqn:Hok.
Qed.

Lemma guarded_after_resolve r rowId pid res : guarded (after_resolve r rowId pid res).
Proof.
  destruct res as [payload|]; simpl; [|done].
  destruct (is_ok payload) eqn:Hok; [done|].
  destruct (is_too_early payload) eqn:Hearly; [|done]. simpl.
  intros res. apply guarded_after_retry.
Qed.

Lemma guarded_handleResolve r rw : guarded (handleResolve r rw).
Proof.
  unfold handleResolve. simpl.
  intros [data|]; simpl; [|intros res; apply guarded_after_resolve].
  destruct (le_zero (primed_remaining data)); simpl;
    intros res; apply guarded_after_resolve.
Qed.

Lemma guarded_handleArchive r rw : guarded (handleArchive r rw).
Proof.
  unfold handleArchive. destruct (decide _); simpl; [done|].
  intros [data|]; [|done]. by destruct (is_ok data) eqn:Hok.
Qed.

Lemma guarded_handleUnarchive r rw : guarded (handleUnarchive r rw).
Proof.
  unfold handleUnarchive. destruct (decide _); simpl; [done|].
  intros [data|]; [|done]. by destruct (is_ok data) eqn:Hok.
Qed.

(** ** The invariant of the page *)

(** A fill width the script can have written: at most 100 when it is a
    number. *)
Definition real_fill (f : option pct) : Prop :=
  match f with
  | Some (Pct n) => n <= 100
  | _ => True
  end.

(** A total a countdown can have: [Math.max(0, ...)] is a whole number from
    0 on, [NaN] or [+Infinity]. *)
Definition total_ok (x : jsint) : Prop :=
  match x with
  | Int n => 0 <= n
  | NegInf => False
  | NaN | PosInf => True
  end.

Lemma countdown_total_ok seconds : total_ok (countdown_total seconds).
Proof.
  unfold countdown_total, max_zero. destruct (parseInt _); simpl; try done. lia.
Qed.

(** The fill of row [r] is such a width, or still what the markup of the
    page had. *)
Definition fill_ok (table : gmap nat row) (r : nat) (rw : row) : Prop :=
  real_fill (fill rw) ∨ ∃ rw0, table !! r = Some rw0 ∧ fill rw0 = fill rw.

Definition pending_ok (table : gmap nat row) (st : state) : Prop :=
  (∀ i tk, tasks st !! i = Some tk → ∀ res, guarded (tk.2 res))
  ∧ (∀ h t, intervals st !! h = Some t → total_ok (t_total t) ∧ guarded (t_onDone t))
  ∧ Forall (λ p, is_ok p = true) (wallet_updates st)
  ∧ Forall (λ p, is_ok p = true) (renders st)
  ∧ (∀ r rw, rows st !! r = Some rw → fill_ok table r rw).

Lemma pending_ok_initial table : pending_ok table (initial table).
Proof.
  split; [|split; [|split; [|split]]]; simpl; try done.
  intros r rw Hr. right. by exists rw.
Qed.

(** A change of the row that leaves the fill alone or writes a real
    percentage. *)
Lemma pending_ok_rows table (f : row → row) r st :
  (∀ rw, fill (f rw) = fill rw ∨ real_fill (fill (f rw))) →
  pending_ok table st → pending_ok table (with_rows (alter f r (rows st)) st).
Proof.
  intros Hf (Ht & Hi & Hw & Hr & Hrows).
  split; [done|]. split; [done|]. split; [done|]. split; [done|]. simpl.
  intros r' rw' [(<- & rw & Hrw & ->) | [_ Hrw]]%lookup_alter_Some; [|eauto].
  destruct (Hf rw) as [Heq | Hreal]; [|by left].
  destruct (Hrows _ _ Hrw) as [Hreal | (rw0 & H0 & Hfill)].
  - left. by rewrite Heq.
  - right. exists rw0. by rewrite Heq.
Qed.

Lemma pending_ok_stop table rowKey st :
  pending_ok table st → pending_ok table (stopTimerForRow rowKey st).
Proof.
  intros (Ht & Hi & Hw & Hr & Hrows). unfold stopTimerForRow.
  destruct (rowTimers st !! rowKey) as [h0|]; [|done].
  split; [done|]. split; [|done]. simpl.
  intros h t [_ Hh]%lookup_delete_Some. eauto.
Qed.

Lemma pending_ok_start table r rowId seconds onDone now st :
  guarded onDone → pending_ok table st →
  pending_ok table (startMiniCountdown r rowId seconds onDone now st).
Proof.
  intros Hdone Hok. unfold startMiniCountdown.
  match goal with
  | |- context [stopTimerForRow rowId (with_rows (alter ?f r (rows st)) st)] =>
      assert (H1 : pending_ok table
                     (stopTimerForRow rowId (with_rows (alter f r (rows st)) st)))
  end.
  { apply pending_ok_stop, pending_ok_rows; [|done].
    intros rw. right. simpl. by destruct (fill rw). }
  destruct H1 as (Ht & Hi & Hw & Hr & Hrows).
  split; [done|]. split; [|done]. simpl.
  intros h t [[_ <-] | [_ Hh]]%lookup_insert_Some; [|eauto]. simpl.
  split; [apply countdown_total_ok|done].
Qed.

(** A tick never writes more than 100%. *)
Lemma percent_done_real total left : real_fill (Some (percent_done total left)).
Proof.
  unfold percent_done, real_fill.
  destruct total as [t| | |], left as [l| | |]; try done.
  - destruct (t =? 0); [by destruct (l =? 0), (0 <? l)|]. apply Z.le_min_l.
  - by destruct (t <? 0).
  - by destruct (t <? 0).
Qed.

Section Machine.

Variable E : entropy.
Variable table : gmap nat row.

Lemma advance_pending job : ∀ now st,
  pending_ok table st → pending_ok table (advance E job now st).2.
Proof.
  induction job as [v| |k IH|rq k IH|ms job IH]; intros now st Hok; simpl;
    try done.
  apply IH. by destruct Hok as (Ht & Hi & Hw & Hr & Hrows).
Qed.

Lemma advance_tasks job : ∀ now st, tasks (advance E job now st).2 = tasks st.
Proof.
  induction job as [v| |k IH|rq k IH|ms job IH]; intros now st; simpl; try done.
  by rewrite IH.
Qed.

Lemma spawn_pending job k now st :
  (∀ res, guarded (k res)) → pending_ok table st →
  pending_ok table (spawn E job k now st).
Proof.
  intros Hk Hok. unfold spawn.
  pose proof (advance_pending job now st Hok) as Hok'.
  destruct (advance E job now st) as [job' st']. simpl in Hok'.
  destruct Hok' as (Ht & Hi & Hw & Hr & Hrows).
  split; [|done]. simpl.
  intros i tk [[_ <-] | [_ Htk]]%lookup_insert_Some; eauto.
Qed.

Lemma exec_pending p : ∀ now st,
  guarded p → pending_ok table st → pending_ok table (exec E now p st).
Proof.
  induction p as [|rowKey next IH|pid k _|pid k _|pid k _|pid k _
                  |r rowId seconds onDone _|r payload next IH
                  |r payload next IH|payload next IH|r next IH];
    intros now st Hp Hok; simpl in *.
  - done.
  - apply IH; [done|]. by apply pending_ok_stop.
  - by apply spawn_pending.
  - by apply spawn_pending.
  - by apply spawn_pending.
  - by apply spawn_pending.
  - by apply pending_ok_start.
  - destruct Hp as [Hpay Hnext]. apply IH; [done|].
    pose proof (pending_ok_rows table
                  (λ rw, {| data_row_id := data_row_id rw;
                            data_port_id := data_port_id rw;
                            mini_hidden := set_if (mini_hidden rw) true;
                            fill := fill rw; txt := txt rw;
                            td_status := set_if (td_status rw) Resolved;
                            actions_cleared := set_if (actions_cleared rw) true |})
                  r st ltac:(by left) Hok) as (Ht & Hi & Hw & Hr & Hrows).
    split; [done|]. split; [done|]. split; [|done]. simpl.
    apply Forall_app. split; [done|]. by apply Forall_singleton.
  - destruct Hp as [Hpay Hnext]. apply IH; [done|].
    unfold finalizeArchive. by apply pending_ok_rows; [left|].
  - destruct Hp as [Hpay Hnext]. apply IH; [done|].
    destruct payload as [d|]; [|done]. simpl.
    destruct Hok as (Ht & Hi & Hw & Hr & Hrows).
    split; [done|]. split; [done|]. simpl.
    split; [|split; [|done]].
    + apply Forall_app; split; [done|]; by apply Forall_singleton.
    + destruct (tables d); [|done].
      apply Forall_app; split; [done|]; by apply Forall_singleton.
  - apply IH; [done|]. unfold hideMini. by apply pending_ok_rows; [left|].
Qed.

Lemma interval_callback_pending h t now st :
  pending_ok table st → intervals st !! h = Some t →
  pending_ok table (interval_callback E h t now st).
Proof.
  intros Hok Hh. unfold interval_callback.
  destruct (proj1 (proj2 Hok) h t Hh) as [Htotal Hdone].
  assert (H1 : pending_ok table
                 (with_rows (alter (show_progress (t_total t) (seconds_left t now))
                               (t_row t) (rows st)) st)).
  { apply pending_ok_rows; [|done]. intros rw. right. simpl.
    destruct (fill rw); [|done]. simpl. apply percent_done_real. }
  destruct (le_zero (seconds_left t now)); [|done].
  apply exec_pending; [done|].
  destruct H1 as (Ht & Hi & Hw & Hr & Hrows).
  split; [done|]. split; [|done]. simpl.
  intros h' t' [_ Hh']%lookup_delete_Some. eauto.
Qed.

Lemma resume_pending i job k now st :
  (∀ res, guarded (k res)) → pending_ok table st →
  pending_ok table (resume E i job k now st).
Proof.
  intros Hk Hok. unfold resume.
  pose proof (advance_pending job now st Hok) as Hok'.
  destruct (advance E job now st) as [job' st']. simpl in Hok'.
  assert (Hdel : pending_ok table (with_tasks (delete i (tasks st')) st')).
  { destruct Hok' as (Ht & Hi & Hw & Hr & Hrows). split; [|done]. simpl.
    intros j tk [_ Htk]%lookup_delete_Some. eauto. }
  assert (Hins : pending_ok table (with_tasks (<[i := (job', k)]> (tasks st')) st')).
  { destruct Hok' as (Ht & Hi & Hw & Hr & Hrows). split; [|done]. simpl.
    intros j tk [[_ <-] | [_ Htk]]%lookup_insert_Some; eauto. }
  destruct job'; try done; by apply exec_pending.
Qed.

Lemma step_pending ev st st' :
  pending_ok table st → step E ev st = Some st' → pending_ok table st'.
Proof.
  intros Hok Hstep.
  destruct ev as [r now|r now|r now|h now|i rp now|i now];
    cbn -[exec handleResolve handleArchive handleUnarchive interval_callback resume]
      in Hstep.
  - destruct (rows st !! r); [|done]. apply (inj Some) in Hstep; subst st'.
    apply exec_pending; [apply guarded_handleResolve|done].
  - destruct (rows st !! r); [|done]. apply (inj Some) in Hstep; subst st'.
    apply exec_pending; [apply guarded_handleArchive|done].
  - destruct (rows st !! r); [|done]. apply (inj Some) in Hstep; subst st'.
    apply exec_pending; [apply guarded_handleUnarchive|done].
  - destruct (intervals st !! h) as [t|] eqn:Hh; [|done].
    apply (inj Some) in Hstep; subst st'. by apply interval_callback_pending.
  - destruct (tasks st !! i) as [[job k]|] eqn:Hi; [|done].
    cbn -[resume] in Hstep.
    destruct job; try done. apply (inj Some) in Hstep; subst st'.
    apply resume_pending; [|done]. exact (proj1 Hok i _ Hi).
  - destruct (tasks st !! i) as [[job k]|] eqn:Hi; [|done].
    cbn -[resume] in Hstep.
    destruct job; try done. apply (inj Some) in Hstep; subst st'.
    apply resume_pending; [|done]. exact (proj1 Hok i _ Hi).
Qed.

Lemma run_pending evs : ∀ st st',
  pending_ok table st → run E evs st = Some st' → pending_ok table st'.
Proof.
  induction evs as [|ev evs IH]; intros st st' Hok Hrun; simpl in Hrun.
  - by injection Hrun as <-.
  - destruct (step E ev st) as [st1|] eqn:Hstep; [|done]. simpl in Hrun.
    eapply IH; [|exact Hrun]. by eapply step_pending.
Qed.

End Machine.

(** X7.  Whatever the server answers and in whatever order clicks, ticks and
    replies arrive, the wallet, the counters and the tables of the page are
    only ever updated from a body that says [ok: true]: a failure body, a
    [too_early] body, the value [null] or a rejected call never reaches
    [VM.updateCountsWallet] or [VM.render.renderAll]. *)
Theorem updates_only_from_ok_bodies E evs table st :
  run E evs (initial table) = Some st →
  (∀ payload, payload ∈ wallet_updates st → ∃ d, payload = Some d ∧ ok d = true)
  ∧ (∀ payload, payload ∈ renders st → ∃ d, payload = Some d ∧ ok d = true).
Proof.
  intros Hrun.
  destruct (run_pending E table evs _ _ (pending_ok_initial table) Hrun)
    as (_ & _ & Hw & Hr & _).
  rewrite Forall_forall in Hw, Hr.
  split; intros payload Hin; [apply Hw in Hin|apply Hr in Hin];
    (destruct payload as [d|]; [by exists d|done]).
Qed.




(** ** The calls of one resolve click *)

Definition is_countdown (a : act) : bool :=
  match a with ACountdown _ _ _ => true | _ => false end.

Definition count_countdowns (l : list act) : nat :=
  length (List.filter is_countdown l).

(** A value a countdown of the flow is started with: a
    [seconds_remaining] that compares [> 0], or the primed remaining time
    when it is not [<= 0] (which [NaN] is not). *)
Definition counted (v : jsval) : Prop :=
  gt_zero v = true ∨ ∃ x, v = of_int x ∧ le_zero x = false.

(** A call of the resolve flow of row element [r], with row key [key] and
    port [pid]. *)
Definition own_act (r : nat) (key pid : string) (a : act) : Prop :=
  match a with
  | AStopTimer k => k = key
  | ARemaining p | AResolve p => p = pid
  | ACountdown r' k v => r' = r ∧ k = key ∧ counted v
  | AFinalizeResolve r' payload => r' = r ∧ is_ok payload = true
  | AHideMini r' => r' = r
  | AArchive _ | AUnarchive _ | AFinalizeArchive _ _ | ARefresh _ => False
  end.

Definition within (nr nc nl : nat) (r : nat) (key pid : string)
    (flow : list act) : Prop :=
  (count_resolves flow <= nr)%nat ∧ (count_countdowns flow <= nc)%nat
  ∧ (length flow <= nl)%nat ∧ Forall (own_act r key pid) flow.

Lemma within_ending r key pid res : within 0 0 1 r key pid [ending r res].
Proof.
  unfold within, count_resolves, count_countdowns.
  destruct res as [p2|]; simpl; [destruct (is_ok p2) eqn:Hok|]; simpl;
    repeat split; try lia; by apply Forall_singleton.
Qed.

Lemma within_retry r key pid answers :
  within 1 0 2 r key pid (play (CallResolve pid (after_retry r)) answers).
Proof.
  cbn [play]. destruct answers as [|res rest].
  - unfold within, count_resolves, count_countdowns. simpl.
    repeat split; try lia. by apply Forall_singleton.
  - rewrite play_after_retry.
    destruct (within_ending r key pid res) as (H1 & H2 & H3 & H4).
    unfold within, count_resolves, count_countdowns in *. simpl in *.
    repeat split; try lia. by apply Forall_cons.
Qed.

Lemma within_resolve r key pid answers :
  within 2 1 4 r key pid (play (CallResolve pid (after_resolve r key pid)) answers).
Proof.
  cbn [play]. destruct answers as [|res rest].
  - unfold within, count_resolves, count_countdowns. simpl.
    repeat split; try lia. by apply Forall_singleton.
  - assert (Hrest : within 1 1 3 r key pid (play (after_resolve r key pid res) rest)).
    { destruct res as [payload|]; cbn [after_resolve].
      - destruct (is_ok payload) eqn:Hok; [|destruct (is_too_early payload) eqn:He].
        + unfold within, count_resolves, count_countdowns. simpl.
          repeat split; try lia. by apply Forall_singleton.
        + cbn [play].
          destruct (within_retry r key pid rest) as (H1 & H2 & H3 & H4).
          unfold within, count_resolves, count_countdowns in *. simpl in *.
          repeat split; try lia. apply Forall_cons. split; [|done].
          simpl. repeat split; try done. left. by apply is_too_early_seconds.
        + unfold within, count_resolves, count_countdowns. simpl.
          repeat split; try lia. by apply Forall_singleton.
      - unfold within, count_resolves, count_countdowns. simpl.
        repeat split; try lia. by apply Forall_singleton. }
    destruct Hrest as (H1 & H2 & H3 & H4).
    unfold within, count_resolves, count_countdowns in *. simpl in *.
    repeat split; try lia. by apply Forall_cons.
Qed.

(** X9.  Whatever the calls of a resolve click are answered, the flow opens
    by stopping the row's own timer and priming the server, makes at most two
    resolve calls and starts at most two countdowns (seven steps in all),
    addresses only the clicked row, its key and its port, starts a countdown
    only with a [seconds_remaining] that compares [> 0] or with a primed
    remaining time that is not [<= 0], finalizes with an [ok] payload only,
    and never archives, unarchives or re-renders. *)
Theorem resolve_flow_bounded r rw answers :
  let pid := data_port_id rw in
  let key := row_key rw in
  let flow := play (handleResolve r rw) answers in
  take 2 flow = [AStopTimer key; ARemaining pid]
  ∧ (count_resolves flow <= 2)%nat
  ∧ (count_countdowns flow <= 2)%nat
  ∧ (length flow <= 7)%nat
  ∧ Forall (own_act r key pid) flow.
Proof.
  intros pid key flow. subst flow. unfold handleResolve. fold pid key.
  cbn [play]. split; [done|].
  destruct answers as [|prime rest].
  { unfold count_resolves, count_countdowns. simpl. repeat split; try lia.
    by repeat (apply Forall_cons; split; [done|]). }
  assert (Hrest : within 2 2 5 r key pid
            (play (after_remaining r key pid prime) rest)).
  { destruct prime as [data|]; cbn [after_remaining].
    - destruct (le_zero (primed_remaining data)) eqn:Hrem.
      + destruct (within_resolve r key pid rest) as (H1 & H2 & H3 & H4).
        unfold within. repeat split; try lia; done.
      + cbn [play].
        destruct (within_resolve r key pid rest) as (H1 & H2 & H3 & H4).
        unfold within, count_resolves, count_countdowns in *. simpl in *.
        repeat split; try lia. apply Forall_cons. split; [|done].
        simpl. split; [done|]. split; [done|]. right. by eexists.
    - destruct (within_resolve r key pid rest) as (H1 & H2 & H3 & H4).
      unfold within. repeat split; try lia; done. }
  destruct Hrest as (H1 & H2 & H3 & H4).
  unfold count_resolves, count_countdowns in *. simpl in *.
  repeat split; try lia. by repeat (apply Forall_cons; split; [done|]).
Qed.

(** ** A click cancels the countdown of its row *)

Lemma retired_same h st st' : same_timers st st' → retired h st → retired h st'.
Proof. intros (_ & Hi & Hn) [H1 H2]. unfold retired. by rewrite Hi, Hn. Qed.

Lemma retired_stop key h st :
  timers_ok st → rowTimers st !! key = Some h →
  retired h (stopTimerForRow key st) ∧ rowTimers (stopTimerForRow key st) !! key = None.
Proof.
  intros Hok Hh. pose proof Hok as (_ & Hmap & Hfresh).
  destruct (Hmap key h Hh) as (t & Ht & _).
  unfold stopTimerForRow, retired. rewrite Hh. simpl.
  rewrite !lookup_delete_eq. split; [|done]. split; [done|]. by eapply Hfresh.
Qed.

(** The bodies of a resolve click, and of an archive click on a row with a
    port id, start with [stopTimerForRow(key)] and then make one api call. *)
Lemma click_body r rw :
  (∃ k, handleResolve r rw
        = StopTimerForRow (row_key rw) (CallRemaining (data_port_id rw) k))
  ∧ (data_port_id rw ≠ "" →
     ∃ k, handleArchive r rw
          = StopTimerForRow (row_key rw) (CallArchive (data_port_id rw) k)).
Proof.
  split; [by eexists|]. intros Hpid. unfold handleArchive.
  destruct (decide (data_port_id rw = "")); [done|]. by eexists.
Qed.

Section Clicks.

Variable E : entropy.

Lemma stop_then_call_remaining key pid k now st h :
  timers_ok st → rowTimers st !! key = Some h →
  let st' := exec E now (StopTimerForRow key (CallRemaining pid k)) st in
  retired h st' ∧ rowTimers st' !! key = None
  ∧ sent st' = sent st ++ [GetRemaining pid] ∧ keys st' = keys st
  ∧ rows st' = rows st.
Proof.
  intros Hok Hh. cbv zeta.
  destruct (retired_stop key h st Hok Hh) as [Hret Hnone].
  assert (Hnet : sent (stopTimerForRow key st) = sent st
                 ∧ keys (stopTimerForRow key st) = keys st
                 ∧ rows (stopTimerForRow key st) = rows st).
  { unfold stopTimerForRow. by rewrite Hh. }
  destruct Hnet as (Hs & Hk & Hr).
  cbn [exec]. unfold spawn, apiRemaining. cbn [advance]. simpl.
  rewrite Hs, Hk, Hr. destruct Hret as [Hgone Hlt]. by repeat split.
Qed.

Lemma stop_then_call_archive key pid k now st h :
  timers_ok st → rowTimers st !! key = Some h →
  let st' := exec E now (StopTimerForRow key (CallArchive pid k)) st in
  retired h st' ∧ rowTimers st' !! key = None
  ∧ sent st' = sent st ++ [PostArchive pid] ∧ keys st' = keys st
  ∧ rows st' = rows st.
Proof.
  intros Hok Hh. cbv zeta.
  destruct (retired_stop key h st Hok Hh) as [Hret Hnone].
  assert (Hnet : sent (stopTimerForRow key st) = sent st
                 ∧ keys (stopTimerForRow key st) = keys st
                 ∧ rows (stopTimerForRow key st) = rows st).
  { unfold stopTimerForRow. by rewrite Hh. }
  destruct Hnet as (Hs & Hk & Hr).
  cbn [exec]. unfold spawn, apiArchive. cbn [advance]. simpl.
  rewrite Hs, Hk, Hr. destruct Hret as [Hgone Hlt]. by repeat split.
Qed.

(** X10.  A click on the resolve button of a row, and a click on its
    archive button when the form holds a port id, while the row runs a
    countdown: the handler sends exactly one request (the priming GET resp.
    the archive POST, no idempotency key is drawn), leaves every row as it
    is, and cancels the countdown for good: the row key leaves the map, and
    whatever happens on the page afterwards the cancelled interval never runs
    again, so the resolve call it was to make is not made by it. *)
Theorem click_cancels_countdown evs table st r rw now h :
  run E evs (initial table) = Some st →
  rows st !! r = Some rw →
  rowTimers st !! row_key rw = Some h →
  let pid := data_port_id rw in
  (∃ st', step E (ClickResolve r now) st = Some st'
          ∧ sent st' = sent st ++ [GetRemaining pid]
          ∧ keys st' = keys st ∧ rows st' = rows st
          ∧ rowTimers st' !! row_key rw = None
          ∧ ∀ evs' st'', run E evs' st' = Some st'' → intervals st'' !! h = None)
  ∧ (pid ≠ "" →
     ∃ st', step E (ClickArchive r now) st = Some st'
            ∧ sent st' = sent st ++ [PostArchive pid]
            ∧ keys st' = keys st ∧ rows st' = rows st
            ∧ rowTimers st' !! row_key rw = None
            ∧ ∀ evs' st'', run E evs' st' = Some st'' → intervals st'' !! h = None).
Proof.
  intros Hrun Hr Hh pid.
  destruct (run_grows E evs _ _ (timers_ok_initial table) Hrun) as (Hok & _ & _).
  destruct (click_body r rw) as [[k1 Hres] Harch].
  assert (Hfor : ∀ st',
            step E (ClickResolve r now) st = Some st' ∨
            step E (ClickArchive r now) st = Some st' →
            retired h st' →
            ∀ evs' st'', run E evs' st' = Some st'' → intervals st'' !! h = None).
  { intros st' Hstep Hret evs' st'' Hrun'.
    assert (Hok' : timers_ok st').
    { destruct Hstep as [Hs | Hs]; by destruct (step_grows E _ _ _ Hok Hs). }
    pose proof (run_grows E evs' st' st'' Hok' Hrun') as Hg.
    by destruct (retired_grows h st' st'' Hg Hret). }
  split.
  - assert (Hstep : step E (ClickResolve r now) st
                    = Some (exec E now (handleResolve r rw) st)).
    { cbn -[exec handleResolve]. by rewrite Hr. }
    eexists. split; [exact Hstep|]. rewrite Hres in *.
    destruct (stop_then_call_remaining (row_key rw) pid k1 now st h Hok Hh)
      as (Hret & Hnone & Hs & Hk & Hrows).
    repeat split; try done. eapply Hfor; eauto.
  - intros Hpid. destruct (Harch Hpid) as [k2 Harc].
    assert (Hstep : step E (ClickArchive r now) st
                    = Some (exec E now (handleArchive r rw) st)).
    { cbn -[exec handleArchive]. by rewrite Hr. }
    eexists. split; [exact Hstep|]. rewrite Harc in *.
    destruct (stop_then_call_archive (row_key rw) pid k2 now st h Hok Hh)
      as (Hret & Hnone & Hs & Hk & Hrows).
    repeat split; try done. eapply Hfor; eauto.
Qed.

End Clicks.

(** ** The archive call *)

(** What [finalizeArchive] makes of a row. *)
Definition archived (rw : row) : row :=
  {| data_row_id := data_row_id rw; data_port_id := data_port_id rw;
     mini_hidden := set_if (mini_hidden rw) true;
     fill := fill rw; txt := txt rw;
     td_status := set_if (td_status rw) Archived;
     actions_cleared := set_if (actions_cleared rw) true |}.

(** The body of the answer, as the reaction of the archive call sees it. *)
Definition accepted (rp : reply) : option json :=
  match rp with
  | Http _ (Some (Some d)) => if ok d then Some d else None
  | _ => None
  end.

(** X11.  The archive call decides by the body alone: for every HTTP status,
    an answer whose body parses to an object with [ok: true] marks the row as
    archived, hides its mini indicator, clears its actions, refreshes the
    wallet and the counters from that body and, when the body holds all
    three tables, re-renders the tables from it; every other answer (a body
    without [ok], [null], an unparsable body, a network error) leaves the
    rows, the wallet and the tables as they were and shows no error.  One
    request is sent in either case. *)
Theorem archive_decided_by_body E st r rw now now' rp :
  rows st !! r = Some rw → data_port_id rw ≠ "" →
  ∃ st2,
    run E [ClickArchive r now; Reply (next_task st) rp now'] st = Some st2
    ∧ sent st2 = sent st ++ [PostArchive (data_port_id rw)]
    ∧ match accepted rp with
      | Some d =>
          rows st2 = alter archived r (rows st)
          ∧ wallet_updates st2 = wallet_updates st ++ [Some d]
          ∧ renders st2
            = if tables d then renders st ++ [Some d] else renders st
      | None =>
          rows st2 = rows st
          ∧ wallet_updates st2 = wallet_updates st
          ∧ renders st2 = renders st
      end.
Proof.
  intros Hr Hpid.
  destruct (stop_keeps (row_key rw) st) as (Ht & Hn & Hrows & Hs & Hw & Hre).
  cbn -[exec handleArchive resume]. rewrite Hr. cbn -[exec handleArchive resume].
  unfold handleArchive. destruct (decide (data_port_id rw = "")); [done|].
  cbn [exec]. unfold spawn, apiArchive. cbn [advance].
  cbn -[resume stopTimerForRow]. rewrite Hn, lookup_insert_eq.
  cbn -[resume stopTimerForRow].
  destruct rp as [status [[d|]|]|]; unfold resume; cbn -[stopTimerForRow];
    try (eexists; split; [reflexivity|]; cbn -[stopTimerForRow];
         by rewrite ?Hs, ?Hrows, ?Hw, ?Hre).
  destruct (ok d) eqn:Hok; cbn -[stopTimerForRow];
    (eexists; split; [reflexivity|]); cbn -[stopTimerForRow];
    rewrite ?Hs, ?Hrows, ?Hw, ?Hre; [|done].
  split; [done|]. split; [done|]. split; [done|]. by destruct (tables d).
Qed.

(** ** The server is primed before it is asked to resolve *)

(** The resolve requests an api call can still send are for ports in [P]. *)
Fixpoint posts_for (P : string → Prop) (job : net) : Prop :=
  match job with
  | Ret _ | Throw => True
  | GenKey k => ∀ key, posts_for P (k key)
  | Fetch rq k =>
      match rq with PostResolve pid _ => P pid | _ => True end
      ∧ ∀ r, posts_for P (k r)
  | Sleep _ k => posts_for P k
  end.

(** The same for a call that waits for its reply or its timeout. *)
Definition parked_for (P : string → Prop) (job : net) : Prop :=
  match job with
  | Fetch _ k => ∀ r, posts_for P (k r)
  | Sleep _ k => posts_for P k
  | _ => True
  end.

(** The resolve calls a handler body can still make are for ports in [P],
    or for a port the body has made a priming call for before. *)
Fixpoint resolves_for (p : proc) (P : string → Prop) : Prop :=
  match p with
  | Done => True
  | StopTimerForRow _ next | HideMini _ next | FinalizeResolve _ _ next
  | FinalizeArchive _ _ next | RefreshFromPayload _ next => resolves_for next P
  | CallResolve pid k => P pid ∧ ∀ res, resolves_for (k res) P
  | CallRemaining pid k => ∀ res, resolves_for (k res) (λ x, x = pid ∨ P x)
  | CallArchive _ k | CallUnarchive _ k => ∀ res, resolves_for (k res) P
  | StartMiniCountdown _ _ _ onDone => resolves_for onDone P
  end.

Lemma posts_for_mono (P Q : string → Prop) job :
  (∀ x, P x → Q x) → posts_for P job → posts_for Q job.
Proof.
  intros HPQ. induction job as [v| |k IH|rq k IH|ms job IH]; simpl; try done.
  - intros H key. eauto.
  - intros [Hrq Hk]. split; [destruct rq; auto|eauto].
Qed.

Lemma resolves_for_mono p : ∀ (P Q : string → Prop),
  (∀ x, P x → Q x) → resolves_for p P → resolves_for p Q.
Proof.
  induction p as [|rowKey next IH|pid k IH|pid k IH|pid k IH|pid k IH
                  |r rowId seconds onDone IH|r payload next IH
                  |r payload next IH|payload next IH|r next IH];
    intros P Q HPQ; simpl; eauto.
  - intros H res. apply (IH res (λ x, x = pid ∨ P x)); [|done].
    intros x [-> | Hx]; auto.
  - intros [Hpid H]. split; eauto.
Qed.

Lemma posts_for_apiResolve P fuel : ∀ pid attempt,
  P pid → posts_for P (apiResolve_fuel fuel pid attempt).
Proof.
  induction fuel as [|fuel IH]; intros pid attempt Hpid; simpl;
    intros key; (split; [done|]); intros [status body|]; try done;
    destruct (r_ok status); try (by destruct body as [[v|]|]);
    destruct (_ && _); try done.
  by apply IH.
Qed.

Lemma posts_for_json_of P body : posts_for P (json_of body).
Proof. by destruct body. Qed.

Lemma posts_for_apiRemaining P pid : posts_for P (apiRemaining pid).
Proof.
  split; [done|]. intros [status body|]; [|done].
  destruct (r_ok status); [apply posts_for_json_of|done].
Qed.

Lemma posts_for_apiArchive P pid : posts_for P (apiArchive pid).
Proof. split; [done|]. intros [status body|]; [apply posts_for_json_of|done]. Qed.

Lemma posts_for_apiUnarchive P pid : posts_for P (apiUnarchive pid).
Proof. split; [done|]. intros [status body|]; [apply posts_for_json_of|done]. Qed.

Lemma resolves_for_after_retry r res P : resolves_for (after_retry r res) P.
Proof. destruct res as [p2|]; simpl; [|done]. by destruct (is_ok p2). Qed.

Lemma resolves_for_after_resolve r rowId pid res (P : string → Prop) :
  P pid → resolves_for (after_resolve r rowId pid res) P.
Proof.
  intros Hpid. destruct res as [payload|]; simpl; [|done].
  destruct (is_ok payload); [done|]. destruct (is_too_early payload); [|done].
  simpl. split; [done|]. intros res. apply resolves_for_after_retry.
Qed.

Lemma resolves_for_handleResolve r rw P : resolves_for (handleResolve r rw) P.
Proof.
  unfold handleResolve. simpl. intros [data|]; simpl.
  - destruct (le_zero (primed_remaining data)); simpl;
      (split; [by left|]); intros res;
      apply resolves_for_after_resolve; by left.
  - split; [by left|]. intros res.
    apply resolves_for_after_resolve. by left.
Qed.

Lemma resolves_for_handleArchive r rw P : resolves_for (handleArchive r rw) P.
Proof.
  unfold handleArchive. destruct (decide _); simpl; [done|].
  intros [data|]; [|done]. by destruct (is_ok data).
Qed.

Lemma resolves_for_handleUnarchive r rw P : resolves_for (handleUnarchive r rw) P.
Proof.
  unfold handleUnarchive. destruct (decide _); simpl; [done|].
  intros [data|]; [|done]. by destruct (is_ok data).
Qed.

(** The ports a priming request has been sent for. *)
Definition primed (st : state) (pid : string) : Prop := GetRemaining pid ∈ sent st.

(** Every resolve request in the list comes after a priming request for
    its port. *)
Definition in_order (l : list request) : Prop :=
  ∀ i pid key, l !! i = Some (PostResolve pid key) →
    ∃ j, (j < i)%nat ∧ l !! j = Some (GetRemaining pid).

Definition ordered (st : state) : Prop :=
  (∀ i tk, tasks st !! i = Some tk →
     parked_for (primed st) tk.1 ∧ ∀ res, resolves_for (tk.2 res) (primed st))
  ∧ (∀ h t, intervals st !! h = Some t → resolves_for (t_onDone t) (primed st))
  ∧ in_order (sent st).

Lemma in_order_snoc l rq :
  in_order l →
  match rq with PostResolve pid _ => GetRemaining pid ∈ l | _ => True end →
  in_order (l ++ [rq]).
Proof.
  intros Hl Hrq i pid key [[Hlt Hi] | [-> Heq]]%lookup_snoc_Some.
  - destruct (Hl i pid key Hi) as (j & Hj & Hlook).
    exists j. split; [done|]. by apply lookup_app_l_Some.
  - subst rq. apply list_elem_of_lookup in Hrq as [j Hj].
    exists j. split; [by eapply lookup_lt_Some|]. by apply lookup_app_l_Some.
Qed.

(** A state with the same tasks, intervals and requests. *)
Lemma ordered_same st st' :
  tasks st' = tasks st → intervals st' = intervals st → sent st' = sent st →
  ordered st → ordered st'.
Proof.
  intros Ht Hi Hs. unfold ordered, primed. by rewrite Ht, Hi, Hs.
Qed.

Lemma ordered_initial table : ordered (initial table).
Proof.
  split; [|split]; simpl.
  - intros i tk Hi. by rewrite lookup_empty in Hi.
  - intros h t Hh. by rewrite lookup_empty in Hh.
  - intros i pid key Hi. by rewrite lookup_nil in Hi.
Qed.

Lemma ordered_stop rowKey st : ordered st → ordered (stopTimerForRow rowKey st).
Proof.
  intros (Ht & Hi & Hs). unfold stopTimerForRow.
  destruct (rowTimers st !! rowKey) as [h0|]; [|done].
  split; [done|]. split; [|done]. simpl.
  intros h t [_ Hh]%lookup_delete_Some. exact (Hi h t Hh).
Qed.

Lemma ordered_start r rowId seconds onDone now st :
  resolves_for onDone (primed st) → ordered st →
  ordered (startMiniCountdown r rowId seconds onDone now st).
Proof.
  intros Hdone Hok. unfold startMiniCountdown.
  match goal with
  | |- context [stopTimerForRow rowId ?s] =>
      assert (H1 : ordered (stopTimerForRow rowId s))
        by (apply ordered_stop; by apply (ordered_same st));
      assert (Hsent : sent (stopTimerForRow rowId s) = sent st)
        by (unfold stopTimerForRow; by destruct (rowTimers s !! rowId))
  end.
  destruct H1 as (Ht & Hi & Hs). unfold ordered, primed in *. simpl.
  rewrite Hsent in *.
  split; [done|]. split; [|done].
  intros h t [[_ <-] | [_ Hh]]%lookup_insert_Some; [done|exact (Hi h t Hh)].
Qed.

Section Order.

Variable E : entropy.

(** The sent requests only grow. *)
Lemma advance_sent job : ∀ now st,
  ∃ more, sent (advance E job now st).2 = sent st ++ more
          ∧ tasks (advance E job now st).2 = tasks st
          ∧ intervals (advance E job now st).2 = intervals st.
Proof.
  induction job as [v| |k IH|rq k IH|ms job IH]; intros now st; simpl;
    try (exists []; by rewrite app_nil_r).
  - match goal with
    | |- context [advance E (k ?key) now ?s] =>
        destruct (IH key now s) as (more & H1 & H2 & H3)
    end.
    by exists more.
  - by exists [rq].
Qed.

Lemma primed_more st st' more :
  sent st' = sent st ++ more → ∀ x, primed st x → primed st' x.
Proof. intros Hs x Hx. unfold primed in *. rewrite Hs. set_solver. Qed.

Lemma advance_ordered job : ∀ now st,
  posts_for (primed st) job → in_order (sent st) →
  in_order (sent (advance E job now st).2)
  ∧ parked_for (primed (advance E job now st).2) (advance E job now st).1.
Proof.
  induction job as [v| |k IH|rq k IH|ms job IH]; intros now st Hjob Hs; simpl in *;
    try done.
  - match goal with
    | |- context [advance E (k ?key) now ?s] => apply (IH key now s)
    end; [apply Hjob|done].
  - destruct Hjob as [Hrq Hk]. split.
    + apply in_order_snoc; [done|]. by destruct rq.
    + intros r. eapply posts_for_mono; [|apply Hk].
      intros x Hx. unfold primed in *. simpl. set_solver.
Qed.

Lemma ordered_more st st' :
  (∃ more, sent st' = sent st ++ more) →
  tasks st' = tasks st → intervals st' = intervals st →
  in_order (sent st') → ordered st → ordered st'.
Proof.
  intros [more Hs] Ht Hi Hord (Htasks & Hiv & _).
  pose proof (primed_more st st' more Hs) as Hmono.
  split; [|split; [|done]].
  - rewrite Ht. intros i tk Htk. destruct (Htasks i tk Htk) as [Hj Hk]. split.
    + destruct tk.1; simpl in *; try done.
      * intros r. by eapply posts_for_mono.
      * by eapply posts_for_mono.
    + intros res. by eapply resolves_for_mono.
  - rewrite Hi. intros h t Hh. eapply resolves_for_mono; [exact Hmono|]. eauto.
Qed.

Lemma spawn_ordered job k now st :
  posts_for (primed st) job →
  (∀ res, resolves_for (k res) (primed (advance E job now st).2)) →
  ordered st → ordered (spawn E job k now st).
Proof.
  intros Hjob Hk Hok. unfold spawn.
  destruct (advance_sent job now st) as (more & Hs & Ht & Hi).
  destruct (advance_ordered job now st Hjob (proj2 (proj2 Hok))) as [Hord Hpark].
  pose proof (ordered_more st _ (ex_intro _ more Hs) Ht Hi Hord Hok) as Hok'.
  destruct (advance E job now st) as [job' st']. simpl in *.
  destruct Hok' as (Htasks & Hiv & Hsent).
  split; [|split; [done|done]]. simpl.
  intros i tk [[_ <-] | [_ Htk]]%lookup_insert_Some; [done|exact (Htasks i tk Htk)].
Qed.

Lemma exec_ordered p : ∀ now st,
  resolves_for p (primed st) → ordered st → ordered (exec E now p st).
Proof.
  induction p as [|rowKey next IH|pid k _|pid k _|pid k _|pid k _
                  |r rowId seconds onDone _|r payload next IH
                  |r payload next IH|payload next IH|r next IH];
    intros now st Hp Hok; simpl in *.
  - done.
  - apply IH; [|by apply ordered_stop].
    eapply resolves_for_mono; [|exact Hp]. intros x Hx. unfold primed in *.
    unfold stopTimerForRow. by destruct (rowTimers st !! rowKey).
  - apply spawn_ordered; [apply posts_for_apiRemaining| |done].
    intros res. eapply resolves_for_mono; [|apply Hp].
    intros x [-> | Hx]; unfold primed in *; simpl; set_solver.
  - destruct Hp as [Hpid Hk]. apply spawn_ordered; [|  |done].
    + by apply posts_for_apiResolve.
    + intros res. eapply resolves_for_mono; [|apply Hk].
      destruct (advance_sent (apiResolve pid 0) now st) as (more & Hs & _).
      by apply (primed_more st _ more).
  - apply spawn_ordered; [apply posts_for_apiArchive| |done].
    intros res. eapply resolves_for_mono; [|apply Hp].
    intros x Hx. unfold primed in *. simpl. set_solver.
  - apply spawn_ordered; [apply posts_for_apiUnarchive| |done].
    intros res. eapply resolves_for_mono; [|apply Hp].
    intros x Hx. unfold primed in *. simpl. set_solver.
  - by apply ordered_start.
  - apply IH; [done|]. by apply (ordered_same st).
  - apply IH; [done|]. by apply (ordered_same st).
  - destruct payload as [d|]; apply IH; done.
  - apply IH; [done|]. by apply (ordered_same st).
Qed.

Lemma interval_callback_ordered h t now st :
  ordered st → intervals st !! h = Some t →
  ordered (interval_callback E h t now st).
Proof.
  intros Hok Hh. unfold interval_callback.
  pose proof (proj1 (proj2 Hok) h t Hh) as Hdone.
  destruct (le_zero (seconds_left t now)); [|by apply (ordered_same st)].
  apply exec_ordered; [done|].
  destruct Hok as (Ht & Hi & Hs). split; [done|]. split; [|done]. simpl.
  intros h' t' [_ Hh']%lookup_delete_Some. exact (Hi h' t' Hh').
Qed.

Lemma resume_ordered i job k now st :
  posts_for (primed st) job → (∀ res, resolves_for (k res) (primed st)) →
  ordered st → ordered (resume E i job k now st).
Proof.
  intros Hjob Hk Hok. unfold resume.
  destruct (advance_sent job now st) as (more & Hs & Ht & Hi).
  destruct (advance_ordered job now st Hjob (proj2 (proj2 Hok))) as [Hord Hpark].
  pose proof (ordered_more st _ (ex_intro _ more Hs) Ht Hi Hord Hok) as Hok'.
  pose proof (primed_more st _ more Hs) as Hmono.
  destruct (advance E job now st) as [job' st']. simpl in *.
  assert (Hk' : ∀ res, resolves_for (k res) (primed st'))
    by (intros res; by eapply resolves_for_mono).
  assert (Hdel : ordered (with_tasks (delete i (tasks st')) st')).
  { destruct Hok' as (Htasks & Hiv & Hsent). split; [|done]. simpl.
    intros j tk [_ Htk]%lookup_delete_Some. exact (Htasks j tk Htk). }
  assert (Hins : ordered (with_tasks (<[i := (job', k)]> (tasks st')) st')).
  { destruct Hok' as (Htasks & Hiv & Hsent). split; [|done]. simpl.
    intros j tk [[_ <-] | [_ Htk]]%lookup_insert_Some; [done|exact (Htasks j tk Htk)]. }
  destruct job'; try done; apply exec_ordered; try done; apply Hk'.
Qed.

Lemma step_ordered ev st st' : ordered st → step E ev st = Some st' → ordered st'.
Proof.
  intros Hok Hstep.
  destruct ev as [r now|r now|r now|h now|i rp now|i now];
    cbn -[exec handleResolve handleArchive handleUnarchive interval_callback resume]
      in Hstep.
  - destruct (rows st !! r); [|done]. apply (inj Some) in Hstep; subst st'.
    apply exec_ordered; [apply resolves_for_handleResolve|done].
  - destruct (rows st !! r); [|done]. apply (inj Some) in Hstep; subst st'.
    apply exec_ordered; [apply resolves_for_handleArchive|done].
  - destruct (rows st !! r); [|done]. apply (inj Some) in Hstep; subst st'.
    apply exec_ordered; [apply resolves_for_handleUnarchive|done].
  - destruct (intervals st !! h) as [t|] eqn:Hh; [|done].
    apply (inj Some) in Hstep; subst st'. by apply interval_callback_ordered.
  - destruct (tasks st !! i) as [[job k]|] eqn:Hi; [|done].
    cbn -[resume] in Hstep.
    destruct (proj1 Hok i _ Hi) as [Hpark Hk].
    destruct job; try done. apply (inj Some) in Hstep; subst st'.
    apply resume_ordered; done.
  - destruct (tasks st !! i) as [[job k]|] eqn:Hi; [|done].
    cbn -[resume] in Hstep.
    destruct (proj1 Hok i _ Hi) as [Hpark Hk].
    destruct job; try done. apply (inj Some) in Hstep; subst st'.
    apply resume_ordered; done.
Qed.

Lemma run_ordered evs : ∀ st st', ordered st → run E evs st = Some st' → ordered st'.
Proof.
  induction evs as [|ev evs IH]; intros st st' Hok Hrun; simpl in Hrun.
  - by injection Hrun as <-.
  - destruct (step E ev st) as [st1|] eqn:Hstep; [|done]. simpl in Hrun.
    eapply IH; [|exact Hrun]. by eapply step_ordered.
Qed.

(** X20.  Whatever happens on the page, no resolve request is sent for a
    port before a priming request for that port: every POST to the resolve
    endpoint (first attempts, retries after a conflict, retries after a
    countdown) comes later than a GET of the remaining time of the same
    port, also when the priming call failed or is still unanswered by then
    for another click. *)
Theorem resolve_follows_priming evs table st i pid key :
  run E evs (initial table) = Some st →
  sent st !! i = Some (PostResolve pid key) →
  ∃ j, (j < i)%nat ∧ sent st !! j = Some (GetRemaining pid).
Proof.
  intros Hrun Hi.
  destruct (run_ordered evs _ _ (ordered_initial table) Hrun) as (_ & _ & Hs).
  by apply (Hs i pid key).
Qed.

End Order.

End Browser.

(** ** The page with one discovered row *)

Section Examples.

#[local] Existing Instance decimal_browser.

Lemma updates_only_from_ok_bodies_witness :
  ∃ st, run uuid_source busy_click (initial one_row) = Some st
        ∧ ∀ payload, payload ∈ wallet_updates st → ∃ d, payload = Some d ∧ ok d = true.
Proof.
  eexists. split; [vm_compute; reflexivity|].
  refine (proj1 (updates_only_from_ok_bodies (B := decimal_browser) uuid_source busy_click one_row _ _)).
  vm_compute. reflexivity.
Defined.


(** The longest flow: a priming countdown, a [too_early] answer, a second
    countdown and the retry. *)
Example longest_resolve_flow :
  play (handleResolve 0 (discovered_row "17"))
       [Fulfilled (Some {| ok := true; error := None; seconds_remaining := None;
                           remaining := Some (JNum 3); tables := false;
                           content := 0 |});
        Fulfilled (Some (early_body (JNum 2))); Fulfilled (Some ok_body)]
  = [AStopTimer "17"; ARemaining "17"; ACountdown 0 "17" (JNum 3); AResolve "17";
     ACountdown 0 "17" (JNum 2); AResolve "17"; AFinalizeResolve 0 (Some ok_body)].
Proof. vm_compute. reflexivity. Qed.

Lemma click_cancels_countdown_witness :
  ∃ st, run uuid_source (take 6 busy_click) (initial one_row) = Some st
        ∧ rowTimers st !! "17" = Some 1%positive
        ∧ ∃ st', step uuid_source (ClickArchive 0 1800) st = Some st'
                 ∧ sent st' = sent st ++ [PostArchive "17"]
                 ∧ rowTimers st' !! "17" = None.
Proof.
  eexists. split; [vm_compute; reflexivity|]. split; [reflexivity|].
  lazymatch goal with
  | |- ∃ st', step _ _ ?s = _ ∧ _ =>
      destruct (click_cancels_countdown (B := decimal_browser) uuid_source (take 6 busy_click) one_row
                  s 0%nat
                  {| data_row_id := "17"; data_port_id := "17";
                     mini_hidden := Some false; fill := Some (Pct 0);
                     txt := Some (Hourglass (JNum 2)); td_status := Some Discovered;
                     actions_cleared := Some false |}
                  1800 1%positive)
        as [_ Harchive]
  end.
  - vm_compute. reflexivity.
  - vm_compute. reflexivity.
  - vm_compute. reflexivity.
  - destruct (Harchive ltac:(done)) as (st' & Hstep & Hsent & _ & _ & Hgone & _).
    exists st'. split; [exact Hstep|]. split; [exact Hsent|exact Hgone].
Defined.

Lemma archive_decided_by_body_witness :
  ∃ st2,
    run uuid_source [ClickArchive 0 10; Reply 0 (Http 500 (Some (Some ok_body))) 20]
        (initial one_row) = Some st2
    ∧ td_status <$> rows st2 !! 0%nat = Some (Some Archived)
    ∧ sent st2 = [PostArchive "17"].
Proof.
  destruct (archive_decided_by_body (B := decimal_browser) uuid_source (initial one_row) 0%nat
              (discovered_row "17") 10 20 (Http 500 (Some (Some ok_body)))
              ltac:(reflexivity) ltac:(done)) as (st2 & Hrun & Hsent & Hrows & _).
  exists st2. split; [exact Hrun|]. split; [|exact Hsent].
  simpl in Hrows. rewrite Hrows. reflexivity.
Defined.

Lemma resolve_follows_priming_witness :
  ∃ st, run uuid_source busy_click (initial one_row) = Some st
        ∧ sent st !! 3%nat = Some (PostResolve "17" "uuid-2")
        ∧ ∃ j, (j < 3)%nat ∧ sent st !! j = Some (GetRemaining "17").
Proof.
  eexists. split; [vm_compute; reflexivity|]. split; [reflexivity|].
  refine (resolve_follows_priming (B := decimal_browser) uuid_source busy_click one_row _ 3%nat "17"
            "uuid-2" _ _).
  - vm_compute. reflexivity.
  - reflexivity.
Defined.

End Examples.

End ResolveMore.

(* ===================================================================== *)
(** * News search: the timer line and the polling loop                    *)
(* ===================================================================== *)
Module NewsMore.
Import News.

(** ** The seconds on the timer line *)

(** [remainingSec] is the least whole number of seconds that covers the
    time left. *)
Lemma remaining_sec_spec now e :
  0 <= remaining_sec now e
  ∧ (inject_Z (1000 * (remaining_sec now e - 1)) < Qmax 0 (e - inject_Z now))%Q
  ∧ (Qmax 0 (e - inject_Z now) <= inject_Z (1000 * remaining_sec now e))%Q.
Proof.
  unfold remaining_sec. set (d := Qmax 0 (e - inject_Z now)).
  assert (Hd : (0 <= d)%Q) by apply Q.le_max_l.
  pose proof (Qle_ceiling (d / 1000)) as Hup.
  pose proof (Qceiling_lt (d / 1000)) as Hlow.
  set (n := Qceiling (d / 1000)) in *.
  unfold Qdiv in Hup, Hlow. change (/ 1000)%Q with (1 # 1000)%Q in Hup, Hlow.
  rewrite !inject_Z_mult. unfold Z.sub in *. rewrite inject_Z_plus in *.
  change (inject_Z 1000) with 1000%Q. change (inject_Z (-1)) with (-1)%Q in *.
  split; [|split; lra].
  destruct (Z_lt_le_dec n 0) as [Hneg|]; [|done].
  assert (Hn : (inject_Z n <= inject_Z (-1))%Q) by (rewrite <- Zle_Qle; lia).
  change (inject_Z (-1)) with (-1)%Q in Hn. lra.
Qed.

(** What [formatRemaining] shows for [s] seconds. *)
Definition reads (t : timer_text) (s : Z) : Prop :=
  match t with
  | Finalizing => s <= 0
  | Sec sec => sec = s ∧ 0 < s < 60
  | MinSec m sec => 0 < m ∧ 0 <= sec < 60 ∧ 60 * m + sec = s
  | Blank | SearchDone => False
  end.

Lemma formatRemaining_reads s : reads (formatRemaining s) s.
Proof.
  unfold formatRemaining. destruct (s <=? 0) eqn:Hs; simpl.
  - by apply Z.leb_le.
  - apply Z.leb_gt in Hs.
    pose proof (Z.div_mod s 60 ltac:(lia)) as Hdm.
    pose proof (Z.mod_pos_bound s 60 ltac:(lia)) as Hmod.
    destruct (0 <? s / 60) eqn:Hm; simpl.
    + apply Z.ltb_lt in Hm. lia.
    + apply Z.ltb_ge in Hm.
      assert (s / 60 = 0) by (pose proof (Z.div_pos s 60); lia). lia.
Qed.

Lemma updateProgressUI_timer now p j started e :
  current p = Some j → status j = InProgress → timed j started e →
  timerEl (updateProgressUI now p)
  = set_if (timerEl p) (formatRemaining (remaining_sec now e))
  ∧ pollTimer (updateProgressUI now p)
    = (if remaining_sec now e <=? 1 then Some 1500 else pollTimer p).
Proof.
  intros Hj Hst (Hs & He & Hlt). unfold updateProgressUI.
  rewrite Hj, Hst, Hs, He.
  destruct (Qlt_le_dec (inject_Z started) e) as [_|Hle]; [|lra].
  by destruct (remaining_sec now e <=? 1).
Qed.

(** X12.  A tick on a running job with valid times writes the time left
    onto the timer line as whole seconds, rounded up: the line reads
    "finalizing" exactly when the estimated end has been reached, and
    otherwise shows [n] seconds, split into minutes and seconds below 60 (the
    minutes only when there are any), where [n] is the least whole number of
    seconds covering the time to the estimated end. *)
Theorem timer_line_counts_whole_seconds now p j started e :
  current p = Some j → status j = InProgress → timed j started e →
  ∃ t n,
    timerEl (updateProgressUI now p) = set_if (timerEl p) t
    ∧ reads t n
    ∧ (n <= 0 ↔ (e <= inject_Z now)%Q)
    ∧ (0 < n →
       (inject_Z (1000 * (n - 1)) < e - inject_Z now <= inject_Z (1000 * n))%Q).
Proof.
  intros Hj Hst Ht.
  destruct (updateProgressUI_timer now p j started e Hj Hst Ht) as [Htimer _].
  exists (formatRemaining (remaining_sec now e)), (remaining_sec now e).
  split; [done|]. split; [apply formatRemaining_reads|].
  destruct (remaining_sec_spec now e) as (Hn & Hlow & Hup).
  set (n := remaining_sec now e) in *.
  rewrite !inject_Z_mult in *. unfold Z.sub in *. rewrite inject_Z_plus in *.
  change (inject_Z 1000) with 1000%Q in *.
  change (inject_Z (- (1))) with (-1)%Q in *.
  destruct (Q.max_spec 0 (e - inject_Z now)) as [[Hpos Hmax] | [Hneg Hmax]];
    rewrite Hmax in Hlow, Hup.
  - assert (Hn1 : 0 < n).
    { destruct (Z_lt_le_dec 0 n) as [|Hle]; [done|].
      assert (n = 0) as -> by lia. change (inject_Z 0) with 0%Q in Hup. lra. }
    split; [split; [lia|lra]|]. intros _. split; lra.
  - assert (Hn0 : n = 0).
    { destruct (Z_lt_le_dec 0 n) as [Hlt|]; [|lia].
      assert (H1 : (inject_Z 1 <= inject_Z n)%Q) by (rewrite <- Zle_Qle; lia).
      change (inject_Z 1) with 1%Q in H1. lra. }
    split; [split; [lra|lia]|]. lia.
Qed.

Lemma timer_line_counts_whole_seconds_witness :
  ∃ t n,
    timerEl (updateProgressUI 3500 (renderJob (Some ten_seconds) 0 blank_page))
    = Some t
    ∧ reads t n ∧ t = Sec 7.
Proof.
  destruct (timer_line_counts_whole_seconds 3500
              (renderJob (Some ten_seconds) 0 blank_page) ten_seconds 0 10000
              eq_refl eq_refl ltac:(by repeat split))
    as (t & n & Hline & Hreads & _).
  exists t, n. split; [exact Hline|]. split; [exact Hreads|].
  vm_compute in Hline. by injection Hline as <-.
Defined.

(** ** The polling loop *)

(** The body of an answer of the start and the status endpoint. *)
Record answer := {
  a_ok : bool;
  a_job : option job       (* body.job || null *)
}.

(** What the chain [fetch(...).then(r => r.json().then(...))] ends with: a
    status and a parsed body ([Some None]: the JSON value [null]; [None]:
    not JSON), or a rejected [fetch]. *)
Inductive reply :=
  | Http (status : Z) (body : option (option answer))
  | NetErr.

(** [status === 200 && body && body.ok], with the job of the body. *)
Definition accepted (r : reply) : option (option job) :=
  match r with
  | Http status (Some (Some a)) =>
      if (status =? 200) && a_ok a then Some (a_job a) else None
  | _ => None
  end.

(** [job && job.status === 'in_progress'] *)
Definition in_progress (p : page) : bool :=
  match current p with
  | Some j => match status j with InProgress => true | _ => false end
  | None => false
  end.

(** The reactions to the answer of the start request ([then] and [catch]). *)
Definition start_reaction (r : reply) (now : Z) (p : page) : page :=
  match accepted r with
  | Some j => renderJob j now p
  | None => resetUI p
  end.

(** The reactions to the answer of a status request ([then], [catch] and
    [finally]). *)
Definition status_reaction (r : reply) (now : Z) (p : page) : page :=
  let p1 := match accepted r with
            | Some j => renderJob j now p
            | None => p
            end in
  if in_progress p1 then scheduleStatusFetch 30000 p1 else p1.

(** [handleClearClick()] when [endpoints.newsClear] is not set, as with the
    endpoints of [getEndpoints], which has no such key. *)
Definition handleClearClick (now : Z) (p : page) : page := renderJob None now p.

(** The page with its clock: when the pending status poll is due (if one is
    armed), how many status requests are under way, and when status requests
    were sent. *)
Record state := {
  pg : page;
  deadline : option Z;
  inflight : nat;
  polls : list Z
}.

Definition disarm (p : page) : page :=
  {| current := current p; tickTimer := tickTimer p; pollTimer := None;
     btn := btn p; progressWrap := progressWrap p; progressFill := progressFill p;
     timerEl := timerEl p; resultBox := resultBox p; resultTitle := resultTitle p;
     clearBtn := clearBtn p; statusPill := statusPill p |}.

(** A callback [f] runs at clock reading [now].  When it calls
    [scheduleStatusFetch], the pending timeout is replaced by one that is due
    its delay after [now]; the delay is read off the run of [f] on the
    disarmed page. *)
Definition callback (f : page → page) (now : Z) (st : state) : state :=
  {| pg := f (pg st);
     deadline := match pollTimer (f (disarm (pg st))) with
                 | Some d => Some (now + d)
                 | None => deadline st
                 end;
     inflight := inflight st; polls := polls st |}.

Inductive event :=
  | Tick (now : Z)                      (* the 1 s interval of the ticker *)
  | PollFire (now : Z)                  (* the poll timeout: fetchStatus() *)
  | StatusReply (r : reply) (now : Z)
  | StartReply (r : reply) (now : Z)
  | Clear (now : Z).                    (* click on the clear button *)

(** One callback; [None] when the browser cannot deliver it: the ticker is
    not running, no poll is due, no status request is under way.  The start
    request is made by a click on the button, whose own writes (the 3% fill,
    the start-up text) touch neither the job nor the timers; the machine has
    its answer. *)
Definition step (ev : event) (st : state) : option state :=
  match ev with
  | Tick now =>
      if tickTimer (pg st) then Some (callback (updateProgressUI now) now st)
      else None
  | PollFire now =>
      match deadline st with
      | Some d =>
          if d <=? now then
            Some {| pg := pg st; deadline := None; inflight := S (inflight st);
                    polls := polls st ++ [now] |}
          else None
      | None => None
      end
  | StatusReply r now =>
      match inflight st with
      | S n =>
          Some (callback (status_reaction r now) now
                  {| pg := pg st; deadline := deadline st; inflight := n;
                     polls := polls st |})
      | O => None
      end
  | StartReply r now => Some (callback (start_reaction r now) now st)
  | Clear now => Some (callback (handleClearClick now) now st)
  end.

Fixpoint run (evs : list event) (st : state) : option state :=
  match evs with
  | [] => Some st
  | ev :: evs' => st' ← step ev st; run evs' st'
  end.

(** The script has loaded at clock reading [now] on a page with the
    elements [els] and the job of the bootstrap data:
    [renderJob(job); scheduleStatusFetch(2000)]. *)
Definition boot (els : page) (bootstrap : option job) (now : Z) : state :=
  callback (λ p, scheduleStatusFetch 2000 (renderJob bootstrap now p)) now
    {| pg := {| current := None; tickTimer := false; pollTimer := None;
                btn := btn els; progressWrap := progressWrap els;
                progressFill := progressFill els; timerEl := timerEl els;
                resultBox := resultBox els; resultTitle := resultTitle els;
                clearBtn := clearBtn els; statusPill := statusPill els |};
       deadline := None; inflight := 0; polls := [] |}.

(** ** What the callbacks do to the job and the timers *)

Lemma updateProgressUI_keeps now p :
  current (updateProgressUI now p) = current p
  ∧ tickTimer (updateProgressUI now p) = tickTimer p.
Proof.
  unfold updateProgressUI. destruct (current p) as [j|] eqn:Hj; [|done].
  destruct (status j); try done.
  destruct (started_at j) as [s|]; [|done].
  destruct (eta_ms j) as [e|]; [|done].
  destruct (Qlt_le_dec (inject_Z s) e); [|done].
  by destruct (remaining_sec now e <=? 1).
Qed.

Definition running (nj : option job) : bool :=
  match nj with
  | Some j => match status j with InProgress => true | _ => false end
  | None => false
  end.

Lemma renderJob_timers nj now p :
  current (renderJob nj now p) = nj
  ∧ tickTimer (renderJob nj now p) = running nj
  ∧ pollTimer (renderJob nj now p)
    = (if running nj then Some 30000 else pollTimer p).
Proof.
  unfold renderJob, running. destruct nj as [j|]; [|done].
  destruct (status j) eqn:Hst; simpl.
  - match goal with
    | |- context [updateProgressUI now ?q] =>
        destruct (updateProgressUI_keeps now q) as [-> _]
    end.
    done.
  - unfold showResult. simpl. by destruct (resultBox p).
  - done.
Qed.

Lemma in_progress_renderJob nj now p :
  in_progress (renderJob nj now p) = running nj.
Proof.
  unfold in_progress. by destruct (renderJob_timers nj now p) as (-> & _).
Qed.

(** The ticker runs exactly while the job is in progress, and while it is
    in progress a status poll is armed or a status request is under way. *)
Definition alive (st : state) : Prop :=
  tickTimer (pg st) = in_progress (pg st)
  ∧ (in_progress (pg st) = true → is_Some (deadline st) ∨ (0 < inflight st)%nat).

Lemma alive_render nj now st0 dl n ps :
  alive {| pg := renderJob nj now (pg st0);
           deadline := match pollTimer (renderJob nj now (disarm (pg st0))) with
                       | Some d => Some (now + d)
                       | None => dl
                       end;
           inflight := n; polls := ps |}.
Proof.
  destruct (renderJob_timers nj now (pg st0)) as (Hc & Ht & _).
  destruct (renderJob_timers nj now (disarm (pg st0))) as (_ & _ & Hp).
  split; simpl.
  - by rewrite in_progress_renderJob.
  - rewrite in_progress_renderJob, Hp. intros ->. left. by eexists.
Qed.

Lemma alive_step ev st st' : alive st → step ev st = Some st' → alive st'.
Proof.
  intros [Htick Hpoll] Hstep.
  destruct ev as [now|now|r now|r now|now]; simpl in Hstep.
  - destruct (tickTimer (pg st)) eqn:Ht; [|done]. injection Hstep as <-.
    destruct (updateProgressUI_keeps now (pg st)) as [Hc Hk].
    assert (Hin : in_progress (updateProgressUI now (pg st)) = in_progress (pg st)).
    { unfold in_progress. by rewrite Hc. }
    split; simpl.
    + by rewrite Hk, Hin, Ht.
    + rewrite Hin. intros [Hd | Hf]%Hpoll; [|by right]. left.
      by destruct (pollTimer _).
  - destruct (deadline st) as [d|]; [|done].
    destruct (d <=? now); [|done]. injection Hstep as <-.
    split; [done|]. simpl. intros _. right. lia.
  - destruct (inflight st) as [|n] eqn:Hn; [done|]. injection Hstep as <-.
    unfold callback, status_reaction. simpl.
    destruct (accepted r) as [nj|].
    + rewrite !in_progress_renderJob.
      destruct (running nj) eqn:Hrun.
      * split; simpl.
        -- destruct (renderJob_timers nj now (pg st)) as (Hc & -> & _).
           unfold in_progress. simpl. by rewrite Hc.
        -- intros _. left. by eexists.
      * assert (Ha := alive_render nj now st (deadline st) n (polls st)).
        done.
    + assert (Hd : in_progress (disarm (pg st)) = in_progress (pg st)) by done.
      rewrite Hd. destruct (in_progress (pg st)) eqn:Hin.
      * split; simpl; [by rewrite Htick|]. intros _. left. by eexists.
      * split; simpl; [by rewrite Htick, Hin|]. by rewrite Hin.
  - injection Hstep as <-. unfold callback, start_reaction.
    destruct (accepted r) as [nj|].
    + apply alive_render.
    + split; simpl; [exact Htick|]. done.
  - injection Hstep as <-. unfold callback, handleClearClick. apply alive_render.
Qed.

Lemma alive_run evs : ∀ st st', alive st → run evs st = Some st' → alive st'.
Proof.
  induction evs as [|ev evs IH]; intros st st' Hok Hrun; simpl in Hrun.
  - by injection Hrun as <-.
  - destruct (step ev st) as [st1|] eqn:Hstep; [|done]. simpl in Hrun.
    eapply IH; [|exact Hrun]. by eapply alive_step.
Qed.

Lemma alive_boot els bootstrap now : alive (boot els bootstrap now).
Proof.
  unfold boot, callback. simpl.
  match goal with
  | |- context [renderJob bootstrap now ?q] =>
      destruct (renderJob_timers bootstrap now q) as (Hc & Ht & _)
  end.
  split; simpl.
  - unfold in_progress. simpl. rewrite Hc, Ht. done.
  - intros _. left. by eexists.
Qed.

(** X13.  From the moment the script has loaded, whatever the answers and
    however ticks, polls, answers and clear clicks interleave: the 1 s ticker
    runs exactly while the current job is in progress (it never outlives its
    job and no job in progress is without it), and while a job is in progress
    the poller is alive: a status poll is armed or a status request is under
    way.  The first poll is due 2 s after loading. *)
Theorem poller_alive_while_in_progress els bootstrap now0 evs st :
  run evs (boot els bootstrap now0) = Some st →
  deadline (boot els bootstrap now0) = Some (now0 + 2000)
  ∧ tickTimer (pg st) = in_progress (pg st)
  ∧ (in_progress (pg st) = true →
     is_Some (deadline st) ∨ (0 < inflight st)%nat).
Proof.
  intros Hrun. split; [done|].
  exact (alive_run evs _ _ (alive_boot els bootstrap now0) Hrun).
Qed.

(** The first poll finds a job of 10 s in progress. *)
Definition first_poll : list event :=
  [PollFire 2500;
   StatusReply (Http 200 (Some (Some {| a_ok := true;
                                         a_job := Some ten_seconds |}))) 2600;
   Tick 3000].

Lemma poller_alive_while_in_progress_witness :
  ∃ st, run first_poll (boot blank_page None 0) = Some st
        ∧ tickTimer (pg st) = true ∧ deadline st = Some 32600.
Proof.
  eexists. split; [vm_compute; reflexivity|].
  split; [|reflexivity].
  lazymatch goal with
  | |- tickTimer (pg ?s) = true =>
      change true with (in_progress (pg s));
      refine (proj1 (proj2 (poller_alive_while_in_progress blank_page None 0
                              first_poll s _)))
  end.
  vm_compute. reflexivity.
Defined.

(** ** Ticks near the estimated end keep the poll from firing *)

(** The callbacks write [pollTimer] but never read it: what they leave in it
    is what they leave on the disarmed page, or what was there. *)
Lemma updateProgressUI_poll now p :
  pollTimer (updateProgressUI now p)
  = match pollTimer (updateProgressUI now (disarm p)) with
    | Some d => Some d
    | None => pollTimer p
    end.
Proof.
  unfold updateProgressUI. simpl. destruct (current p) as [j|]; [|done].
  destruct (status j); try done.
  destruct (started_at j) as [s|]; [|done].
  destruct (eta_ms j) as [e|]; [|done].
  destruct (Qlt_le_dec (inject_Z s) e); [|done].
  by destruct (remaining_sec now e <=? 1).
Qed.

Lemma renderJob_poll nj now p :
  pollTimer (renderJob nj now p)
  = match pollTimer (renderJob nj now (disarm p)) with
    | Some d => Some d
    | None => pollTimer p
    end.
Proof.
  destruct (renderJob_timers nj now p) as (_ & _ & ->).
  destruct (renderJob_timers nj now (disarm p)) as (_ & _ & ->).
  by destruct (running nj).
Qed.

(** The time left is at most one second. *)
Lemma last_second now e :
  (e - 1000 <= inject_Z now)%Q → (remaining_sec now e <=? 1) = true.
Proof.
  intros Hnear. apply Z.leb_le.
  destruct (remaining_sec_spec now e) as (Hn & Hlow & _).
  set (n := remaining_sec now e) in *.
  destruct (Z_lt_le_dec 1 n) as [Hbig|]; [|done].
  assert (H2 : (inject_Z 1000 <= inject_Z (1000 * (n - 1)))%Q)
    by (rewrite <- Zle_Qle; lia).
  change (inject_Z 1000) with 1000%Q in H2.
  destruct (Q.max_spec 0 (e - inject_Z now)) as [[_ Hmax] | [_ Hmax]];
    rewrite Hmax in Hlow; lra.
Qed.

(** A job in progress with valid times, its ticker running, and the poll
    armed 1.5 s after the tick at [last]. *)
Definition end_phase (j : job) (started : Z) (e : Q) (last : Z) (st : state) : Prop :=
  current (pg st) = Some j ∧ status j = InProgress ∧ timed j started e
  ∧ tickTimer (pg st) = true ∧ deadline st = Some (last + 1500).

Lemma tick_enters_end_phase j started e t st :
  current (pg st) = Some j → status j = InProgress → timed j started e →
  tickTimer (pg st) = true → (e - 1000 <= inject_Z t)%Q →
  ∃ st', step (Tick t) st = Some st' ∧ end_phase j started e t st'
         ∧ polls st' = polls st ∧ inflight st' = inflight st.
Proof.
  intros Hj Hst Htimed Hticker Hnear. simpl. rewrite Hticker.
  eexists. split; [reflexivity|].
  destruct (updateProgressUI_keeps t (pg st)) as [Hc Hk].
  destruct (updateProgressUI_timer t (disarm (pg st)) j started e Hj Hst Htimed)
    as [_ Hp].
  rewrite (last_second t e Hnear) in Hp.
  unfold end_phase, callback. simpl. rewrite Hp, Hc, Hk. done.
Qed.

Lemma poll_not_due j started e last st t :
  end_phase j started e last st → t < last + 1500 → step (PollFire t) st = None.
Proof.
  intros (_ & _ & _ & _ & Hd) Hlt. simpl. rewrite Hd.
  destruct (last + 1500 <=? t) eqn:Hle; [|done]. apply Z.leb_le in Hle. lia.
Qed.

(** Ticks within the last second before the estimated end or later, and
    attempts of the poll timeout to fire less than 1.5 s after the tick
    before them. *)
Fixpoint prompt (e : Q) (last : Z) (evs : list event) : Prop :=
  match evs with
  | [] => True
  | Tick t :: evs' => (e - 1000 <= inject_Z t)%Q ∧ prompt e t evs'
  | PollFire t :: evs' => t < last + 1500 ∧ prompt e last evs'
  | _ => False
  end.

Definition is_poll (ev : event) : bool :=
  match ev with PollFire _ => true | _ => false end.

Lemma starved j started e : ∀ evs last st,
  end_phase j started e last st → prompt e last evs →
  match run evs st with
  | Some st' =>
      existsb is_poll evs = false
      ∧ polls st' = polls st ∧ inflight st' = inflight st
      ∧ ∃ last', end_phase j started e last' st'
  | None => existsb is_poll evs = true
  end.
Proof.
  induction evs as [|ev evs IH]; intros last st Hend Hprompt.
  - simpl. eauto.
  - destruct ev as [t|t|r t|r t|t]; simpl in Hprompt; try done.
    + destruct Hprompt as [Hnear Hrest].
      destruct Hend as (Hj & Hst & Htimed & Hticker & Hd).
      destruct (tick_enters_end_phase j started e t st Hj Hst Htimed Hticker Hnear)
        as (st1 & Hstep & Hend1 & Hp1 & Hf1).
      change (run (Tick t :: evs) st) with (step (Tick t) st ≫= run evs).
      rewrite Hstep. cbn [mbind option_bind existsb is_poll orb].
      specialize (IH t st1 Hend1 Hrest).
      destruct (run evs st1) as [st'|]; [|done].
      destruct IH as (Hno & Hp & Hf & Hlast). rewrite Hp, Hf. done.
    + destruct Hprompt as [Hlt _].
      change (run (PollFire t :: evs) st) with (step (PollFire t) st ≫= run evs).
      by rewrite (poll_not_due j started e last st t Hend Hlt).
Qed.

(** X14.  Once a job in progress is within one second of its estimated end,
    every tick of the 1 s ticker re-arms the status poll to fire 1.5 s later,
    replacing the pending one.  So as long as the ticks keep coming less than
    1.5 s apart, the poll timeout never gets to fire: a run of ticks and poll
    attempts in which every attempt comes less than 1.5 s after the tick
    before it is possible only without any poll, sends no status request,
    and leaves the job in progress with its ticker running. *)
Theorem ticks_starve_the_poll st j started e t0 evs :
  current (pg st) = Some j → status j = InProgress → timed j started e →
  tickTimer (pg st) = true →
  (e - 1000 <= inject_Z t0)%Q → prompt e t0 evs →
  (run (Tick t0 :: evs) st = None ↔ existsb is_poll evs = true)
  ∧ (∀ st', run (Tick t0 :: evs) st = Some st' →
       polls st' = polls st ∧ inflight st' = inflight st
       ∧ current (pg st') = Some j ∧ tickTimer (pg st') = true
       ∧ ∃ last, deadline st' = Some (last + 1500)
                 ∧ ∀ t, t < last + 1500 → step (PollFire t) st' = None).
Proof.
  intros Hj Hst Htimed Hticker Hnear Hprompt.
  destruct (tick_enters_end_phase j started e t0 st Hj Hst Htimed Hticker Hnear)
    as (st1 & Hstep & Hend1 & Hp1 & Hf1).
  change (run (Tick t0 :: evs) st) with (step (Tick t0) st ≫= run evs).
  rewrite Hstep. cbn [mbind option_bind].
  pose proof (starved j started e evs t0 st1 Hend1 Hprompt) as Hs.
  destruct (run evs st1) as [st'|].
  - destruct Hs as (Hno & Hp & Hf & last & Hend).
    split; [split; [done|by rewrite Hno]|].
    intros ? [= <-]. rewrite Hp, Hf.
    pose proof Hend as (Hj' & _ & _ & Ht' & Hd').
    repeat split; try done. exists last. split; [done|].
    intros t Hlt. by eapply poll_not_due.
  - split; [done|]. intros st' Hnone. done.
Qed.

(** A job of 10 s started at 0, rendered at 5 s: the ticks from 9 s on, one
    second apart, keep the poll from firing; 25 s later no status request
    has been sent, although the regular poll was due at 35 s. *)
Lemma ticks_starve_the_poll_witness :
  ∃ st0 st',
    run [StartReply (Http 200 (Some (Some {| a_ok := true;
                                              a_job := Some ten_seconds |}))) 5000]
        (boot blank_page None 0) = Some st0
    ∧ run (Tick 9000 :: (Tick <$> [10000; 11000; 12000; 13000; 14000]))
          st0 = Some st'
    ∧ polls st' = [] ∧ deadline st' = Some 15500
    ∧ run (Tick 9000 :: [Tick 10000; PollFire 10900; Tick 11000]) st0 = None.
Proof.
  eexists _, _. split; [vm_compute; reflexivity|].
  split; [vm_compute; reflexivity|].
  split; [reflexivity|]. split; [reflexivity|].
  lazymatch goal with
  | |- run _ ?s = None =>
      refine (proj2 (proj1 (ticks_starve_the_poll s ten_seconds 0 10000 9000
                              [Tick 10000; PollFire 10900; Tick 11000]
                              _ _ _ _ _ _)) _)
  end.
  - reflexivity.
  - reflexivity.
  - by repeat split.
  - reflexivity.
  - done.
  - simpl. repeat split; try done; lia.
  - reflexivity.
Defined.

End NewsMore.

(* ===================================================================== *)
(** * Health card (static/js/user_dashboard.js, initHealthCard)           *)
(* ===================================================================== *)
Module Health.

(** Numbers are the JavaScript numbers of the withdrawal form. *)
Import Withdraw.

(** [Math.min(a, b)] and [Math.max(a, b)]: [NaN] wins over everything. *)
Definition jsmin (a b : jsnum) : jsnum :=
  match a, b with
  | NaN, _ | _, NaN => NaN
  | NegInf, _ | _, NegInf => NegInf
  | PosInf, x | x, PosInf => x
  | Fin x, Fin y => Fin (Qmin x y)
  end.

Definition jsmax (a b : jsnum) : jsnum :=
  match a, b with
  | NaN, _ | _, NaN => NaN
  | PosInf, _ | _, PosInf => PosInf
  | NegInf, x | x, NegInf => x
  | Fin x, Fin y => Fin (Qmax x y)
  end.

(** [history.max] *)
Definition history_max : nat := 60.

(** [while (list.length > history.max) list.shift();] *)
Fixpoint shift_excess (l : list jsnum) : list jsnum :=
  match l with
  | [] => []
  | _ :: rest => if (history_max <? length l)%nat then shift_excess rest else l
  end.

(** [record(val, list)] *)
Definition record (val : jsnum) (l : list jsnum) : list jsnum :=
  shift_excess (l ++ [jsmax (Fin 0) (jsmin (Fin 100) val)]).

(** The body of the metrics endpoint, with [Number(payload.cpu_percent || 0)]
    and [Number(payload.ram_percent || 0)] already taken. *)
Record payload := {
  p_ok : bool;
  cpu_percent : jsnum;
  ram_percent : jsnum;
  ts : option string;
  degraded : bool
}.

(** The history and the elements of the card ([None]: no such element).
    The two percentages of the text are shown with [toFixed(1)]. *)
Record card := {
  cpu : list jsnum;                 (* history.cpu *)
  ram : list jsnum;                 (* history.ram *)
  cpuSpan : option jsnum;           (* [data-health-cpu], before toFixed(1) *)
  ramSpan : option jsnum;           (* [data-health-ram] *)
  updatedSpan : option (option string);   (* [data-health-updated]; None inside: the dash *)
  statusChip : option bool;         (* [data-health-status] is displayed *)
  redraws : nat                     (* calls of drawChart by updateCard *)
}.

(** [updateCard(payload)] *)
Definition updateCard (p : payload) (c : card) : card :=
  {| cpu := record (cpu_percent p) (cpu c);
     ram := record (ram_percent p) (ram c);
     cpuSpan := set_if (cpuSpan c) (cpu_percent p);
     ramSpan := set_if (ramSpan c) (ram_percent p);
     updatedSpan := set_if (updatedSpan c) (ts p);
     statusChip := set_if (statusChip c) (degraded p);
     redraws := S (redraws c) |}.

(** How [fetch(...).then(r => r.json())] ends: a parsed value ([None] is
    [null]) or a rejection. *)
Inductive answer :=
  | Parsed (data : option payload)
  | Failed.

(** The reactions of [fetchMetrics]:
    [data => { if (data && data.ok) updateCard(data); }] and the empty
    [catch]. *)
Definition received (r : answer) (c : card) : card :=
  match r with
  | Parsed (Some p) => if p_ok p then updateCard p c else c
  | _ => c
  end.

(** The card after the answers [rs], in the order they arrived. *)
Definition feed (rs : list answer) (c : card) : card := foldl (λ c r, received r c) c rs.

(** The card when [initHealthCard] has run. *)
Definition fresh (has_cpu has_ram has_updated has_chip : bool) : card :=
  {| cpu := []; ram := [];
     cpuSpan := if has_cpu then Some (Fin 0) else None;
     ramSpan := if has_ram then Some (Fin 0) else None;
     updatedSpan := if has_updated then Some None else None;
     statusChip := if has_chip then Some false else None;
     redraws := 0 |}.

(** ** The history is a window over the accepted samples *)

(** The last [n] elements. *)
Definition lastn {A} (n : nat) (l : list A) : list A := drop (length l - n) l.

Definition clamp (val : jsnum) : jsnum := jsmax (Fin 0) (jsmin (Fin 100) val).

(** The payloads that get through to [updateCard]. *)
Definition accepted (rs : list answer) : list payload :=
  omap (λ r, match r with
             | Parsed (Some p) => if p_ok p then Some p else None
             | _ => None
             end) rs.

Lemma shift_excess_drop l : shift_excess l = lastn history_max l.
Proof.
  unfold lastn. induction l as [|x l IH]; [done|].
  simpl shift_excess. simpl length.
  destruct (history_max <? S (length l))%nat eqn:Hlen.
  - apply Nat.ltb_lt in Hlen. rewrite IH.
    replace (S (length l) - history_max)%nat with (S (length l - history_max))
      by lia.
    done.
  - apply Nat.ltb_ge in Hlen.
    replace (S (length l) - history_max)%nat with 0%nat by lia. done.
Qed.

Lemma lastn_snoc {A} n (l : list A) x :
  (0 < n)%nat → lastn n (lastn n l ++ [x]) = lastn n (l ++ [x]).
Proof.
  intros Hn. unfold lastn. rewrite !length_app, length_drop. simpl.
  destruct (decide (length l < n)%nat) as [Hlt | Hge].
  - replace (length l - n)%nat with 0%nat by lia. simpl.
    by replace (length l - 0 + 1 - n)%nat with (length l + 1 - n)%nat by lia.
  - rewrite drop_app_le by (rewrite length_drop; lia).
    rewrite drop_drop.
    rewrite (drop_app_le l) by lia.
    do 2 f_equal. lia.
Qed.

Lemma record_window val vals :
  record val (clamp <$> lastn history_max vals)
  = clamp <$> lastn history_max (vals ++ [val]).
Proof.
  unfold record. fold (clamp val). rewrite shift_excess_drop.
  change [clamp val] with (clamp <$> [val]).
  rewrite <- fmap_app. unfold lastn at 1. rewrite length_fmap, <- fmap_drop.
  f_equal. apply (lastn_snoc history_max vals val). unfold history_max. lia.
Qed.

Lemma accepted_snoc rs r :
  accepted (rs ++ [r])
  = accepted rs ++ match r with
                   | Parsed (Some p) => if p_ok p then [p] else []
                   | _ => []
                   end.
Proof.
  unfold accepted. rewrite omap_app. f_equal.
  destruct r as [[p|]|]; simpl; try done. by destruct (p_ok p).
Qed.

Lemma feed_window rs a b c d :
  cpu (feed rs (fresh a b c d))
  = clamp <$> lastn history_max (cpu_percent <$> accepted rs)
  ∧ ram (feed rs (fresh a b c d))
    = clamp <$> lastn history_max (ram_percent <$> accepted rs).
Proof.
  induction rs as [|r rs IH] using rev_ind; [done|].
  unfold feed in *. rewrite foldl_app. simpl.
  rewrite accepted_snoc, !fmap_app.
  destruct IH as [Hc Hr].
  destruct r as [[p|]|]; simpl; rewrite ?app_nil_r; try done.
  destruct (p_ok p); simpl; rewrite ?app_nil_r; [|done].
  rewrite Hc, Hr. split; apply record_window.
Qed.

(** A stored sample: a percentage between 0 and 100, or [NaN]. *)
Definition sample (v : jsnum) : Prop :=
  match v with
  | Fin q => (0 <= q <= 100)%Q
  | NaN => True
  | _ => False
  end.

Lemma clamp_sample val : sample (clamp val).
Proof.
  destruct val as [q| | |]; simpl; try done.
  split; [apply Q.le_max_l|].
  apply Q.max_lub; [done|apply Q.le_min_l].
Qed.

Lemma history_window_facts rs a b c d :
  length (cpu (feed rs (fresh a b c d))) = length (ram (feed rs (fresh a b c d)))
  ∧ Forall sample (cpu (feed rs (fresh a b c d)))
  ∧ Forall sample (ram (feed rs (fresh a b c d))).
Proof.
  destruct (feed_window rs a b c d) as [-> ->].
  unfold lastn. rewrite !length_fmap, !length_drop, !length_fmap.
  split; [done|].
  split; apply Forall_fmap, Forall_forall; intros v _; apply clamp_sample.
Qed.

(** X15.  Whatever the metrics endpoint answers, in whatever order the
    answers arrive: the two histories of the health card are the clamped CPU
    resp. RAM values of the last 60 answers that were accepted (a parsed body
    with [ok]), oldest first; they always have the same length, at most 60;
    and every stored sample is a number between 0 and 100, or [NaN] (from a
    value that is not a number).  Answers that are not accepted change
    nothing. *)
Theorem history_is_a_window rs a b c d :
  let card := feed rs (fresh a b c d) in
  cpu card = clamp <$> lastn history_max (cpu_percent <$> accepted rs)
  ∧ ram card = clamp <$> lastn history_max (ram_percent <$> accepted rs)
  ∧ length (cpu card) = length (ram card)
  ∧ length (cpu card) = Nat.min history_max (length (accepted rs))
  ∧ Forall sample (cpu card) ∧ Forall sample (ram card).
Proof.
  intros card. subst card. destruct (feed_window rs a b c d) as [Hc Hr].
  assert (Hlen : ∀ {A} (l : list A),
            length (lastn history_max l) = Nat.min history_max (length l)).
  { intros A l. unfold lastn. rewrite length_drop. lia. }
  rewrite Hc, Hr, !length_fmap, !Hlen, !length_fmap.
  repeat split; try done.
  - apply Forall_fmap, Forall_forall. intros v _. apply clamp_sample.
  - apply Forall_fmap, Forall_forall. intros v _. apply clamp_sample.
Qed.

(** ** The chart *)

Section Chart.

(** The numbers of [drawChart] are doubles: every operation returns the
    double nearest to its exact result.  [rnd] is this rounding; all that is
    used of it is that it is monotone and leaves 0 and 1 as they are. *)
Variable rnd : Q → Q.

(** [height - (val/100) * height] *)
Definition y_of (height : Q) (val : jsnum) : jsnum :=
  match val with
  | Fin v => Fin (rnd (height - rnd (rnd (v / 100) * height)))
  | NaN => NaN
  | PosInf => if Qeq_bool height 0 then NaN else NegInf
  | NegInf => if Qeq_bool height 0 then NaN else PosInf
  end.

(** The points [drawLine(data, color)] moves and draws to:
    [x = idx * step]. *)
Definition drawLine (step height : Q) (data : list jsnum) : list (Q * jsnum) :=
  imap (λ idx val, (rnd (inject_Z (Z.of_nat idx) * step), y_of height val)) data.

(** The two lines of [drawChart()] on a canvas of [width] by [height] CSS
    pixels, [step = width / Math.max(points - 1, 1)]; nothing is drawn
    without a sample. *)
Definition drawChart (width height : Q) (c : card) : list (list (Q * jsnum)) :=
  let points := length (cpu c) in
  if (points =? 0)%nat then []
  else
    let step := rnd (width / inject_Z (Z.max (Z.of_nat points - 1) 1)) in
    [drawLine step height (cpu c); drawLine step height (ram c)].

Hypothesis rnd_mono : ∀ x y, (x <= y)%Q → (rnd x <= rnd y)%Q.
Hypothesis rnd_0 : (rnd 0 == 0)%Q.
Hypothesis rnd_1 : (rnd 1 == 1)%Q.

(** A point of the chart on a canvas of height [height]: not left of the
    canvas, and between its top and its bottom, or without a height (a
    [NaN], which the canvas skips). *)
Definition inside (height : Q) (pt : Q * jsnum) : Prop :=
  (0 <= pt.1)%Q
  ∧ match pt.2 with
    | Fin y => (0 <= y <= height)%Q
    | NaN => True
    | _ => False
    end.

Lemma rnd_nonneg x : (0 <= x)%Q → (0 <= rnd x)%Q.
Proof. intros Hx. rewrite <- rnd_0. by apply rnd_mono. Qed.

Lemma rnd_below x bound :
  (rnd bound == bound)%Q → (x <= bound)%Q → (rnd x <= bound)%Q.
Proof. intros Hb Hx. rewrite <- Hb. by apply rnd_mono. Qed.

Lemma y_of_inside height v :
  (0 <= height)%Q → (rnd height == height)%Q → sample v →
  match y_of height v with
  | Fin y => (0 <= y <= height)%Q
  | NaN => True
  | _ => False
  end.
Proof.
  intros Hh Hrep Hv. destruct v as [q| | |]; simpl in *; try done.
  set (a := rnd (q / 100)).
  assert (Ha : (0 <= a <= 1)%Q).
  { split.
    - apply rnd_nonneg. unfold Qdiv. change (/ 100)%Q with (1 # 100)%Q. nra.
    - apply rnd_below; [exact rnd_1|].
      unfold Qdiv. change (/ 100)%Q with (1 # 100)%Q. nra. }
  set (b := rnd (a * height)).
  assert (Hb : (0 <= b <= height)%Q).
  { split; [apply rnd_nonneg; nra|]. apply rnd_below; [done|]. nra. }
  split; [apply rnd_nonneg; nra|]. apply rnd_below; [done|]. nra.
Qed.

Lemma step_nonneg width (points : nat) :
  (0 <= width)%Q →
  (0 <= rnd (width / inject_Z (Z.max (Z.of_nat points - 1) 1)))%Q.
Proof.
  intros Hw. apply rnd_nonneg.
  set (m := Z.max (Z.of_nat points - 1) 1).
  assert (HmQ : (0 < inject_Z m)%Q).
  { change 0%Q with (inject_Z 0). rewrite <- Zlt_Qlt. unfold m. lia. }
  unfold Qdiv. apply Qmult_le_0_compat; [done|].
  apply Qlt_le_weak. by apply Qinv_lt_0_compat.
Qed.

Lemma x_monotone step (i j : nat) :
  (0 <= step)%Q → (i <= j)%nat →
  (0 <= rnd (inject_Z (Z.of_nat i) * step)
   <= rnd (inject_Z (Z.of_nat j) * step))%Q.
Proof.
  intros Hs Hij.
  assert (Hi : (0 <= inject_Z (Z.of_nat i))%Q).
  { change 0%Q with (inject_Z 0). rewrite <- Zle_Qle. lia. }
  assert (Hle : (inject_Z (Z.of_nat i) <= inject_Z (Z.of_nat j))%Q).
  { rewrite <- Zle_Qle. lia. }
  split; [apply rnd_nonneg; nra|]. apply rnd_mono. nra.
Qed.

Lemma drawLine_inside step height data :
  (0 <= step)%Q → (0 <= height)%Q → (rnd height == height)%Q →
  Forall sample data →
  Forall (inside height) (drawLine step height data).
Proof.
  intros Hs Hh Hrep Hdata. apply Forall_forall. intros pt Hpt.
  unfold drawLine in Hpt. apply list_elem_of_lookup in Hpt as [idx Hidx].
  rewrite list_lookup_imap in Hidx.
  destruct (data !! idx) as [v|] eqn:Hv; [|done]. injection Hidx as <-.
  split; simpl.
  - by destruct (x_monotone step idx idx Hs).
  - apply y_of_inside; [done|done|].
    rewrite Forall_forall in Hdata. apply Hdata. by eapply list_elem_of_lookup_2.
Qed.

(** X16.  On a canvas of any size whose height is a double, after any
    answers of the metrics endpoint, and with the arithmetic of doubles:
    every point of the two lines [drawChart] draws is at or right of the left
    edge and between the top and the bottom of the canvas (or has no height,
    for a [NaN] sample); both lines have one point per stored sample and the
    same number of points; points of the two lines with the same index have
    the same [x], the spacing being computed once from the CPU history; and
    along a line [x] never decreases.  (No bound of [x] by the width is
    claimed: the last [x] is the rounded product of [points - 1] and the
    rounded quotient.) *)
Theorem chart_inside_canvas rs a b c d width height :
  (0 <= width)%Q → (0 <= height)%Q → (rnd height == height)%Q →
  let card := feed rs (fresh a b c d) in
  Forall (Forall (inside height)) (drawChart width height card)
  ∧ Forall (λ line, length line = length (cpu card)) (drawChart width height card)
  ∧ (∀ l1 l2 i p1 p2,
       l1 ∈ drawChart width height card → l2 ∈ drawChart width height card →
       l1 !! i = Some p1 → l2 !! i = Some p2 → p1.1 = p2.1)
  ∧ (∀ line i j p q,
       line ∈ drawChart width height card →
       line !! i = Some p → line !! j = Some q → (i <= j)%nat →
       (p.1 <= q.1)%Q).
Proof.
  intros Hw Hh Hrep card.
  destruct (history_window_facts rs a b c d) as (Hlen & Hc & Hr).
  fold card in Hlen, Hc, Hr.
  unfold drawChart. destruct (length (cpu card) =? 0)%nat eqn:Hz.
  { split; [done|]. split; [done|].
    split; [intros l1 l2 i p1 p2 Hin; by apply elem_of_nil in Hin|].
    intros line i j p q Hin. by apply elem_of_nil in Hin. }
  set (step := rnd (width / inject_Z (Z.max (Z.of_nat (length (cpu card)) - 1) 1))).
  assert (Hstep : (0 <= step)%Q) by (by apply step_nonneg).
  assert (Hline : ∀ line, line ∈ [drawLine step height (cpu card);
                                  drawLine step height (ram card)] →
                          ∃ data, line = drawLine step height data).
  { intros line Hin.
    apply elem_of_cons in Hin as [-> | Hin]; [by eexists|].
    apply elem_of_cons in Hin as [-> | Hin]; [by eexists|].
    by apply elem_of_nil in Hin. }
  assert (Hx : ∀ data i p, drawLine step height data !! i = Some p →
                 p.1 = rnd (inject_Z (Z.of_nat i) * step)).
  { intros data i p Hp. unfold drawLine in Hp. rewrite list_lookup_imap in Hp.
    destruct (data !! i); [|done]. by injection Hp as <-. }
  split; [|split; [|split]].
  - apply Forall_cons_2; [|apply Forall_cons_2; [|apply Forall_nil_2]];
      by apply drawLine_inside.
  - apply Forall_cons_2; [|apply Forall_cons_2; [|apply Forall_nil_2]];
      unfold drawLine; by rewrite length_imap.
  - intros l1 l2 i p1 p2 [d1 ->]%Hline [d2 ->]%Hline H1 H2.
    by rewrite (Hx d1 i p1 H1), (Hx d2 i p2 H2).
  - intros line i j p q [data ->]%Hline Hp Hq Hij.
    rewrite (Hx data i p Hp), (Hx data j q Hq).
    by destruct (x_monotone step i j Hstep Hij).
Qed.

End Chart.

(** An accepted answer with the two percentages [v] and [w]. *)
Definition metrics (v w : Q) : answer :=
  Parsed (Some {| p_ok := true; cpu_percent := Fin v; ram_percent := Fin w;
                  ts := None; degraded := false |}).

(** A rounding for the example: to the nearest multiple of 1/1024. *)
Definition to_grid (x : Q) : Q :=
  (inject_Z (Qfloor (x * 1024 + (1 # 2))) / 1024)%Q.

Lemma to_grid_mono x y : (x <= y)%Q → (to_grid x <= to_grid y)%Q.
Proof.
  intros Hxy. unfold to_grid, Qdiv. apply Qmult_le_compat_r; [|done].
  rewrite <- Zle_Qle. apply Qfloor_resp_le. nra.
Qed.

(** Four answers, the first with a CPU value of 250 and the second with a
    RAM value of -3: both are clamped.  A third of the 100 px is not on the
    grid: the points are spaced by the rounded quotient, and the last one is
    drawn just left of the right edge. *)
Lemma chart_inside_canvas_witness :
  map (map fst)
      (drawChart to_grid 100 100
         (feed [metrics 250 40; metrics 50 (-3); metrics 10 10; metrics 1 2]
               (fresh true true true true)))
  = [[0 # 1024; 34133 # 1024; 68266 # 1024; 102399 # 1024];
     [0 # 1024; 34133 # 1024; 68266 # 1024; 102399 # 1024]]%Q
  ∧ Forall (Forall (inside 100))
      (drawChart to_grid 100 100
         (feed [metrics 250 40; metrics 50 (-3); metrics 10 10; metrics 1 2]
               (fresh true true true true))).
Proof.
  split; [vm_compute; reflexivity|].
  refine (proj1 (chart_inside_canvas to_grid to_grid_mono _ _
                   [metrics 250 40; metrics 50 (-3); metrics 10 10; metrics 1 2]
                   true true true true 100 100 _ _ _)); done.
Defined.

End Health.

(* ===================================================================== *)
(** * Withdrawal form: one request at a time                              *)
(* ===================================================================== *)
Module WithdrawMore.
Import Withdraw.

Section Form.

(** [Number(string)] of the browser. *)
Variable Number : string → jsnum.

(** The page and the number of withdraw requests that are under way. *)
Record state := {
  pg : page;
  inflight : nat
}.

Inductive event :=
  | Typed (value : string)      (* the user edits the amount *)
  | Submit                      (* the form is submitted *)
  | Answer (r : reply).         (* the fetch chain of a request ends *)

(** Does the submit listener send a request? *)
Definition sends (p : page) : bool :=
  match amountInput p with
  | Some value =>
      negb (negb (isFinite (Number (trim value))) || le_zero (Number (trim value)))
  | None => false
  end.

(** One event.  The browser submits the form neither by a click on its
    submit button nor implicitly while that button is disabled; an answer
    needs a request under way; the amount can be edited when there is an
    input. *)
Definition step (ev : event) (st : state) : option state :=
  match ev with
  | Typed value =>
      match amountInput (pg st) with
      | Some _ =>
          Some {| pg := {| amountInput := Some value; btn := btn (pg st);
                           available_balance := available_balance (pg st);
                           total_earned := total_earned (pg st);
                           hdr_counts := hdr_counts (pg st);
                           pending_total := pending_total (pg st);
                           pending_count := pending_count (pg st);
                           history := history (pg st); posts := posts (pg st) |};
                  inflight := inflight st |}
      | None => None
      end
  | Submit =>
      match btn (pg st) with
      | Some true => None
      | _ => Some {| pg := submit Number (pg st);
                     inflight := if sends (pg st) then S (inflight st)
                                 else inflight st |}
      end
  | Answer r =>
      match inflight st with
      | S n => Some {| pg := respond r (pg st); inflight := n |}
      | O => None
      end
  end.

Fixpoint run (evs : list event) (st : state) : option state :=
  match evs with
  | [] => Some st
  | ev :: evs' => st' ← step ev st; run evs' st'
  end.

(** The number of answers among the events. *)
Definition answers (evs : list event) : nat :=
  length (List.filter (λ ev, match ev with Answer _ => true | _ => false end) evs).

Lemma submit_sends p :
  posts (submit Number p)
  = posts p ++ (if sends p then
                  match amountInput p with
                  | Some value => [value_of (Number (trim value))]
                  | None => []
                  end
                else [])
  ∧ btn (submit Number p) = (if sends p then set_if (btn p) true else btn p)
  ∧ amountInput (submit Number p) = amountInput p.
Proof.
  unfold submit, sends. destruct (amountInput p) as [value|] eqn:Hin.
  - destruct (negb (isFinite (Number (trim value))) || le_zero (Number (trim value)));
      simpl; rewrite ?app_nil_r; done.
  - by rewrite app_nil_r.
Qed.

Lemma respond_frame r p :
  btn (respond r p) = set_if (btn p) false ∧ posts (respond r p) = posts p.
Proof.
  unfold respond. destruct r as [status [[b|]|]|]; simpl; try done.
  destruct ((status =? 200) && ok b); simpl; [|done].
  by destruct (wallet_of b), (withdrawals b).
Qed.

(** The button is disabled exactly while a request is under way, there is
    at most one, and every request sent has been answered or is under way. *)
Definition sequential (n0 done : nat) (st : state) : Prop :=
  btn (pg st) = Some (bool_decide (inflight st = 1%nat))
  ∧ (inflight st <= 1)%nat
  ∧ length (posts (pg st)) = (n0 + done + inflight st)%nat.

Lemma sequential_step n0 done ev st st' :
  sequential n0 done st → step ev st = Some st' →
  sequential n0 (done + answers [ev]) st'.
Proof.
  intros (Hbtn & Hone & Hposts) Hstep. unfold answers.
  destruct ev as [value| |r]; cbn -[submit respond sends] in Hstep.
  - destruct (amountInput (pg st)); [|done]. injection Hstep as <-.
    unfold sequential. cbn. rewrite Nat.add_0_r. done.
  - rewrite Hbtn in Hstep.
    destruct (bool_decide (inflight st = 1%nat)) eqn:Hfl; [done|].
    apply bool_decide_eq_false in Hfl. injection Hstep as <-.
    destruct (submit_sends (pg st)) as (Hp & Hb & _).
    unfold sequential. cbn [pg inflight List.filter length].
    rewrite Hp, Hb, Hbtn, length_app, Nat.add_0_r.
    destruct (sends (pg st)) eqn:Hs.
    + assert (inflight st = 0%nat) as Hz by lia. rewrite Hz in *.
      unfold sends in Hs. destruct (amountInput (pg st)); [|done].
      cbn. repeat split; try done; lia.
    + rewrite bool_decide_eq_false_2 by done. cbn. repeat split; try done; lia.
  - destruct (inflight st) as [|n] eqn:Hn; [done|]. injection Hstep as <-.
    destruct (respond_frame r (pg st)) as [Hb Hp].
    unfold sequential. cbn [pg inflight List.filter length].
    rewrite Hb, Hp, Hbtn.
    assert (n = 0%nat) as -> by lia. cbn. repeat split; try done; lia.
Qed.

Lemma sequential_run n0 evs : ∀ done st st',
  sequential n0 done st → run evs st = Some st' →
  sequential n0 (done + answers evs) st'.
Proof.
  induction evs as [|ev evs IH]; intros done st st' Hseq Hrun; simpl in Hrun.
  - injection Hrun as <-. unfold answers. simpl. by rewrite Nat.add_0_r.
  - destruct (step ev st) as [st1|] eqn:Hstep; [|done]. simpl in Hrun.
    pose proof (sequential_step n0 done ev st st1 Hseq Hstep) as H1.
    pose proof (IH _ _ _ H1 Hrun) as H2.
    replace (done + answers (ev :: evs))%nat
      with (done + answers [ev] + answers evs)%nat; [done|].
    unfold answers. simpl. destruct ev; simpl; lia.
Qed.

(** X17.  On a form with a submit button, however the user edits, submits
    and however the answers come: at most one withdraw request is under way
    at any time; the button is disabled exactly while one is, and enabled
    again by every answer, failures and network errors included; a second
    request is sent only after the first was answered; and the number of
    POSTs sent is the number of answers received plus the request under
    way. *)
Theorem one_withdrawal_at_a_time p evs st :
  btn p = Some false →
  run evs {| pg := p; inflight := 0 |} = Some st →
  (inflight st <= 1)%nat
  ∧ btn (pg st) = Some (bool_decide (inflight st = 1%nat))
  ∧ length (posts (pg st)) = (length (posts p) + answers evs + inflight st)%nat
  ∧ (inflight st = 1%nat → step Submit st = None)
  ∧ (∀ r st', step (Answer r) st = Some st' → btn (pg st') = Some false).
Proof.
  intros Hbtn Hrun.
  assert (H0 : sequential (length (posts p)) 0 {| pg := p; inflight := 0 |}).
  { unfold sequential. simpl. rewrite Hbtn. repeat split; try done; lia. }
  destruct (sequential_run _ evs 0 _ st H0 Hrun) as (Hb & Hone & Hposts).
  simpl in Hposts. repeat split; try done.
  - intros Hfl. cbn -[submit sends]. rewrite Hb, Hfl. done.
  - intros r st' Hstep. cbn -[respond] in Hstep.
    destruct (inflight st) as [|n]; [done|]. injection Hstep as <-.
    cbn [pg]. destruct (respond_frame r (pg st)) as [-> _]. by rewrite Hb.
Qed.

End Form.

(** Two submissions of 10: the second is possible only after the answer to
    the first, a server error here, which leaves the amount in the input. *)
Lemma one_withdrawal_at_a_time_witness :
  ∃ st, run NumberDecimal [Submit; Answer (Http 500 None); Submit]
            {| pg := typed "10"; inflight := 0 |} = Some st
        ∧ posts (pg st) = [10%Q; 10%Q]
        ∧ run NumberDecimal [Submit; Submit] {| pg := typed "10"; inflight := 0 |}
          = None
        ∧ btn (pg st) = Some (bool_decide (inflight st = 1%nat)).
Proof.
  eexists. split; [vm_compute; reflexivity|]. split; [reflexivity|].
  split; [reflexivity|].
  refine (proj1 (proj2 (one_withdrawal_at_a_time NumberDecimal (typed "10")
                          [Submit; Answer (Http 500 None); Submit] _ _ _))).
  - reflexivity.
  - vm_compute. reflexivity.
Defined.

End WithdrawMore.

(* ===================================================================== *)
(** * Login page polish (static/js/index_login.js)                        *)
(* ===================================================================== *)
Module Login.

(** ** The background glow animator [bg] *)

(** A layer of the body's [background-image]: a reference to one of the two
    custom properties, the gradient such a reference resolves to when the
    properties were set for time [t], a layer of the style sheet, or the
    keyword [none]. *)
Inductive layer :=
  | OrbVar (second : bool)              (* var(--vm-bg-orb-1), var(--vm-bg-orb-2) *)
  | OrbGradient (second : bool) (t : Q) (* the radial gradient computed from t *)
  | SheetLayer (n : nat)
  | NoImage.

(** [getComputedStyle(document.body).backgroundImage] while the custom
    properties hold the gradients of time [t]: references are resolved. *)
Definition computed (t : Q) (layers : list layer) : list layer :=
  (λ l, match l with OrbVar k => OrbGradient k t | _ => l end) <$> layers.

(** [bg.speed] *)
Definition speed : Q := 9 # 10000.

(** The object [bg], the animation frames the browser holds for the page,
    and the body's background. *)
Record state := {
  t : Q;                        (* bg.t *)
  rafId : option positive;      (* bg.rafId; handles are positive, hence truthy *)
  pending : gset positive;      (* frame requests neither run nor cancelled *)
  next : positive;              (* the next handle requestAnimationFrame returns *)
  background : list layer       (* body's background-image *)
}.

Section Motion.

(** [prefers-reduced-motion: reduce] matched when the script loaded. *)
Variable prefersReduced : bool.

(** [requestAnimationFrame(this.tick.bind(this))], stored in [bg.rafId]. *)
Definition request (st : state) : state :=
  {| t := t st; rafId := Some (next st);
     pending := {[next st]} ∪ pending st; next := (next st + 1)%positive;
     background := background st |}.

(** [bg.start()] *)
Definition start (st : state) : state :=
  if prefersReduced then st
  else match rafId st with
       | Some _ => st
       | None => request st
       end.

(** [bg.stop()] *)
Definition stop (st : state) : state :=
  {| t := t st; rafId := None;
     pending := match rafId st with
                | Some h => pending st ∖ {[h]}
                | None => pending st
                end;
     next := next st; background := background st |}.

(** [bg.tick()], run by the browser for the frame request [h]. *)
Definition tick (h : positive) (st : state) : state :=
  let t' := (t st + speed)%Q in
  request
    {| t := t'; rafId := rafId st; pending := pending st ∖ {[h]};
       next := next st;
       background :=
         if prefersReduced then background st
         else OrbVar false :: OrbVar true :: computed t' (background st) |}.

Inductive event :=
  | Start             (* DOMContentLoaded *)
  | Stop              (* beforeunload *)
  | Frame (h : positive).

Definition step (ev : event) (st : state) : option state :=
  match ev with
  | Start => Some (start st)
  | Stop => Some (stop st)
  | Frame h => if decide (h ∈ pending st) then Some (tick h st) else None
  end.

Fixpoint run (evs : list event) (st : state) : option state :=
  match evs with
  | [] => Some st
  | ev :: evs' => st' ← step ev st; run evs' st'
  end.

(** The page before [DOMContentLoaded], with the background of the style
    sheet ([none] when it sets no image). *)
Definition loaded (sheet : list layer) : state :=
  {| t := 0; rafId := None; pending := ∅; next := 1%positive;
     background := match sheet with [] => [NoImage] | _ => sheet end |}.

Definition frames (evs : list event) : nat :=
  length (List.filter (λ ev, match ev with Frame _ => true | _ => false end) evs).

(** The frame the browser holds is the one [bg.rafId] names. *)
Definition single (st : state) : Prop :=
  pending st = match rafId st with Some h => {[h]} | None => ∅ end
  ∧ (∀ h, rafId st = Some h → (h < next st)%positive)
  ∧ (prefersReduced = true → rafId st = None).

Lemma single_step ev st st' : single st → step ev st = Some st' → single st'.
Proof.
  unfold single. intros (Hp & Hn & Hr) Hstep.
  destruct ev as [| |h]; simpl in Hstep.
  - injection Hstep as <-. unfold start.
    destruct prefersReduced eqn:Hred; [done|].
    destruct (rafId st) as [h0|] eqn:Hid; [by rewrite Hid|].
    simpl. rewrite Hp. split; [set_solver|].
    split; [|done]. intros h [= <-]. lia.
  - injection Hstep as <-. simpl. rewrite Hp.
    destruct (rafId st); split; try done; set_solver.
  - destruct (decide (h ∈ pending st)) as [Hin|]; [|done].
    injection Hstep as <-. simpl.
    rewrite Hp in Hin |- *.
    destruct (rafId st) as [h0|] eqn:Hid; [|set_solver].
    assert (h = h0) as -> by set_solver.
    split; [set_solver|]. split.
    + intros h [= <-]. lia.
    + intros Hred. by specialize (Hr Hred).
Qed.

Lemma single_run evs : ∀ st st', single st → run evs st = Some st' → single st'.
Proof.
  induction evs as [|ev evs IH]; intros st st' Hs Hrun; simpl in Hrun.
  - by injection Hrun as <-.
  - destruct (step ev st) as [st1|] eqn:Hstep; [|done]. simpl in Hrun.
    eapply IH; [|exact Hrun]. by eapply single_step.
Qed.

Lemma single_loaded sheet : single (loaded sheet).
Proof. by split. Qed.

(** X18.  However often the animator is started and stopped and whichever
    frames run in between: the browser never holds more than one animation
    frame for it, and that frame is the one [bg.rafId] names, so starting
    twice does not double the loop; after [stop] no frame is left, nothing
    can run and the loop stays stopped until it is started again; and under
    reduced motion no frame is ever requested. *)
Theorem one_animation_loop sheet evs st :
  run evs (loaded sheet) = Some st →
  pending st = match rafId st with Some h => {[h]} | None => ∅ end
  ∧ pending (start st) = (if prefersReduced then ∅
                          else match rafId st with
                               | Some h => {[h]}
                               | None => {[next st]}
                               end)
  ∧ pending (stop st) = ∅
  ∧ (∀ h, step (Frame h) (stop st) = None)
  ∧ (prefersReduced = true → pending st = ∅ ∧ ∀ h, step (Frame h) st = None).
Proof.
  intros Hrun.
  destruct (single_run evs _ _ (single_loaded sheet) Hrun) as (Hp & Hn & Hr).
  split; [done|]. split; [|split; [|split]].
  - unfold start. destruct prefersReduced eqn:Hred.
    + by rewrite Hp, Hr.
    + destruct (rafId st) as [h|] eqn:Hid; [by rewrite Hp|].
      simpl. rewrite Hp. set_solver.
  - simpl. rewrite Hp. destruct (rafId st); set_solver.
  - intros h. simpl. rewrite Hp.
    destruct (decide _) as [Hin|]; [|done]. destruct (rafId st); set_solver.
  - intros Hred. rewrite Hp, (Hr Hred). split; [done|]. intros h. simpl.
    rewrite Hp, (Hr Hred). by destruct (decide _) as [Hin|].
Qed.

(** ** The background grows with every frame *)

Lemma background_step ev st st' :
  step ev st = Some st' →
  length (background st')
  = (length (background st)
     + if prefersReduced then 0 else 2 * frames [ev])%nat.
Proof.
  intros Hstep. unfold frames. destruct ev as [| |h]; simpl in Hstep.
  - injection Hstep as <-. unfold start. simpl.
    destruct prefersReduced; [lia|]. destruct (rafId st); simpl; lia.
  - injection Hstep as <-. simpl. destruct prefersReduced; lia.
  - destruct (decide _); [|done]. injection Hstep as <-. simpl.
    destruct prefersReduced; simpl; [lia|].
    unfold computed. rewrite length_fmap. lia.
Qed.

Lemma background_run evs : ∀ st st',
  run evs st = Some st' →
  length (background st')
  = (length (background st)
     + if prefersReduced then 0 else 2 * frames evs)%nat.
Proof.
  induction evs as [|ev evs IH]; intros st st' Hrun; simpl in Hrun.
  - injection Hrun as <-. unfold frames. simpl. destruct prefersReduced; lia.
  - destruct (step ev st) as [st1|] eqn:Hstep; [|done]. simpl in Hrun.
    rewrite (IH _ _ Hrun), (background_step _ _ _ Hstep).
    unfold frames. destruct ev, prefersReduced; simpl; lia.
Qed.

(** X19.  Every frame of the glow animation puts the two orb layers in
    front of the body's computed background, in which the layers of the
    frames before are still there (with their references resolved): the
    background never shrinks, and after [n] frames it has [2n] layers more
    than the style sheet gave it, whatever starts and stops came in between.
    The first two layers are the references to the two custom properties. *)
Theorem background_grows_with_every_frame sheet evs st :
  prefersReduced = false →
  run evs (loaded sheet) = Some st →
  length (background st) = (length (background (loaded sheet)) + 2 * frames evs)%nat
  ∧ (0 < frames evs → take 2 (background st) = [OrbVar false; OrbVar true])%nat.
Proof.
  intros Hred Hrun. split.
  - rewrite (background_run evs _ _ Hrun). by rewrite Hred.
  - clear -Hred Hrun. revert st Hrun.
    induction evs as [|ev evs IH] using rev_ind; intros st Hrun Hpos.
    { unfold frames in Hpos. simpl in Hpos. lia. }
    assert (Hsplit : ∃ st1, run evs (loaded sheet) = Some st1
                            ∧ step ev st1 = Some st).
    { clear -Hrun. revert Hrun. generalize (loaded sheet).
      induction evs as [|e evs IH]; intros s Hrun; simpl in *.
      - destruct (step ev s) as [s1|] eqn:Hs; [|done]. simpl in Hrun.
        injection Hrun as <-. by exists s.
      - destruct (step e s) as [s1|]; [|done]. simpl in *. by apply IH. }
    destruct Hsplit as (st1 & Hrun1 & Hstep).
    destruct ev as [| |h]; simpl in Hstep.
    + injection Hstep as <-. unfold start. rewrite Hred.
      assert (Hf : (0 < frames evs)%nat).
      { unfold frames in *. rewrite List.filter_app, length_app in Hpos.
        simpl in Hpos. lia. }
      destruct (rafId st1); simpl; by apply IH.
    + injection Hstep as <-. simpl.
      assert (Hf : (0 < frames evs)%nat).
      { unfold frames in *. rewrite List.filter_app, length_app in Hpos.
        simpl in Hpos. lia. }
      by apply IH.
    + destruct (decide _); [|done]. injection Hstep as <-. simpl.
      by rewrite Hred.
Qed.

End Motion.

(** Start, three frames, a second start and a stop: one loop, six layers
    more. *)
Lemma background_grows_with_every_frame_witness :
  ∃ st, run false [Start; Frame 1; Start; Frame 2; Frame 3; Stop] (loaded []) = Some st
        ∧ length (background st) = 7%nat
        ∧ pending st = ∅.
Proof.
  eexists. split; [vm_compute; reflexivity|]. split; [|reflexivity].
  refine (proj1 (background_grows_with_every_frame false []
                   [Start; Frame 1; Start; Frame 2; Frame 3; Stop] _ eq_refl _)).
  vm_compute. reflexivity.
Defined.

Lemma one_animation_loop_witness :
  ∃ st, run false [Start; Frame 1; Start] (loaded []) = Some st
        ∧ pending st = {[2%positive]}
        ∧ pending (stop st) = ∅.
Proof.
  eexists. split; [vm_compute; reflexivity|]. split; [reflexivity|].
  refine (proj1 (proj2 (proj2 (one_animation_loop false [] [Start; Frame 1; Start] _ _)))).
  vm_compute. reflexivity.
Defined.

(** ** The card tilt *)

(** [clamp(n, min, max)], [lerp(a, b, t)] and [Math.abs(x)] *)
Definition clamp (n lo hi : Q) : Q := Qmin hi (Qmax lo n).
Definition lerp (a b t : Q) : Q := (a + (b - a) * t)%Q.
Definition abs (x : Q) : Q := if Qle_bool 0 x then x else (- x)%Q.

(** [card.getBoundingClientRect()] *)
Record rect := {
  r_left : Q;
  r_top : Q;
  r_width : Q;
  r_height : Q
}.

(** [tilt.max] (degrees) and [tilt.shadow] (px). *)
Definition tilt_max : Q := 6.
Definition tilt_shadow : Q := 24.

(** What [tilt.onMove(e)] writes: the two rotations and the vertical offset
    of the shadow. *)
Record pose := {
  rotateX : Q;
  rotateY : Q;
  shadow_y : Q
}.

(** The pointer's offset from the centre of the card, in half widths resp.
    half heights. *)
Definition offset_x (rc : rect) (clientX : Q) : Q :=
  ((clientX - (r_left rc + r_width rc / 2)) / (r_width rc / 2))%Q.
Definition offset_y (rc : rect) (clientY : Q) : Q :=
  ((clientY - (r_top rc + r_height rc / 2)) / (r_height rc / 2))%Q.

Definition onMove (rc : rect) (clientX clientY : Q) : pose :=
  let dx := offset_x rc clientX in
  let dy := offset_y rc clientY in
  {| rotateX := clamp (- dy * tilt_max) (- tilt_max) tilt_max;
     rotateY := clamp (dx * tilt_max) (- tilt_max) tilt_max;
     shadow_y := lerp 8 tilt_shadow (abs dy) |}.

(** The pointer is over the card. *)
Definition over (rc : rect) (clientX clientY : Q) : Prop :=
  (r_left rc <= clientX <= r_left rc + r_width rc)%Q
  ∧ (r_top rc <= clientY <= r_top rc + r_height rc)%Q.

Lemma clamp_bounds n lo hi : (lo <= hi)%Q → (lo <= clamp n lo hi <= hi)%Q.
Proof.
  intros Hle. unfold clamp. split.
  - apply Q.min_glb; [done|apply Q.le_max_l].
  - apply Q.le_min_l.
Qed.

Lemma clamp_inside n lo hi : (lo <= n <= hi)%Q → (clamp n lo hi == n)%Q.
Proof.
  intros [Hlo Hhi]. unfold clamp.
  rewrite (Q.max_r lo n Hlo). by apply Q.min_r.
Qed.

(** An offset from the centre of a span of positive length, in half
    lengths, is between -1 and 1 inside the span. *)
Lemma offset_inside start len x :
  (0 < len)%Q → (start <= x <= start + len)%Q →
  (-1 <= (x - (start + len / 2)) / (len / 2) <= 1)%Q.
Proof.
  intros Hlen [Hlo Hhi].
  assert (Hhalf : (0 < len / 2)%Q).
  { unfold Qdiv. change (/ 2)%Q with (1 # 2)%Q. lra. }
  assert (Hinv : (0 < / (len / 2))%Q) by (by apply Qinv_lt_0_compat).
  assert (Hone : (len / 2 * / (len / 2) == 1)%Q).
  { apply Qmult_inv_r. intros H. rewrite H in Hhalf. by apply Qlt_irrefl in Hhalf. }
  assert (Hd : (- (len / 2) <= x - (start + len / 2) <= len / 2)%Q).
  { unfold Qdiv in *. change (/ 2)%Q with (1 # 2)%Q in *. lra. }
  change (-1 <= (x - (start + len / 2)) * / (len / 2) <= 1)%Q.
  set (q := (/ (len / 2))%Q) in *.
  set (d := (x - (start + len / 2))%Q) in *. set (h := (len / 2)%Q) in *.
  clearbody q d h. destruct Hd as [Hd1 Hd2].
  assert (H1 : (- h * q <= d * q)%Q) by (apply Qmult_le_compat_r; lra).
  assert (H2 : (d * q <= h * q)%Q) by (apply Qmult_le_compat_r; lra).
  split; lra.
Qed.

(** X21.  For a card of positive width and height and every position of
    the pointer, the tilt written by [onMove] never exceeds 6 degrees either
    way.  While the pointer is over the card nothing is cut off: the
    rotations are 6 degrees times the pointer's offset from the centre (in
    half heights resp. half widths, the vertical one negated), and the
    shadow offset lies between 8 and 24 px. *)
Theorem tilt_within_limits rc clientX clientY :
  (0 < r_width rc)%Q → (0 < r_height rc)%Q →
  let p := onMove rc clientX clientY in
  (-6 <= rotateX p <= 6)%Q ∧ (-6 <= rotateY p <= 6)%Q
  ∧ (over rc clientX clientY →
     (rotateX p == - offset_y rc clientY * 6)%Q
     ∧ (rotateY p == offset_x rc clientX * 6)%Q
     ∧ (8 <= shadow_y p <= 24)%Q).
Proof.
  intros Hw Hh p. subst p. unfold onMove, tilt_max, tilt_shadow. simpl.
  split; [by apply clamp_bounds|]. split; [by apply clamp_bounds|].
  intros [Hx Hy].
  pose proof (offset_inside (r_left rc) (r_width rc) clientX Hw Hx) as Hdx.
  pose proof (offset_inside (r_top rc) (r_height rc) clientY Hh Hy) as Hdy.
  fold (offset_x rc clientX) in Hdx. fold (offset_y rc clientY) in Hdy.
  set (dx := offset_x rc clientX) in *. set (dy := offset_y rc clientY) in *.
  split; [apply clamp_inside; lra|]. split; [apply clamp_inside; lra|].
  unfold lerp.
  assert (Habs : (0 <= abs dy <= 1)%Q).
  { unfold abs. destruct (Qle_bool 0 dy) eqn:Hsign.
    - apply Qle_bool_iff in Hsign. lra.
    - assert (dy < 0)%Q; [|lra].
      destruct (Qlt_le_dec dy 0) as [|Hge]; [done|].
      apply Qle_bool_iff in Hge. congruence. }
  lra.
Qed.

(** A card of 400 by 200 px at (100, 50): a pointer on its right edge, a
    quarter of the height below the centre. *)
Lemma tilt_within_limits_witness :
  onMove {| r_left := 100; r_top := 50; r_width := 400; r_height := 200 |} 500 200
  = {| rotateX := clamp (- ((200 - (50 + 200 / 2)) / (200 / 2)) * 6) (- (6)) 6;
       rotateY := clamp ((500 - (100 + 400 / 2)) / (400 / 2) * 6) (- (6)) 6;
       shadow_y := lerp 8 24 (abs ((200 - (50 + 200 / 2)) / (200 / 2))) |}%Q
  ∧ (-6 <= rotateX (onMove {| r_left := 100; r_top := 50; r_width := 400;
                              r_height := 200 |} 500 200) <= 6)%Q.
Proof.
  split; [reflexivity|].
  refine (proj1 (tilt_within_limits
                   {| r_left := 100; r_top := 50; r_width := 400; r_height := 200 |}
                   500 200 _ _)); reflexivity.
Defined.

End Login.
